(** * shrina-proxy-v2: playlist rewriting, content classification, cache and
      fetch pipeline

    A shallow embedding of the TypeScript sources
    ([mime-types.ts], [cache.ts], the domain-template table, the M3U8
    rewriter and the [/proxy] request handler) together with the
    properties the specification states about them.

    Conventions
    - a JavaScript string is the list of its UTF-16 code units ([list N]);
      ASCII literals are written [js "..."];
    - a [Buffer] / [Uint8Array] is a [list Byte.byte];
    - an expression that may throw has type [outcome A]; [try]/[catch] is
      written out with [try_catch];
    - facilities of the JavaScript platform that the repository calls but
      does not define (the WHATWG [URL] parser, [fetch], zlib, UTF-8
      decoding, [toLowerCase]) are fields of a [Platform] record over
      which every general theorem is quantified. *)

From Stdlib Require Import ZArith NArith List Ascii String Bool Lia QArith
  DecimalString.
From stdpp Require Import base option list gmap.

Set Default Proof Using "Type".
Local Open Scope N_scope.

(** ** JavaScript strings *)

Abbreviation jsstring := (list N).
Abbreviation bytes := (list Byte.byte).

Definition js (s : string) : jsstring :=
  List.map N_of_ascii (list_ascii_of_string s).

Definition LF : N := 10.
Definition CR : N := 13.
Definition DQUOTE : N := 34.
Definition HASH : N := 35.
Definition DOLLAR : N := 36.

(** [s.startsWith(p)] *)
Fixpoint startsWith (s p : jsstring) {struct p} : bool :=
  match p, s with
  | [], _ => true
  | _ :: _, [] => false
  | b :: p', a :: s' => (a =? b) && startsWith s' p'
  end.

(** [s.endsWith(p)] *)
Definition endsWith (s p : jsstring) : bool :=
  startsWith (rev s) (rev p).

(** [s.indexOf(p)]: the least index at which [p] occurs, [None] for -1. *)
Fixpoint indexOf (s p : jsstring) : option nat :=
  if startsWith s p then Some 0%nat
  else match s with
       | [] => None
       | _ :: s' => S <$> indexOf s' p
       end.

(** [s.includes(p)] *)
Definition includes (s p : jsstring) : bool :=
  bool_decide (is_Some (indexOf s p)).

(** [s.lastIndexOf(c)] for a one-character needle, as an integer
    (-1 when absent). *)
Fixpoint lastIndexOf_from (i : Z) (s : jsstring) (c : N) (found : Z) : Z :=
  match s with
  | [] => found
  | a :: s' => lastIndexOf_from (i + 1) s' c (if a =? c then i else found)
  end.

Definition lastIndexOf (s : jsstring) (c : N) : Z :=
  lastIndexOf_from 0 s c (-1).

(** [s.substring(0, e)] *)
Definition substring0 (s : jsstring) (e : Z) : jsstring :=
  take (Z.to_nat e) s.

(** White space and line terminators removed by [String.prototype.trim]. *)
Definition isWhiteSpace (c : N) : bool :=
  (c =? 9) || (c =? 10) || (c =? 11) || (c =? 12) || (c =? 13) ||
  (c =? 32) || (c =? 160) || (c =? 5760) ||
  ((8192 <=? c) && (c <=? 8202)) ||
  (c =? 8232) || (c =? 8233) || (c =? 8239) || (c =? 8287) ||
  (c =? 12288) || (c =? 65279).

Fixpoint trimStart (s : jsstring) : jsstring :=
  match s with
  | c :: s' => if isWhiteSpace c then trimStart s' else s
  | [] => []
  end.

Definition trimEnd (s : jsstring) : jsstring :=
  rev (trimStart (rev s)).

Definition trim (s : jsstring) : jsstring :=
  trimEnd (trimStart s).

(** ASCII letters only; used by the reference platform and by the
    case-insensitive regular expressions. *)
Definition asciiLower (c : N) : N :=
  if (65 <=? c) && (c <=? 90) then c + 32 else c.

(** ** Byte buffers: [detectTransportStream] (mime-types.ts) *)

#[global] Instance byte_eq_dec : EqDecision Byte.byte := Byte.byte_eq_dec.

Definition SYNC_BYTE : Byte.byte := Byte.x47.

(** [data[i] === 0x47]; an index past the end reads [undefined]. *)
Definition isSync (data : bytes) (i : nat) : bool :=
  match data !! i with
  | Some b => Byte.eqb b SYNC_BYTE
  | None => false
  end.

(** One iteration of the loop [for (let i = 1; i <= 5; i++)]. *)
Definition syncStep (data : bytes) (syncByteCount : nat) (i : nat) : nat :=
  let offset := (i * 188)%nat in
  if bool_decide (offset < length data)%nat && isSync data offset
  then S syncByteCount else syncByteCount.

Definition detectTransportStream (data : bytes) : bool :=
  if bool_decide (length data < 188)%nat then false
  else if negb (isSync data 0) then false
  else
    let syncByteCount := foldl (syncStep data) 1%nat [1; 2; 3; 4; 5]%nat in
    bool_decide (2 <= syncByteCount)%nat.

Definition strideOffsets : list nat := [188; 376; 564; 752; 940]%nat.

(** A stride is counted exactly when it is in bounds and holds the sync byte. *)
Definition strideHit (data : bytes) (o : nat) : bool :=
  bool_decide (o < length data)%nat && isSync data o.


(** ** Exceptions *)

Record JsError := { error_name : jsstring; error_message : jsstring }.

Inductive outcome (A : Type) : Type :=
| Ret (a : A)
| Throw (e : JsError).
Arguments Ret {A} a.
Arguments Throw {A} e.

#[global] Instance outcome_ret : MRet outcome := @Ret.
#[global] Instance outcome_bind : MBind outcome :=
  fun A B k m => match m with Ret a => k a | Throw e => Throw e end.

(** [try { body } catch (e) { handler e }] *)
Definition try_catch {A} (body : outcome A) (handler : JsError → outcome A)
  : outcome A :=
  match body with
  | Ret a => Ret a
  | Throw e => handler e
  end.

(** [xs.map(f)] for a callback that may throw. *)
Fixpoint mapM {A B} (f : A → outcome B) (xs : list A) : outcome (list B) :=
  match xs with
  | [] => Ret []
  | x :: xs' => y ← f x; ys ← mapM f xs'; Ret (y :: ys)
  end.

(** [for (const x of xs) { acc = f acc x }] for a body that may throw. *)
Fixpoint foldM {A B} (f : B → A → outcome B) (acc : B) (xs : list A)
  : outcome B :=
  match xs with
  | [] => Ret acc
  | x :: xs' => acc' ← f acc x; foldM f acc' xs'
  end.

Definition returns {A} (m : outcome A) : Prop := ∃ a, m = Ret a.

(** ** More string operations *)

(** [content.split(/\r?\n/)] *)
Definition consLine (c : N) (ls : list jsstring) : list jsstring :=
  match ls with
  | l :: ls' => (c :: l) :: ls'
  | [] => [[c]]
  end.

Fixpoint splitLines (s : jsstring) : list jsstring :=
  match s with
  | [] => [[]]
  | c :: t =>
      if c =? LF then [] :: splitLines t
      else match t with
           | d :: t' =>
               if (c =? CR) && (d =? LF) then [] :: splitLines t'
               else consLine c (splitLines t)
           | [] => consLine c (splitLines t)
           end
  end.

(** [lines.join('\n')] *)
Fixpoint joinLines (ls : list jsstring) : jsstring :=
  match ls with
  | [] => []
  | [l] => l
  | l :: ls' => l ++ LF :: joinLines ls'
  end.

(** The five characters that open an attribute: [URI=] and a double
    quote (written Q in the comments below). *)
Definition URI_OPEN : jsstring := js "URI=" ++ [DQUOTE].

(** The longest run of characters other than the double quote at the
    head of [s] (the greedy class [[^Q]*]), and what follows it. *)
Fixpoint spanNotQuote (s : jsstring) : jsstring * jsstring :=
  match s with
  | c :: t =>
      if c =? DQUOTE then ([], s)
      else let '(v, r) := spanNotQuote t in (c :: v, r)
  | [] => ([], [])
  end.

(** One attempt of the regular expression [/URI=Q([^Q]+)Q/] anchored at
    the head of [s]: the capture group on success.  The class is greedy
    and cannot give a character back to help the closing quote match,
    since it stops only at a quote or at the end of the string. *)
Definition uriMatchHere (s : jsstring) : option jsstring :=
  if startsWith s URI_OPEN then
    let '(v, r) := spanNotQuote (drop 5 s) in
    match v, r with
    | _ :: _, q :: _ => if q =? DQUOTE then Some v else None
    | _, _ => None
    end
  else None.

(** [line.matchAll(/URI=Q([^Q]+)Q/g)], keeping [match[1]] of every match.
    The scan tries each position from left to right; after a match it
    resumes behind the match ([skip] counts the characters of the match
    still to be passed over). *)
Fixpoint uriScan (skip : nat) (s : jsstring) : list jsstring :=
  match s with
  | [] => []
  | _ :: t =>
      match skip with
      | S k => uriScan k t
      | O =>
          match uriMatchHere s with
          | Some v => v :: uriScan (5 + length v) t
          | None => uriScan 0 t
          end
      end
  end.

Definition uriMatches (line : jsstring) : list jsstring := uriScan 0 line.

(** [GetSubstitution] of ECMA-262 for a string pattern (no capture
    groups): [$$], [$&], [$`] and [$'] are expanded in the replacement,
    every other character stands for itself. *)
Fixpoint getSubstitution (matched before after replacement : jsstring)
  : jsstring :=
  match replacement with
  | [] => []
  | c :: r =>
      if c =? DOLLAR then
        match r with
        | d :: r' =>
            if d =? 36 then DOLLAR :: getSubstitution matched before after r'
            else if d =? 38 then matched ++ getSubstitution matched before after r'
            else if d =? 96 then before ++ getSubstitution matched before after r'
            else if d =? 39 then after ++ getSubstitution matched before after r'
            else c :: getSubstitution matched before after r
        | [] => [c]
        end
      else c :: getSubstitution matched before after r
  end.

(** [s.replace(pattern, replacement)] with a string pattern: the first
    occurrence only. *)
Definition replaceFirst (s pattern replacement : jsstring) : jsstring :=
  match indexOf s pattern with
  | None => s
  | Some i =>
      let before := take i s in
      let after := drop (i + length pattern) s in
      before ++ getSubstitution pattern before after replacement ++ after
  end.

(** *** [encodeURIComponent] *)

Definition isHighSurrogate (c : N) : bool := (55296 <=? c) && (c <=? 56319).
Definition isLowSurrogate (c : N) : bool := (56320 <=? c) && (c <=? 57343).

(** The code points of a UTF-16 string; [None] marks a lone surrogate. *)
Fixpoint codePoints (s : jsstring) : list (option N) :=
  match s with
  | [] => []
  | c :: t =>
      if isHighSurrogate c then
        match t with
        | d :: t' =>
            if isLowSurrogate d
            then Some ((c - 55296) * 1024 + (d - 56320) + 65536) :: codePoints t'
            else None :: codePoints t
        | [] => [None]
        end
      else if isLowSurrogate c then None :: codePoints t
      else Some c :: codePoints t
  end.

(** The UTF-8 octets of a code point. *)
Definition utf8Octets (cp : N) : list N :=
  if cp <? 128 then [cp]
  else if cp <? 2048 then [192 + cp / 64; 128 + cp mod 64]
  else if cp <? 65536 then
    [224 + cp / 4096; 128 + (cp / 64) mod 64; 128 + cp mod 64]
  else
    [240 + cp / 262144; 128 + (cp / 4096) mod 64;
     128 + (cp / 64) mod 64; 128 + cp mod 64].

Definition hexDigit (n : N) : N :=
  if n <? 10 then 48 + n else 55 + n.

(** [%XX] with upper-case hexadecimal digits ([b / 16] is below 16 for
    an octet; the [mod] only makes the function total on other numbers). *)
Definition percentOctet (b : N) : jsstring :=
  [37; hexDigit ((b / 16) mod 16); hexDigit (b mod 16)].

(** The characters [encodeURIComponent] leaves alone:
    [A-Z a-z 0-9 - _ . ! ~ * ' ( )]. *)
Definition isUriUnreserved (c : N) : bool :=
  ((65 <=? c) && (c <=? 90)) || ((97 <=? c) && (c <=? 122)) ||
  ((48 <=? c) && (c <=? 57)) ||
  (c =? 45) || (c =? 95) || (c =? 46) || (c =? 33) || (c =? 126) ||
  (c =? 42) || (c =? 39) || (c =? 40) || (c =? 41).

Definition encodeCodePoint (cp : N) : jsstring :=
  if isUriUnreserved cp then [cp]
  else concat (percentOctet <$> utf8Octets cp).

Definition URIError : JsError :=
  {| error_name := js "URIError"; error_message := js "URI malformed" |}.

Fixpoint encodePoints (cps : list (option N)) : outcome jsstring :=
  match cps with
  | [] => Ret []
  | None :: _ => Throw URIError
  | Some cp :: rest => r ← encodePoints rest; Ret (encodeCodePoint cp ++ r)
  end.

Definition encodeURIComponent (s : jsstring) : outcome jsstring :=
  encodePoints (codePoints s).

(** [Buffer.from(s)] / [Buffer.byteLength(s, 'utf-8')]: UTF-8 with
    U+FFFD in place of a lone surrogate. *)
Definition byteOfN (n : N) : Byte.byte :=
  match Byte.of_N n with Some b => b | None => Byte.x00 end.

Definition Buffer_from (s : jsstring) : bytes :=
  byteOfN <$> concat ((λ cp, utf8Octets (default 65533 cp)) <$> codePoints s).

(** [n.toString()] for a non-negative integer. *)
Definition numberToString (n : N) : jsstring :=
  js (DecimalString.NilZero.string_of_uint (N.to_uint n)).

(** ** Regular expressions of the pattern tables

    The tables ([domainTemplates], [SEGMENT_PATTERNS]) use literals,
    alternation, [\d+] and a final [$], all with the [i] flag.  [test]
    searches for a match starting anywhere in the subject. *)

Inductive re : Type :=
| ReFail                    (* matches nothing *)
| ReEps                     (* the empty string *)
| ReChr (c : N)             (* one literal character *)
| ReDigit                   (* \d *)
| ReEnd                     (* $ *)
| ReCat (r1 r2 : re)
| ReAlt (r1 r2 : re)
| RePlus (r : re).

Record RegExp := { re_source : re; re_ignoreCase : bool }.

(** Can [r] match the empty string here?  [atEnd] tells whether the
    subject is exhausted, which is what [$] asks for. *)
Fixpoint nullable (atEnd : bool) (r : re) : bool :=
  match r with
  | ReFail | ReChr _ | ReDigit => false
  | ReEps => true
  | ReEnd => atEnd
  | ReCat a b => nullable atEnd a && nullable atEnd b
  | ReAlt a b => nullable atEnd a || nullable atEnd b
  | RePlus a => nullable atEnd a
  end.

Definition mkCat (a b : re) : re :=
  match a with ReFail => ReFail | _ => ReCat a b end.

Definition mkAlt (a b : re) : re :=
  match a, b with
  | ReFail, _ => b
  | _, ReFail => a
  | _, _ => ReAlt a b
  end.

Definition chrMatches (icase : bool) (c d : N) : bool :=
  if icase then asciiLower c =? asciiLower d else c =? d.

(** The residual of [r] after reading the character [d]. *)
Fixpoint deriv (icase : bool) (d : N) (r : re) : re :=
  match r with
  | ReFail | ReEps | ReEnd => ReFail
  | ReChr c => if chrMatches icase c d then ReEps else ReFail
  | ReDigit => if (48 <=? d) && (d <=? 57) then ReEps else ReFail
  | ReCat a b =>
      mkAlt (mkCat (deriv icase d a) b)
            (if nullable false a then deriv icase d b else ReFail)
  | ReAlt a b => mkAlt (deriv icase d a) (deriv icase d b)
  | RePlus a => mkCat (deriv icase d a) (ReAlt ReEps (RePlus a))
  end.

(** Does some prefix of [s] match [r]? *)
Fixpoint matchesPrefix (icase : bool) (r : re) (s : jsstring) : bool :=
  match s with
  | [] => nullable true r
  | d :: t => nullable false r || matchesPrefix icase (deriv icase d r) t
  end.

(** [pattern.test(s)] *)
Fixpoint searchFrom (icase : bool) (r : re) (s : jsstring) : bool :=
  matchesPrefix icase r s ||
  match s with
  | [] => false
  | _ :: t => searchFrom icase r t
  end.

Definition RegExp_test (p : RegExp) (s : jsstring) : bool :=
  searchFrom (re_ignoreCase p) (re_source p) s.

Definition lit (s : string) : re :=
  foldr (λ c r, ReCat (ReChr c) r) ReEps (js s).

Definition cat (rs : list re) : re := foldr ReCat ReEps rs.

Definition alts (ss : list string) : re := foldr (λ s r, ReAlt (lit s) r) ReFail ss.

Definition digits : re := RePlus ReDigit.

(** [/.../i] *)
Definition rx_i (r : re) : RegExp := {| re_source := r; re_ignoreCase := true |}.

(** [/<s>$/i]: a case-insensitive suffix. *)
Definition suffix_i (s : string) : RegExp := rx_i (cat [lit s; ReEnd]).

(** [/(a|b|...)<s>$/i] *)
Definition alt_suffix_i (names : list string) (s : string) : RegExp :=
  rx_i (cat [alts names; lit s; ReEnd]).

(** ** Domain templates (domain-templates.ts) *)

Abbreviation headers := (gmap jsstring jsstring).

Record DomainTemplate := {
  pattern : RegExp;
  origin : jsstring;
  referer : jsstring;
  userAgent : option jsstring;
  additionalHeaders : option headers;
}.

Definition DEFAULT_USER_AGENT : jsstring :=
  js "Mozilla/5.0 (Windows NT 10.0; Win64; x64; rv:137.0) Gecko/20100101 Firefox/137.0".

(** A table entry that gives only [pattern], [origin] and [referer]. *)
Definition template (p : RegExp) (o r : string) : DomainTemplate :=
  {| pattern := p; origin := js o; referer := js r;
     userAgent := None; additionalHeaders := None |}.

Definition tlds (l : list string) : re := alts l.

Local Open Scope string_scope.

Definition domainTemplates : list DomainTemplate := [
  template (suffix_i ".padorupado.ru") "https://kwik.si" "https://kwik.si/";
  template (suffix_i "krussdomi.com") "https://krussdomi.com" "https://hls.krussdomi.com/";
  template (suffix_i ".narutokun.xyz") "https://krussdomi.com" "https://krussdomi.com/";
  template (suffix_i ".babybayw.xyz") "https://krussdomi.com" "https://krussdomi.com/";
  template (suffix_i ".advancedairesearchlab.xyz") "https://krussdomi.com" "https://krussdomi.com/";
  template (suffix_i ".habibikun.xyz") "https://bl.krussdomi.com" "https://bl.krussdomi.com/";
  template (suffix_i ".akamaized.net") "https://bl.krussdomi.com" "https://bl.krussdomi.com/";
  template (suffix_i ".anih1.top") "https://ee.anih1.top" "https://ee.anih1.top/";
  template (suffix_i ".xyk3.top") "https://ee.anih1.top" "https://ee.anih1.top/";
  template (suffix_i ".premilkyway.com") "https://uqloads.xyz" "https://uqloads.xyz/";
  template (suffix_i ".kwikie.ru") "https://kwik.si" "https://kwik.si/";
  template (alt_suffix_i ["revolutionizingtheweb"; "nextgentechnologytrends";
                          "smartinvestmentstrategies"; "creativedesignstudioxyz";
                          "breakingdigitalboundaries"; "ultimatetechinnovation"] ".xyz")
           "https://hls.krussdomi.com" "https://hls.krussdomi.com/";
  template (suffix_i ".raffaellocdn.net") "https://streameeeeee.site" "https://streameeeeee.site/";
  template (rx_i (cat [alts ["dewbreeze84"; "mistyvalley31"]; lit ".";
                       tlds ["online"; "live"]; ReEnd]))
           "https://megacloud.blog" "https://megacloud.blog/";
  {| pattern := suffix_i "douvid.xyz";
     origin := js "https://megacloud.blog";
     referer := js "https://megacloud.blog/";
     userAgent := None;
     additionalHeaders := Some (list_to_map [
       (js "accept", js "*/*");
       (js "accept-language", js "en-US,en;q=0.5");
       (js "sec-fetch-dest", js "empty");
       (js "sec-fetch-mode", js "cors");
       (js "sec-fetch-site", js "cross-site")]) |};
  template (rx_i (cat [alts ["lightningspark77"; "thunderwave48"; "stormwatch95";
                             "windyrays29"; "thunderstrike77"; "fogtwist21";
                             "rainfallpath36"; "lightningflash39"; "stormwhirl73";
                             "cloudburst82"; "drizzleshower19"]; lit ".";
                       tlds ["pro"; "site"; "xyz"; "online"; "live"]; ReEnd]))
           "https://megacloud.club" "https://megacloud.club/";
  template (suffix_i "clearskydrift45.site") "https://kerolaunochan.online" "https://kerolaunochan.online/";
  template (suffix_i ".shadowlandschronicles.com") "https://cloudnestra.com" "https://cloudnestra.com/";
  template (alt_suffix_i ["sparkrisestudios"; "dreamwavecollective";
                          "urbansagecollective"; "novaquestdynamics";
                          "boldsageventures"] ".xyz")
           "https://cloudnestra.com" "https://cloudnestra.com/";
  template (suffix_i "putgate.org") "https://cloudnestra.com" "https://cloudnestra.com/";
  template (suffix_i ".southboat.site") "https://player.videasy.net" "https://player.videasy.net/";
  template (suffix_i ".cdnup.cc") "https://bestwish.lol" "https://bestwish.lol/";
  template (suffix_i ".streamupcdn.com") "https://bestwish.lol" "https://bestwish.lol/";
  template (suffix_i ".netmagcdn.com") "https://megacloud.club" "https://megacloud.club/";
  template (suffix_i "vmeas.cloud") "https://vidmoly.to" "https://vidmoly.to/";
  template (suffix_i "nextwaveinitiative.xyz") "https://edgedeliverynetwork.org" "https://edgedeliverynetwork.org/";
  template (suffix_i "shadowlandschronicles.com") "https://edgedeliverynetwork.org" "https://edgedeliverynetwork.org/";
  template (suffix_i "lightningbolts.ru") "https://vidsrc.cc" "https://vidsrc.cc/";
  template (suffix_i ".xelvonwave64.xyz") "https://vidsrc.su" "https://vidsrc.su/";
  template (suffix_i "lightningbolt.site") "https://vidsrc.cc" "https://vidsrc.cc/";
  template (suffix_i "vidlvod.store") "https://vidlink.pro" "https://vidlink.pro/";
  template (suffix_i "vyebzzqlojvrl.top") "https://vidsrc.cc" "https://vidsrc.cc/";
  template (rx_i (cat [alts ["sunnybreeze16"; "mgstatics"; "cloudydrift38";
                             "stormwhirl73"; "odyssey"; "rainveil36";
                             "sunshinerays93"; "sunburst66"; "sunburst93";
                             "windytrail24"; "stormshade84"; "clearskyline88";
                             "clearbluesky72"; "breezygale56"; "haildrop77";
                             "frostshine12"; "frostbite27"; "frostywinds57";
                             "icyhailstorm64"; "icyhailstorm29"; "windflash93";
                             "stormdrift27"; "tempestcloud61"; "rainfallpath36"];
                       lit ".";
                       tlds ["live"; "site"; "xyz"; "online"; "pro"; "biz"; "wiki"];
                       ReEnd]))
           "https://megacloud.blog" "https://megacloud.blog/";
  template (rx_i (cat [lit "odyssey-"; digits; lit ".biz"; ReEnd]))
           "https://megaup.live" "https://megaup.live/";
  template (suffix_i "1stkmgv1.com") "https://vidmoly.to" "https://vidmoly.to/";
  template (suffix_i "rainstorm92.xyz") "https://megacloud.club" "https://megacloud.club/";
  template (suffix_i ".feetcdn.com") "https://kerolaunochan.online" "https://kerolaunochan.online/";
  template (rx_i (cat [alts ["heatwave90"; "humidmist27"; "frozenbreeze65";
                             "drizzlerain73"; "sunrays81"]; lit ".";
                       tlds ["pro"; "wiki"; "live"; "online"; "xyz"]; ReEnd]))
           "https://kerolaunochan.live" "https://kerolaunochan.live/";
  template (suffix_i "embed.su") "https://embed.su" "https://embed.su/";
  template (suffix_i "usbigcdn.cc") "https://embed.su" "https://embed.su/";
  template (suffix_i ".congacdn.cc") "https://embed.su" "https://embed.su/";
  template (suffix_i ".vkcdn5.com") "https://vkspeed.com" "https://vkspeed.com/";
  template (suffix_i ".cloudfront.net") "https://d2zihajmogu5jn.cloudfront.net" "https://d2zihajmogu5jn.cloudfront.net/";
  template (suffix_i ".ttvnw.net") "https://www.twitch.tv" "https://www.twitch.tv/"
].

Local Close Scope string_scope.

(** [new URL(...)] objects: the fields the repository reads. *)
Record URL := {
  href : jsstring;       (* also [toString()] *)
  protocol : jsstring;   (* scheme with the trailing colon *)
  host : jsstring;       (* hostname and, if present, port *)
  hostname : jsstring;
}.

(** [findDomainTemplate], over an explicit table. *)
Definition findDomainTemplateIn (templates : list DomainTemplate)
    (hostname : jsstring) : option DomainTemplate :=
  List.find (λ t, RegExp_test (pattern t) hostname) templates.

Definition findDomainTemplate : jsstring → option DomainTemplate :=
  findDomainTemplateIn domainTemplates.

Definition defaultHeaders : headers :=
  list_to_map [
    (js "user-agent", DEFAULT_USER_AGENT);
    (js "accept", js "*/*");
    (js "accept-language", js "en-US,en;q=0.5");
    (js "sec-fetch-dest", js "empty");
    (js "sec-fetch-mode", js "cors");
    (js "sec-fetch-site", js "cross-site")].

(** A JavaScript string is truthy when it is not empty. *)
Definition truthy (s : jsstring) : bool :=
  match s with [] => false | _ => true end.

(** The body of [if (template) { ... }]. *)
Definition applyTemplate (t : DomainTemplate) (h : headers) : headers :=
  let h := <[js "origin" := origin t]> h in
  let h := <[js "referer" := referer t]> h in
  let h := match userAgent t with
           | Some ua => if truthy ua then <[js "user-agent" := ua]> h else h
           | None => h
           end in
  match additionalHeaders t with
  | Some extra => extra ∪ h          (* Object.assign(headers, extra) *)
  | None => h
  end.

Definition generateHeadersIn (templates : list DomainTemplate) (url : URL)
  : headers :=
  let template := findDomainTemplateIn templates (hostname url) in
  let h := defaultHeaders in
  let h := match template with
           | Some t => applyTemplate t h
           | None => h
           end in
  <[js "host" := host url]> h.

Definition generateHeaders : URL → headers := generateHeadersIn domainTemplates.

(** ** The JavaScript platform

    What the repository calls but does not define.  [None] as base of
    [new_URL] is the one-argument constructor.  [fetch] stands for the
    [node-fetch] call together with its [AbortController] deadline: it
    throws an error named [AbortError] when the deadline passes. *)

Record FetchResponse := {
  resp_status : Z;
  resp_headers : headers;       (* header names in lower case *)
  resp_body : bytes;
}.

Record Platform := {
  new_URL : jsstring → option jsstring → outcome URL;
  toLowerCase : jsstring → jsstring;
  fetch : jsstring → headers → bool → Z → outcome FetchResponse;
  response_text : bytes → jsstring;          (* [await response.text()] *)
  Buffer_toString : bytes → jsstring;        (* [buf.toString('utf-8')] *)
  gunzipSync : bytes → outcome bytes;
  inflateSync : bytes → outcome bytes;
  brotliDecompressSync : bytes → outcome bytes;
  zstd_decompress : bytes → outcome bytes;
}.

(** ** Segment and playlist naming (mime-types.ts) *)

Local Open Scope string_scope.

Definition SEGMENT_PATTERNS : list RegExp := [
  rx_i (cat [lit "seg-"; digits]);
  rx_i (cat [lit "segment-"; digits]);
  rx_i (cat [lit "chunk-"; digits]);
  rx_i (cat [lit "frag-"; digits]);
  rx_i (cat [lit "part-"; digits]);
  rx_i (cat [lit "-v"; digits; lit "-a"; digits]);
  rx_i (cat [lit "-f"; digits; lit "-v"; digits; lit "-a"; digits]);
  rx_i (cat [lit "media-"; digits]);
  rx_i (cat [lit "stream_"; digits]);
  rx_i (cat [lit "_"; digits; lit ".ts"; ReEnd]);
  rx_i (cat [lit "_"; digits; lit ".m4s"; ReEnd])
].

Definition DISGUISE_EXTENSIONS : list jsstring :=
  js <$> [".js"; ".jpg"; ".jpeg"; ".png"; ".gif"; ".css"; ".html"; ".txt";
          ".webp"; ".ico"].

Definition SUSPICIOUS_EXTENSIONS : list jsstring :=
  js <$> [".js"; ".jpg"; ".jpeg"; ".png"; ".gif"; ".css";
          ".html"; ".txt"; ".webp"; ".ico"; ".json"; ".xml";
          ".svg"; ".pdf"; ".doc"; ".docx"].

Local Close Scope string_scope.

Definition MPEGURL : jsstring := js "application/vnd.apple.mpegurl".
Definition MP2T : jsstring := js "video/mp2t".
Definition OCTET_STREAM : jsstring := js "application/octet-stream".

Section Mime.
Context (P : Platform).

Definition isDisguisedSegment (path : jsstring) : bool :=
  if negb (truthy path) then false
  else
    let pathLower := toLowerCase P path in
    let hasSegmentPattern :=
      existsb (λ pattern, RegExp_test pattern path) SEGMENT_PATTERNS in
    let hasSuspiciousExtension :=
      existsb (λ ext, endsWith pathLower ext) DISGUISE_EXTENSIONS in
    hasSegmentPattern && hasSuspiciousExtension.

Definition isTsSegment (path : jsstring) : bool :=
  if negb (truthy path) then false
  else
    let pathLower := toLowerCase P path in
    if endsWith pathLower (js ".ts") || endsWith pathLower (js ".mts") ||
       endsWith pathLower (js ".m2ts") || endsWith pathLower (js ".mp2t")
    then true
    else if isDisguisedSegment path then true
    else false.

Definition isM3u8Playlist (path : jsstring) : bool :=
  if negb (truthy path) then false
  else endsWith (toLowerCase P path) (js ".m3u8") ||
       endsWith (toLowerCase P path) (js ".m3u").

Definition hasSuspiciousExtension (path : jsstring) : bool :=
  let pathLower := toLowerCase P path in
  existsb (λ ext, endsWith pathLower ext) SUSPICIOUS_EXTENSIONS.

(** [fallback || 'application/octet-stream'] *)
Definition orOctetStream (fallback : option jsstring) : jsstring :=
  match fallback with
  | Some f => if truthy f then f else OCTET_STREAM
  | None => OCTET_STREAM
  end.

(** The playlist branch of [getStreamingContentType]: [Some t] when it
    returns [t], [None] when control falls through. *)
Definition playlistByExtension (path : jsstring) (buffer : option bytes)
  : option jsstring :=
  if isM3u8Playlist path then
    match buffer with
    | Some buf =>
        if bool_decide (buf !! 0%nat = Some Byte.x23) &&
           bool_decide (buf !! 1%nat = Some Byte.x45)
        then Some MPEGURL else None
    | None => Some MPEGURL
    end
  else None.

Definition getStreamingContentType (path : jsstring) (buffer : option bytes)
    (fallback : option jsstring) : jsstring :=
  if negb (truthy path) then orOctetStream fallback
  else
    match playlistByExtension path buffer with
    | Some t => t
    | None =>
        if match buffer with
           | Some buf => hasSuspiciousExtension path && detectTransportStream buf
           | None => false
           end
        then MP2T
        else if match buffer with
                | Some buf => detectTransportStream buf
                | None => false
                end
        then MP2T
        else if isTsSegment path then MP2T
        else orOctetStream fallback
    end.
End Mime.

(** ** The cache (cache.ts)

    Times are [Date.now()] readings in milliseconds, passed in by the
    caller.  A TTL is a number of seconds; [None] stands for an omitted
    argument or [NaN], both falsy. *)

Inductive Content : Type :=
| Text (s : jsstring)      (* typeof content === 'string' *)
| Buf (b : bytes).         (* content instanceof Buffer *)

Record CacheEntry := {
  content : Content;
  contentType : jsstring;
  timestamp : Z;
  ttl : Z;
}.

Record SimpleCache := {
  cache : gmap jsstring CacheEntry;
  defaultTtl : Z;
}.

(** [new SimpleCache()] *)
Definition SimpleCache_new : SimpleCache := {| cache := ∅; defaultTtl := 300 |}.

(** [ttl || this.defaultTtl] *)
Definition ttlOrDefault (ttl : option Z) (dflt : Z) : Z :=
  match ttl with
  | Some t => if (t =? 0)%Z then dflt else t
  | None => dflt
  end.

Definition cache_set (c : SimpleCache) (key : jsstring) (v : Content)
    (type : jsstring) (ttl : option Z) (now : Z) : SimpleCache :=
  {| cache := <[key := {| content := v; contentType := type; timestamp := now;
                         ttl := ttlOrDefault ttl (defaultTtl c) |}]> (cache c);
     defaultTtl := defaultTtl c |}.

(** [(now - entry.timestamp) / 1000], exactly. *)
Definition age (now : Z) (entry : CacheEntry) : Q :=
  (inject_Z (now - timestamp entry) / inject_Z 1000)%Q.

(** [age > entry.ttl] *)
Definition expired (now : Z) (entry : CacheEntry) : bool :=
  negb (Qle_bool (age now entry) (inject_Z (ttl entry))).

Definition cache_get (c : SimpleCache) (key : jsstring) (now : Z)
  : option (Content * jsstring) * SimpleCache :=
  match cache c !! key with
  | None => (None, c)
  | Some entry =>
      if expired now entry
      then (None, {| cache := delete key (cache c); defaultTtl := defaultTtl c |})
      else (Some (content entry, contentType entry), c)
  end.

Definition cache_has (c : SimpleCache) (key : jsstring) (now : Z)
  : bool * SimpleCache :=
  let '(r, c') := cache_get c key now in (bool_decide (is_Some r), c').

Definition cache_delete (c : SimpleCache) (key : jsstring) : SimpleCache :=
  {| cache := delete key (cache c); defaultTtl := defaultTtl c |}.

Definition cache_clear (c : SimpleCache) : SimpleCache :=
  {| cache := ∅; defaultTtl := defaultTtl c |}.

(** The periodic sweep. *)
Definition cleanup (c : SimpleCache) (now : Z) : SimpleCache :=
  {| cache := filter (λ kv, expired now kv.2 = false) (cache c);
     defaultTtl := defaultTtl c |}.

(** [getStats().size] (and [.keys], which is the same number). *)
Definition getStats (c : SimpleCache) : nat := size (cache c).

(** ** The playlist rewriter and the fetch helpers (proxy.ts)

    Calls of the logger are observations only and are left out. *)

Record ProxyResult := {
  pr_content : Content;
  pr_contentType : jsstring;
  pr_status : Z;
  pr_headers : headers;
}.

Section Proxy.
Context (P : Platform).

(** [`Request timed out after ${timeout}ms`] *)
Definition timeoutError (timeout : Z) : JsError :=
  {| error_name := js "Error";
     error_message :=
       js "Request timed out after " ++ numberToString (Z.to_N timeout) ++ js "ms" |}.

Definition proxyUrl (targetUrl : jsstring) (timeout : Z) : outcome ProxyResult :=
  try_catch
    (url ← new_URL P targetUrl None;
     let headers := generateHeaders url in
     response ← fetch P targetUrl headers true timeout;
     let contentType :=
       orOctetStream (resp_headers response !! js "content-type") in
     let isM3u8 :=
       includes contentType (js "application/vnd.apple.mpegurl") ||
       includes contentType (js "application/x-mpegurl") in
     let content :=
       if isM3u8 then Text (response_text P (resp_body response))
       else Buf (resp_body response) in
     Ret {| pr_content := content; pr_contentType := contentType;
            pr_status := resp_status response;
            pr_headers := resp_headers response |})
    (λ error,
       if bool_decide (error_name error = js "AbortError")
       then Throw (timeoutError timeout)
       else Throw error).

(** The block shared, word for word, by the two branches of
    [processM3u8] (lines 150-162 and 198-210): resolve a reference to an
    absolute URL and wrap it. *)
Definition proxiedReference (baseUrlObj : URL) (basePath proxyUrl ref : jsstring)
  : outcome jsstring :=
  absoluteUrl ←
    (if startsWith ref (js "http://") || startsWith ref (js "https://")
     then Ret ref
     else if startsWith ref (js "//")
     then Ret (protocol baseUrlObj ++ ref)
     else u ← new_URL P ref (Some basePath); Ret (href u));
  encoded ← encodeURIComponent absoluteUrl;
  Ret (proxyUrl ++ js "?url=" ++ encoded).

(** [URI=Q<value>Q] *)
Definition uriAttr (value : jsstring) : jsstring :=
  URI_OPEN ++ value ++ [DQUOTE].

(** The body of [for (const match of uriMatches)]. *)
Definition rewriteUriAttr (baseUrlObj : URL) (basePath proxyUrl : jsstring)
    (processedLine originalUri : jsstring) : outcome jsstring :=
  if startsWith originalUri proxyUrl then Ret processedLine   (* continue *)
  else
    try_catch
      (proxiedUrl ← proxiedReference baseUrlObj basePath proxyUrl originalUri;
       Ret (replaceFirst processedLine (uriAttr originalUri) (uriAttr proxiedUrl)))
      (λ _, Ret processedLine).

(** The callback of [lines.map]. *)
Definition processLine (baseUrlObj : URL) (basePath proxyUrl line : jsstring)
  : outcome jsstring :=
  let trimmedLine := trim line in
  if startsWith trimmedLine [HASH] then
    if includes line URI_OPEN then
      foldM (rewriteUriAttr baseUrlObj basePath proxyUrl) line (uriMatches line)
    else Ret line
  else if bool_decide (0 < length trimmedLine)%nat then
    if startsWith trimmedLine proxyUrl then Ret line
    else
      try_catch
        (proxiedReference baseUrlObj basePath proxyUrl trimmedLine)
        (λ _, Ret line)
  else Ret line.

(** The base path against which relative references are resolved. *)
Definition basePathOf (baseUrl : jsstring) : jsstring :=
  if endsWith baseUrl (js ".m3u8")
  then substring0 baseUrl (lastIndexOf baseUrl 47 + 1)
  else if negb (endsWith baseUrl (js "/")) then baseUrl ++ js "/"
  else baseUrl.

Definition processM3u8 (content baseUrl proxyUrl : jsstring) : outcome jsstring :=
  try_catch
    (baseUrlObj ← new_URL P baseUrl None;
     let basePath := basePathOf baseUrl in
     let lines := splitLines content in
     processed ← mapM (processLine baseUrlObj basePath proxyUrl) lines;
     Ret (joinLines processed))
    (λ _, Ret content).

Definition isM3u8Url (url : jsstring) : bool :=
  endsWith (toLowerCase P url) (js ".m3u8") ||
  includes (toLowerCase P url) (js ".m3u8?").

Definition isM3u8ContentType (contentType : jsstring) : bool :=
  includes contentType (js "application/vnd.apple.mpegurl") ||
  includes contentType (js "application/x-mpegurl") ||
  includes contentType (js "audio/mpegurl") ||
  includes contentType (js "audio/x-mpegurl").

Definition decompressContent (content : bytes) (encoding : option jsstring)
  : outcome bytes :=
  match encoding with
  | None => Ret content
  | Some encoding =>
      if negb (truthy encoding) then Ret content
      else
        try_catch
          (let e := toLowerCase P encoding in
           if bool_decide (e = js "gzip") then gunzipSync P content
           else if bool_decide (e = js "deflate") then inflateSync P content
           else if bool_decide (e = js "br") then brotliDecompressSync P content
           else if bool_decide (e = js "zstd") || bool_decide (e = js "zst")
           then zstd_decompress P content
           else Ret content)
          (λ _, Ret content)
  end.
End Proxy.

(** ** The [/proxy] route (index.ts) *)

Record Config := {
  cacheTtl : option Z;        (* [parseInt] may give [NaN] *)
  requestTimeout : Z;
}.

Inductive Body : Type :=
| BodyContent (c : Content)                       (* [c.body(content)] *)
| BodyJson (fields : list (jsstring * jsstring)).  (* [c.json({...})] *)

Record HttpResponse := {
  status : Z;
  responseHeaders : list (jsstring * jsstring);   (* the [c.header] calls, in order *)
  body : Body;
}.

(** What a request leaves behind: the response, the cache, and the final
    state of the local object [result.headers] when a fetch took place. *)
Record HandlerRun := {
  response : HttpResponse;
  cacheAfter : SimpleCache;
  resultHeaders : option headers;
}.

(** The state of the handler's locals when it reaches [cache.set]. *)
Record Processed := {
  out_content : Content;
  out_contentType : jsstring;
  out_headers : headers;
}.

Section Handler.
Context (P : Platform) (config : Config).

(** Lines 156-183: decompress when a content-encoding is present. *)
Definition decompressStage (result : ProxyResult) : outcome Content :=
  match pr_headers result !! js "content-encoding", pr_content result with
  | Some contentEncoding, Buf b =>
      if truthy contentEncoding then
        try_catch
          (d ← decompressContent P b (Some contentEncoding); Ret (Buf d))
          (λ _, Ret (Buf b))
      else Ret (Buf b)
  | _, c => Ret c
  end.

(** Lines 204-211: does the content start with a playlist marker? *)
Definition startsWithMarker (s : jsstring) : bool :=
  startsWith (trim s) (js "#EXTM3U") || startsWith (trim s) (js "#EXT-X-").

Definition isActuallyM3u8 (content : Content) : bool :=
  match content with
  | Text s => startsWithMarker s
  | Buf b =>
      if bool_decide (0 < length b)%nat then
        let firstBytes := Buffer_toString P (take (100 `min` length b) b) in
        startsWithMarker firstBytes
      else false
  end.

Definition contentBuffer (content : Content) : bytes :=
  match content with
  | Buf b => b
  | Text s => Buffer_from s
  end.

(** Lines 149-220: everything between the cache lookup and [cache.set]. *)
Definition fetchAndProcess (targetUrl : jsstring) : outcome Processed :=
  result ← proxyUrl P targetUrl (requestTimeout config);
  content ← decompressStage result;
  let buffer := contentBuffer content in
  let detectedContentType :=
    getStreamingContentType P targetUrl (Some buffer) (Some (pr_contentType result)) in
  let contentType := detectedContentType in
  let isM3u8 := isM3u8Url P targetUrl || isM3u8ContentType contentType in
  if isM3u8 && isActuallyM3u8 content then
    let textContent :=
      match content with Text s => s | Buf b => Buffer_toString P b end in
    let proxyBaseUrl := js "/proxy" in
    rewritten ← processM3u8 P textContent targetUrl proxyBaseUrl;
    Ret {| out_content := Text rewritten; out_contentType := MPEGURL;
           out_headers := pr_headers result |}
  else
    Ret {| out_content := content; out_contentType := contentType;
           out_headers := pr_headers result |}.

(** Lines 231-233: drop a (truthy) content-encoding entry. *)
Definition dropContentEncoding (h : headers) : headers :=
  match h !! js "content-encoding" with
  | Some v => if truthy v then delete (js "content-encoding") h else h
  | None => h
  end.

Definition contentLength (c : Content) : N :=
  N.of_nat (length (contentBuffer c)).

Definition json (st : Z) (fields : list (jsstring * jsstring)) : HttpResponse :=
  {| status := st; responseHeaders := []; body := BodyJson fields |}.

Definition handler (query_url : option jsstring) (now_get now_set : Z)
    (c : SimpleCache) : HandlerRun :=
  let missing :=
    {| response := json 400 [(js "error", js "Missing required parameter: url");
                             (js "usage", js "/proxy?url=https://example.com/playlist.m3u8")];
       cacheAfter := c; resultHeaders := None |} in
  match query_url with
  | None => missing
  | Some targetUrl =>
      if negb (truthy targetUrl) then missing
      else
        match new_URL P targetUrl None with
        | Throw _ =>
            {| response := json 400 [(js "error", js "Invalid URL format");
                                     (js "url", targetUrl)];
               cacheAfter := c; resultHeaders := None |}
        | Ret _ =>
            let cacheKey := targetUrl in
            let '(cached, c1) := cache_get c cacheKey now_get in
            match cached with
            | Some (content, contentType) =>
                {| response :=
                     {| status := 200;
                        responseHeaders := [(js "Content-Type", contentType);
                                            (js "X-Cache", js "HIT")];
                        body := BodyContent content |};
                   cacheAfter := c1; resultHeaders := None |}
            | None =>
                match fetchAndProcess targetUrl with
                | Throw error =>
                    {| response := json 500 [(js "error", error_message error);
                                             (js "url", targetUrl)];
                       cacheAfter := c1; resultHeaders := None |}
                | Ret r =>
                    let c2 := cache_set c1 cacheKey (out_content r)
                                (out_contentType r) (cacheTtl config) now_set in
                    {| response :=
                         {| status := 200;
                            responseHeaders :=
                              [(js "Content-Type", out_contentType r);
                               (js "X-Cache", js "MISS");
                               (js "Content-Length",
                                numberToString (contentLength (out_content r)))];
                            body := BodyContent (out_content r) |};
                       cacheAfter := c2;
                       resultHeaders := Some (dropContentEncoding (out_headers r)) |}
                end
            end
        end
  end.
End Handler.

(** ** A reference platform for the worked examples

    The general theorems hold for every [Platform].  The closed examples
    need one to compute with; this one covers plain [http(s)] URLs with
    a lower-case dotted host name and an unreserved path, ASCII text, and
    compressed bodies that lack their format's magic number.  Outside that
    range it reports a failure, so the examples stay inside it, where it
    agrees with the WHATWG URL parser, Node's UTF-8 decoding and zlib. *)

Module Reference.

Definition TypeError (msg : string) : JsError :=
  {| error_name := js "TypeError"; error_message := js msg |}.

Definition isLowerAlpha (c : N) : bool := (97 <=? c) && (c <=? 122).
Definition isDigit (c : N) : bool := (48 <=? c) && (c <=? 57).
Definition isUpperAlpha (c : N) : bool := (65 <=? c) && (c <=? 90).

(** [s.split(c)] for a single character. *)
Fixpoint splitOn (c : N) (s : jsstring) : list jsstring :=
  match s with
  | [] => [[]]
  | a :: t => if a =? c then [] :: splitOn c t else consLine a (splitOn c t)
  end.

(** Dotted host name: non-empty labels of lower-case letters and
    digits, the last one beginning with a letter (so that it is not
    read as a number). *)
Definition isLabel (l : jsstring) : bool :=
  truthy l && forallb (λ c, isLowerAlpha c || isDigit c) l.

Definition isPlainHost (h : jsstring) : bool :=
  let labels := splitOn 46 h in
  forallb isLabel labels &&
  match last labels with
  | Some (c :: _) => isLowerAlpha c
  | _ => false
  end.

Definition isPathChar (c : N) : bool :=
  isLowerAlpha c || isUpperAlpha c || isDigit c ||
  (c =? 45) || (c =? 46) || (c =? 95) || (c =? 126) || (c =? 47).

(** Unreserved characters only, and no [.] or [..] segment. *)
Definition isPlainPath (p : jsstring) : bool :=
  forallb isPathChar p &&
  forallb (λ seg, negb (bool_decide (seg = js ".")) &&
                  negb (bool_decide (seg = js "..")))
          (splitOn 47 p).

Fixpoint spanNotSlash (s : jsstring) : jsstring * jsstring :=
  match s with
  | c :: t =>
      if c =? 47 then ([], s)
      else let '(a, r) := spanNotSlash t in (c :: a, r)
  | [] => ([], [])
  end.

Definition parseAbsolute (s : jsstring) : option URL :=
  let scheme :=
    if startsWith s (js "https://") then Some (js "https:", drop 8 s)
    else if startsWith s (js "http://") then Some (js "http:", drop 7 s)
    else None in
  match scheme with
  | None => None
  | Some (proto, rest) =>
      let '(authority, path) := spanNotSlash rest in
      if isPlainHost authority && isPlainPath path then
        Some {| href := proto ++ js "//" ++ authority ++
                        (if truthy path then path else js "/");
                protocol := proto; host := authority; hostname := authority |}
      else None
  end.

(** The directory of [s]: everything up to and including the last
    slash. *)
Definition directoryOf (s : jsstring) : jsstring :=
  substring0 s (lastIndexOf s 47 + 1).

Definition construct (input : jsstring) (base : option jsstring) : outcome URL :=
  match base with
  | None =>
      match parseAbsolute input with
      | Some u => Ret u
      | None => Throw (TypeError "Invalid URL")
      end
  | Some b =>
      match parseAbsolute b with
      | None => Throw (TypeError "Invalid base URL")
      | Some bu =>
          match parseAbsolute input with
          | Some u => Ret u
          | None =>
              if truthy input && isPlainPath input &&
                 negb (startsWith input (js "/"))
              then
                Ret {| href := directoryOf (href bu) ++ input;
                       protocol := protocol bu; host := host bu;
                       hostname := hostname bu |}
              else Throw (TypeError "Invalid URL")
          end
      end
  end.

Definition lowerCase (s : jsstring) : jsstring := asciiLower <$> s.

(** ASCII bytes decode to themselves; any other byte to U+FFFD. *)
Definition decodeUtf8 (b : bytes) : jsstring :=
  (λ x, let n := Byte.to_N x in if n <? 128 then n else 65533) <$> b.

Definition zlibError (msg : string) : JsError :=
  {| error_name := js "Error"; error_message := js msg |}.

(** A gzip stream begins with the bytes 1f 8b; anything else is refused
    with zlib's header error.  A body that does begin with them is outside
    the range of this platform (inflating it is not modelled). *)
Definition gunzip (b : bytes) : outcome bytes :=
  match b with
  | Byte.x1f :: Byte.x8b :: _ => Throw (zlibError "unexpected end of file")
  | _ => Throw (zlibError "incorrect header check")
  end.

Definition unsupported (_ : bytes) : outcome bytes :=
  Throw (zlibError "unsupported by the reference platform").

(** [origin] plays the remote server. *)
Definition platform (origin : jsstring → outcome FetchResponse) : Platform :=
  {| new_URL := construct;
     toLowerCase := lowerCase;
     fetch := λ url _ _ _, origin url;
     response_text := decodeUtf8;
     Buffer_toString := decodeUtf8;
     gunzipSync := gunzip;
     inflateSync := unsupported;
     brotliDecompressSync := unsupported;
     zstd_decompress := unsupported |}.

Definition networkError : JsError :=
  {| error_name := js "FetchError"; error_message := js "request failed" |}.

(** An origin that cannot be reached. *)
Definition unreachable (_ : jsstring) : outcome FetchResponse :=
  Throw networkError.

(** An origin that answers every request with the same response. *)
Definition serve (h : list (jsstring * jsstring)) (body : bytes)
  : jsstring → outcome FetchResponse :=
  λ _, Ret {| resp_status := 200; resp_headers := list_to_map h;
              resp_body := body |}.

End Reference.

(** ** Definitions used to state the properties *)

(** The user agent a template leaves in place. *)
Definition effectiveUserAgent (T : DomainTemplate) : jsstring :=
  match userAgent T with
  | Some ua => if truthy ua then ua else DEFAULT_USER_AGENT
  | None => DEFAULT_USER_AGENT
  end.

(** The header set the specification describes for a matched template,
    key by key: [host] is the authority; otherwise an extra header of the
    template wins; otherwise [origin], [referer] and [user-agent] come
    from the template and the rest from the defaults. *)
Definition specifiedHeader (T : DomainTemplate) (url : URL) (k : jsstring)
  : option jsstring :=
  if bool_decide (k = js "host") then Some (host url)
  else match additionalHeaders T ≫= (λ extra, extra !! k) with
       | Some v => Some v
       | None =>
           if bool_decide (k = js "origin") then Some (origin T)
           else if bool_decide (k = js "referer") then Some (referer T)
           else if bool_decide (k = js "user-agent") then Some (effectiveUserAgent T)
           else defaultHeaders !! k
       end.

(** The four decoders [decompressContent] chooses from. *)
Definition codecs (P : Platform) : list (bytes → outcome bytes) :=
  [gunzipSync P; inflateSync P; brotliDecompressSync P; zstd_decompress P].

(** The characters [encodeURIComponent] can produce: the unreserved
    ones, the percent sign and the upper-case hexadecimal digits. *)
Definition encodedChar (c : N) : Prop :=
  (48 <= c <= 57) ∨ (65 <= c <= 90) ∨ (97 <= c <= 122) ∨
  c = 37 ∨ c = 45 ∨ c = 95 ∨ c = 46 ∨ c = 33 ∨ c = 126 ∨
  c = 42 ∨ c = 39 ∨ c = 40 ∨ c = 41.

(** The source URL of the specification's rewrite scenarios, and the
    directory it lies in. *)
Definition sourceUrl : jsstring :=
  js "https://cdn.example.com/videos/show/index.m3u8".
Definition sourceDir : jsstring :=
  js "https://cdn.example.com/videos/show/".

(** [#EXT-X-KEY:METHOD=AES-128,URI=Q<value>Q] *)
Definition keyLine (value : jsstring) : jsstring :=
  js "#EXT-X-KEY:METHOD=AES-128,URI=" ++ [DQUOTE] ++ value ++ [DQUOTE].


(** The parsed source URL. *)
Definition sourceUrlObj : URL :=
  {| href := sourceUrl; protocol := js "https:";
     host := js "cdn.example.com"; hostname := js "cdn.example.com" |}.

(** The headers [c.header] may set on a response. *)
Definition RESPONSE_HEADER_NAMES : list jsstring :=
  [js "Content-Type"; js "X-Cache"; js "Content-Length"].

(** An origin that labels a body that is not gzip as gzip. *)
Definition mislabelledOrigin : jsstring → outcome FetchResponse :=
  Reference.serve [(js "content-type", js "video/mp2t");
                   (js "content-encoding", js "gzip")] [Byte.x00].

(** An origin that serves a one-byte body under a playlist name. *)
Definition disguisedOrigin : jsstring → outcome FetchResponse :=
  Reference.serve [(js "content-type", js "application/octet-stream")] [Byte.x47].

Definition testConfig : Config :=
  {| cacheTtl := Some 300%Z; requestTimeout := 30000 |}.

(** *** The shape of a directive line for the idempotence result

    [render [(t1, v1); ...; (tn, vn)] tail] is the line
    [t1 URI=Qv1Q ... tn URI=QvnQ tail]. *)
Fixpoint render (parts : list (jsstring * jsstring)) (tail : jsstring)
  : jsstring :=
  match parts with
  | [] => tail
  | tv :: ps => tv.1 ++ uriAttr tv.2 ++ render ps tail
  end.

(** A stretch of text in which the five characters [URI=Q] do not occur. *)
Definition cleanText (t : jsstring) : Prop := includes t URI_OPEN = false.

(** An attribute value: not empty, free of double quotes, and not ending
    in [URI=] (which, with the closing quote, would read as the opening of
    another attribute). *)
Definition cleanValue (v : jsstring) : Prop :=
  v ≠ [] ∧ (DQUOTE ∉ v) ∧ endsWith v (js "URI=") = false.

Definition cleanParts (parts : list (jsstring * jsstring)) : Prop :=
  Forall (λ tv, cleanText tv.1 ∧ cleanValue tv.2) parts.

(** A line in which every [URI=Q] opens a well-formed attribute. *)
Definition attributeLine (line : jsstring) : Prop :=
  ∃ parts tail, line = render parts tail ∧ cleanParts parts ∧ cleanText tail.

(** A proxy path that survives a second pass: no line feed, double quote
    or dollar sign in it, and no white space or [#] at its head. *)
Definition plainProxyPath (p : jsstring) : Prop :=
  (LF ∉ p) ∧ (DQUOTE ∉ p) ∧ (DOLLAR ∉ p) ∧
  match p with
  | c :: _ => isWhiteSpace c = false ∧ c ≠ HASH
  | [] => True
  end.

(** Replace the value of the first attribute whose value is [w]. *)
Fixpoint replaceValue (w w' : jsstring) (parts : list (jsstring * jsstring))
  : list (jsstring * jsstring) :=
  match parts with
  | [] => []
  | tv :: ps =>
      if decide (tv.2 = w) then (tv.1, w') :: ps
      else tv :: replaceValue w w' ps
  end.

(** What the loop over the attributes makes of a value. *)
Definition target (P : Platform) (U : URL) (bp p v : jsstring) : jsstring :=
  if startsWith v p then v
  else match proxiedReference P U bp p v with
       | Ret r => r
       | Throw _ => v
       end.

(** A value the loop leaves alone: already proxied, or not resolvable. *)
Definition settled (P : Platform) (U : URL) (bp p v : jsstring) : Prop :=
  startsWith v p = true ∨ ¬ returns (proxiedReference P U bp p v).

Definition targetPart (P : Platform) (U : URL) (bp p : jsstring)
    (tv : jsstring * jsstring) : jsstring * jsstring :=
  (tv.1, target P U bp p tv.2).

(** A small playlist with CRLF and LF line ends, a key directive and a
    segment reference. *)
Definition samplePlaylist : jsstring :=
  js "#EXTM3U" ++ [CR; LF] ++ keyLine (js "key.bin") ++ [LF] ++
  js "#EXTINF:4.0," ++ [LF] ++ js "segment001.ts" ++ [LF].

(** Two packets' worth of zero bytes with the sync byte at the head of
    each, and the same with the second sync byte missing. *)
Definition twoPackets : bytes :=
  Byte.x47 :: replicate 187 Byte.x00 ++ Byte.x47 :: replicate 187 Byte.x00.
Definition loneSync : bytes := Byte.x47 :: replicate 375 Byte.x00.

(** *** Further definitions used to state properties *)



(** The text with every CR LF pair replaced by LF (a CR that is not
    followed by LF stays). *)
Fixpoint crlfToLf (s : jsstring) : jsstring :=
  match s with
  | [] => []
  | c :: t =>
      match t with
      | d :: _ => if (c =? CR) && (d =? LF) then crlfToLf t else c :: crlfToLf t
      | [] => [c]
      end
  end.

(** A line the rewriter has no reason to touch: blank, a directive
    without a URI attribute, or a reference that already begins with the
    proxy path. *)
Definition settledLine (p line : jsstring) : Prop :=
  trim line = [] ∨
  (startsWith (trim line) [HASH] = true ∧ includes line URI_OPEN = false) ∨
  (startsWith (trim line) [HASH] = false ∧ startsWith (trim line) p = true).

(** Characters with a meaning of their own in a query string, an
    attribute list or a playlist line: [& # ? = / : +], the space, the
    double quote, LF, CR and the dollar sign. *)
Definition delimiters : jsstring :=
  js "&#?=/:+ " ++ [DQUOTE; LF; CR; DOLLAR].

(** The platform [P] with the status of every upstream response replaced
    by [s]. *)
Definition withStatus (s : Z) (P : Platform) : Platform :=
  {| new_URL := new_URL P;
     toLowerCase := toLowerCase P;
     fetch := λ url h redirect timeout,
       resp ← fetch P url h redirect timeout;
       Ret {| resp_status := s; resp_headers := resp_headers resp;
              resp_body := resp_body resp |};
     response_text := response_text P;
     Buffer_toString := Buffer_toString P;
     gunzipSync := gunzipSync P;
     inflateSync := inflateSync P;
     brotliDecompressSync := brotliDecompressSync P;
     zstd_decompress := zstd_decompress P |}.

(** An origin that answers 404 with an HTML error page. *)
Definition notFoundOrigin (_ : jsstring) : outcome FetchResponse :=
  Ret {| resp_status := 404;
         resp_headers := {[ js "content-type" := js "text/html" ]};
         resp_body := [Byte.x3c; Byte.x68; Byte.x31; Byte.x3e] |}.

(** An origin that serves two transport-stream packets labelled as a JPEG
    image. *)
Definition jpegLabelledOrigin : jsstring → outcome FetchResponse :=
  Reference.serve [(js "content-type", js "image/jpeg")] twoPackets.

(** An origin that serves a two-line playlist under the playlist media
    type. *)
Definition playlistOrigin : jsstring → outcome FetchResponse :=
  Reference.serve [(js "content-type", js "application/vnd.apple.mpegurl")]
    (Buffer_from (js "#EXTM3U" ++ [LF] ++ js "segment001.ts")).
(* ===================================================================== *)
(** * Properties *)
(* ===================================================================== *)

(** ** Transport-stream detection *)

Lemma isSync_true (data : bytes) (i : nat) :
  isSync data i = true ↔ data !! i = Some SYNC_BYTE.
Proof.
  unfold isSync. destruct (data !! i) as [b|] eqn:E; split; intros H; try discriminate.
  - f_equal. by apply Byte.byte_dec_bl.
  - inversion H; subst. by apply Byte.byte_dec_lb.
Qed.

Lemma syncStep_count (data : bytes) (n i : nat) :
  syncStep data n i = (n + (if strideHit data (i * 188) then 1 else 0))%nat.
Proof.
  unfold syncStep, strideHit. destruct (_ && _); lia.
Qed.

Lemma detectTransportStream_spec (data : bytes) :
  detectTransportStream data = true ↔
  (188 <= length data)%nat ∧ data !! 0%nat = Some SYNC_BYTE ∧
  ∃ o, o ∈ strideOffsets ∧ (o < length data)%nat ∧ data !! o = Some SYNC_BYTE.
Proof.
  unfold detectTransportStream.
  case_bool_decide as Hlen.
  { split; [discriminate | intros (? & _); lia]. }
  destruct (isSync data 0) eqn:H0; simpl negb; cbv iota.
  2:{ split; [discriminate | intros (_ & Hz & _)].
      apply isSync_true in Hz. congruence. }
  apply isSync_true in H0.
  cbn [foldl]. rewrite !syncStep_count. cbn [Nat.mul Nat.add].
  rewrite bool_decide_eq_true.
  split.
  - intros Hc. split; [lia|]. split; [done|].
    destruct (strideHit data 188) eqn:E1;
      [exists 188%nat|destruct (strideHit data 376) eqn:E2;
      [exists 376%nat|destruct (strideHit data 564) eqn:E3;
      [exists 564%nat|destruct (strideHit data 752) eqn:E4;
      [exists 752%nat|destruct (strideHit data 940) eqn:E5;
      [exists 940%nat|lia]]]]];
    match goal with
    | E : strideHit _ ?o = true |- _ =>
        unfold strideHit in E; apply andb_true_iff in E as [Hb Hs];
        apply bool_decide_eq_true in Hb; apply isSync_true in Hs;
        (split; [unfold strideOffsets; set_solver | done])
    end.
  - intros (_ & _ & o & Ho & Hlt & Hs).
    assert (strideHit data o = true) as Hhit.
    { unfold strideHit. apply andb_true_iff. split.
      - by apply bool_decide_eq_true.
      - by apply isSync_true. }
    unfold strideOffsets in Ho.
    repeat (apply elem_of_cons in Ho as [->|Ho]; [rewrite Hhit; repeat case_match; lia|]).
    by apply elem_of_nil in Ho.
Qed.

(** C2. [detectTransportStream b] is [true] exactly when [b] has at least
    188 bytes, [b[0]] is the sync byte 0x47 and some in-bounds offset among
    188, 376, 564, 752, 940 also holds 0x47.  In particular a buffer of at
    least 376 bytes with 0x47 at offsets 0 and 188 is detected, and a buffer
    with no 0x47 at any of the five stride offsets is not. *)
Theorem C2_detectTransportStream_iff (b : bytes) :
  (detectTransportStream b = true ↔
     (188 <= length b)%nat ∧ b !! 0%nat = Some Byte.x47 ∧
     ∃ o, o ∈ [188; 376; 564; 752; 940]%nat ∧ (o < length b)%nat ∧
          b !! o = Some Byte.x47) ∧
  ((376 <= length b)%nat → b !! 0%nat = Some Byte.x47 →
     b !! 188%nat = Some Byte.x47 → detectTransportStream b = true) ∧
  ((∀ o, o ∈ [188; 376; 564; 752; 940]%nat → b !! o ≠ Some Byte.x47) →
     detectTransportStream b = false).
Proof.
  pose proof (detectTransportStream_spec b) as Hspec.
  unfold strideOffsets, SYNC_BYTE in Hspec.
  split; [exact Hspec|]. split.
  - intros Hlen H0 H188. apply Hspec.
    split; [lia|]. split; [done|]. exists 188%nat. split; [by repeat constructor|]. split; [lia|done].
  - intros Hnone. apply not_true_is_false. intros Hd.
    apply Hspec in Hd as (_ & _ & o & Ho & _ & Hs). by apply (Hnone o).
Qed.

(** Two zero-filled packets are detected; with the second sync byte
    missing they are not. *)
Lemma C2_detectTransportStream_iff_witness :
  detectTransportStream twoPackets = true ∧
  detectTransportStream loneSync = false.
Proof.
  split.
  - apply (C2_detectTransportStream_iff twoPackets); vm_compute; (lia || reflexivity).
  - apply (C2_detectTransportStream_iff loneSync).
    intros o Ho.
    repeat (apply elem_of_cons in Ho as [->|Ho]; [vm_compute; discriminate|]).
    by apply elem_of_nil in Ho.
Defined.

(** ** The cache *)

Lemma expired_true (now : Z) (e : CacheEntry) :
  expired now e = true ↔ (1000 * ttl e < now - timestamp e)%Z.
Proof.
  unfold expired, age. rewrite negb_true_iff.
  rewrite <- not_true_iff_false, Qle_bool_iff.
  unfold Qle, Qdiv, Qmult, Qinv, inject_Z. simpl. lia.
Qed.

Lemma expired_false (now : Z) (e : CacheEntry) :
  expired now e = false ↔ (now - timestamp e <= 1000 * ttl e)%Z.
Proof.
  rewrite <- not_true_iff_false, expired_true. lia.
Qed.

(** [age > ttl] of the source, read in exact arithmetic. *)
Lemma expired_age (now : Z) (e : CacheEntry) :
  expired now e = true ↔ (inject_Z (ttl e) < age now e)%Q.
Proof.
  rewrite expired_true. unfold age, Qlt, Qdiv, Qmult, Qinv, inject_Z. simpl. lia.
Qed.

Lemma cache_set_lookup (c : SimpleCache) k v type t now :
  cache (cache_set c k v type t now) !! k =
  Some {| content := v; contentType := type; timestamp := now;
          ttl := ttlOrDefault t (defaultTtl c) |}.
Proof. unfold cache_set. simpl. apply lookup_insert_eq. Qed.

Lemma cache_get_live (c : SimpleCache) k now e :
  cache c !! k = Some e → (now - timestamp e <= 1000 * ttl e)%Z →
  cache_get c k now = (Some (content e, contentType e), c).
Proof.
  intros Hk Hage. unfold cache_get. rewrite Hk.
  apply expired_false in Hage. by rewrite Hage.
Qed.

Lemma cache_get_expired (c : SimpleCache) k now e :
  cache c !! k = Some e → (1000 * ttl e < now - timestamp e)%Z →
  cache_get c k now = (None, cache_delete c k).
Proof.
  intros Hk Hage. unfold cache_get. rewrite Hk.
  apply expired_true in Hage. by rewrite Hage.
Qed.

Lemma cache_get_absent (c : SimpleCache) k now :
  cache c !! k = None → cache_get c k now = (None, c).
Proof. intros Hk. unfold cache_get. by rewrite Hk. Qed.

(** A lookup never hands out an expired entry, and changes the cache
    only by deleting the entry it found expired. *)
Lemma cache_get_sound (c : SimpleCache) k now r c' :
  cache_get c k now = (r, c') →
  match r with
  | Some (v, type) =>
      ∃ e, cache c !! k = Some e ∧ v = content e ∧ type = contentType e ∧
           (now - timestamp e <= 1000 * ttl e)%Z ∧ c' = c
  | None =>
      cache c' !! k = None ∧ (∀ k', k' ≠ k → cache c' !! k' = cache c !! k') ∧
      (cache c !! k = None → c' = c)
  end.
Proof.
  unfold cache_get. destruct (cache c !! k) as [e|] eqn:Hk.
  - destruct (expired now e) eqn:He; intros [= <- <-].
    + simpl. split; [apply lookup_delete_eq|]. split; [|done].
      intros k' Hne. by apply lookup_delete_ne.
    + exists e. apply expired_false in He. done.
  - intros [= <- <-]. done.
Qed.

Lemma cache_get_defaultTtl (c : SimpleCache) k now r c' :
  cache_get c k now = (r, c') → defaultTtl c' = defaultTtl c.
Proof.
  unfold cache_get. destruct (cache c !! k) as [e|]; [destruct (expired now e)|];
    by intros [= <- <-].
Qed.

Lemma cleanup_lookup (c : SimpleCache) now k :
  cache (cleanup c now) !! k =
  match cache c !! k with
  | Some e => if expired now e then None else Some e
  | None => None
  end.
Proof.
  unfold cleanup. simpl.
  destruct (cache c !! k) as [e|] eqn:Hk.
  - destruct (expired now e) eqn:He.
    + apply map_lookup_filter_None_2. right. intros x Hx. simpl.
      rewrite Hk in Hx. injection Hx as <-. congruence.
    + apply map_lookup_filter_Some_2; done.
  - apply map_lookup_filter_None_2. by left.
Qed.

(** C4 (as stated) fails when the TTL argument is 0: [ttl || defaultTtl]
    stores the default of 300 seconds, so one second later, when the age
    exceeds the TTL that was asked for, the entry is still handed out. *)
Lemma C4_counterexample_zero_ttl :
  let c1 := cache_set SimpleCache_new (js "k") (Text (js "v")) (js "t") (Some 0%Z) 0 in
  let stored := {| content := Text (js "v"); contentType := js "t";
                   timestamp := 0; ttl := 300 |} in
  cache c1 !! js "k" = Some stored ∧
  (inject_Z 0 < age 1000 stored)%Q ∧
  cache_get c1 (js "k") 1000 = (Some (Text (js "v"), js "t"), c1).
Proof.
  intros c1 stored. split; [apply cache_set_lookup|].
  split; [reflexivity | vm_compute; reflexivity].
Qed.

(** C4 (amended).  An entry stored by [set(k, v, type, ttl)] lives for its
    effective TTL [e]: the [ttl] given when that is a non-zero number, and
    the cache default -- 300 seconds for the cache the module exports --
    when [ttl] is zero or absent; [e] is what [set] stores in the entry.
    While the age is at most [e] seconds [get] returns [(v, type)] and
    leaves the cache alone; once the age exceeds [e] it returns nothing,
    deletes the entry, and [getStats] counts one entry fewer.  No lookup
    ever returns an entry older than its stored TTL, and the sweep deletes
    exactly the entries older than theirs. *)
Theorem C4_cache_expiry (c : SimpleCache) (k : jsstring) (v : Content)
    (type : jsstring) (ttl0 : option Z) (t0 t1 : Z) :
  let c1 := cache_set c k v type ttl0 t0 in
  let e := match ttl0 with
           | Some t => if decide (t = 0%Z) then defaultTtl c else t
           | None => defaultTtl c
           end in
  (∀ t, ttl0 = Some t → t ≠ 0%Z → e = t) ∧
  (ttl0 = None ∨ ttl0 = Some 0%Z → e = defaultTtl c) ∧
  defaultTtl SimpleCache_new = 300%Z ∧
  defaultTtl c1 = defaultTtl c ∧
  cache c1 !! k = Some {| content := v; contentType := type;
                          timestamp := t0; ttl := e |} ∧
  ((t1 - t0 <= 1000 * e)%Z →
     cache_get c1 k t1 = (Some (v, type), c1)) ∧
  ((1000 * e < t1 - t0)%Z →
     ∃ c2, cache_get c1 k t1 = (None, c2) ∧ cache c2 !! k = None ∧
           getStats c2 = pred (getStats c1)) ∧
  (∀ (c : SimpleCache) k now r c',
     cache_get c k now = (Some r, c') →
     ∃ en, cache c !! k = Some en ∧ r = (content en, contentType en) ∧
           (now - timestamp en <= 1000 * ttl en)%Z) ∧
  (∀ (c : SimpleCache) now k en,
     cache (cleanup c now) !! k = Some en ↔
     cache c !! k = Some en ∧ (now - timestamp en <= 1000 * ttl en)%Z).
Proof.
  intros c1 e.
  assert (ttlOrDefault ttl0 (defaultTtl c) = e) as He.
  { subst e. unfold ttlOrDefault. destruct ttl0 as [t|]; [|done].
    destruct (Z.eqb_spec t 0); by case_decide. }
  assert (cache c1 !! k = Some {| content := v; contentType := type;
                                  timestamp := t0; ttl := e |}) as Hstored.
  { subst c1. rewrite cache_set_lookup. by rewrite He. }
  split; [|split; [|split; [|split; [|split; [|split; [|split; [|split]]]]]]].
  - intros t -> Hne. subst e. by case_decide.
  - intros [->| ->]; subst e; [done|]. by case_decide.
  - done.
  - done.
  - exact Hstored.
  - intros Hage. rewrite (cache_get_live _ _ _ _ Hstored); [done | simpl; lia].
  - intros Hage. exists (cache_delete c1 k). split; [|split].
    + rewrite (cache_get_expired _ _ _ _ Hstored); [done | simpl; lia].
    + simpl. apply lookup_delete_eq.
    + unfold getStats, cache_delete. simpl.
      apply map_size_delete_Some. rewrite lookup_insert_eq. by eexists.
  - intros c' k' now r c'' Hget. apply cache_get_sound in Hget.
    destruct r as [v' type']. destruct Hget as (en & Hk & -> & -> & Hage & _).
    by exists en.
  - intros c' now k' en. rewrite cleanup_lookup.
    destruct (cache c' !! k') as [en'|]; [|naive_solver].
    destruct (expired now en') eqn:Hex.
    + apply expired_true in Hex. split; [done|]. intros [[= ->] ?]. lia.
    + apply expired_false in Hex. naive_solver.
Qed.

(** The round trip of the specification: a one-second TTL, an immediate
    [get], and a [get] two seconds later; and an entry set with TTL 0 on
    the exported cache, which lives for the default 300 seconds: it is
    still served at 300 000 ms and gone one millisecond later. *)
Lemma C4_cache_expiry_witness :
  let c1 := cache_set SimpleCache_new (js "k") (Text (js "v")) (js "t") (Some 1%Z) 0 in
  let c0 := cache_set SimpleCache_new (js "k") (Text (js "v")) (js "t") (Some 0%Z) 0 in
  (cache_get c1 (js "k") 0 = (Some (Text (js "v"), js "t"), c1) ∧
   ∃ c2, cache_get c1 (js "k") 2000 = (None, c2) ∧ cache c2 !! js "k" = None ∧
         getStats c2 = pred (getStats c1)) ∧
  (cache_get c0 (js "k") 300000 = (Some (Text (js "v"), js "t"), c0) ∧
   ∃ c2, cache_get c0 (js "k") 300001 = (None, c2) ∧ cache c2 !! js "k" = None ∧
         getStats c2 = pred (getStats c0)).
Proof.
  pose proof (C4_cache_expiry SimpleCache_new (js "k") (Text (js "v")) (js "t")
                (Some 1%Z) 0 0) as (_ & _ & _ & _ & _ & Hlive & _).
  pose proof (C4_cache_expiry SimpleCache_new (js "k") (Text (js "v")) (js "t")
                (Some 1%Z) 0 2000) as (_ & _ & _ & _ & _ & _ & Hdead & _).
  pose proof (C4_cache_expiry SimpleCache_new (js "k") (Text (js "v")) (js "t")
                (Some 0%Z) 0 300000) as (_ & _ & _ & _ & _ & Hlive0 & _).
  pose proof (C4_cache_expiry SimpleCache_new (js "k") (Text (js "v")) (js "t")
                (Some 0%Z) 0 300001) as (_ & _ & _ & _ & _ & _ & Hdead0 & _).
  split; split.
  - apply Hlive. simpl. lia.
  - apply Hdead. simpl. lia.
  - apply Hlive0. simpl. lia.
  - apply Hdead0. simpl. lia.
Defined.

(** ** Request headers *)

Lemma findDomainTemplateIn_first (templates : list DomainTemplate) h T :
  findDomainTemplateIn templates h = Some T →
  ∃ before after,
    templates = before ++ T :: after ∧
    RegExp_test (pattern T) h = true ∧
    Forall (λ t, RegExp_test (pattern t) h = false) before.
Proof.
  unfold findDomainTemplateIn.
  induction templates as [|t ts IH]; simpl; [discriminate|].
  destruct (RegExp_test (pattern t) h) eqn:Ht.
  - intros [= ->]. exists [], ts. done.
  - intros Hfind. destruct (IH Hfind) as (before & after & -> & HT & Hb).
    exists (t :: before), after. split; [done|]. split; [done|].
    by constructor.
Qed.

Lemma findDomainTemplateIn_none (templates : list DomainTemplate) h :
  findDomainTemplateIn templates h = None ↔
  Forall (λ t, RegExp_test (pattern t) h = false) templates.
Proof.
  unfold findDomainTemplateIn.
  induction templates as [|t ts IH]; simpl.
  - split; [constructor|done].
  - destruct (RegExp_test (pattern t) h) eqn:Ht.
    + split; [discriminate|]. intros HF. inversion HF; congruence.
    + rewrite IH. split; [by constructor|]. intros HF. by inversion HF.
Qed.

Lemma defaultHeaders_user_agent :
  defaultHeaders !! js "user-agent" = Some DEFAULT_USER_AGENT.
Proof. reflexivity. Qed.

Lemma applyTemplate_lookup (T : DomainTemplate) (k : jsstring) :
  applyTemplate T defaultHeaders !! k =
  match additionalHeaders T ≫= (λ extra, extra !! k) with
  | Some v => Some v
  | None =>
      if bool_decide (k = js "origin") then Some (origin T)
      else if bool_decide (k = js "referer") then Some (referer T)
      else if bool_decide (k = js "user-agent") then Some (effectiveUserAgent T)
      else defaultHeaders !! k
  end.
Proof.
  unfold applyTemplate, effectiveUserAgent.
  set (h1 := <[js "referer":=referer T]> (<[js "origin":=origin T]> defaultHeaders)).
  set (h2 := match userAgent T with
             | Some ua => if truthy ua then <[js "user-agent":=ua]> h1 else h1
             | None => h1
             end).
  assert (h2 !! k =
          if bool_decide (k = js "origin") then Some (origin T)
          else if bool_decide (k = js "referer") then Some (referer T)
          else if bool_decide (k = js "user-agent")
               then Some (match userAgent T with
                          | Some ua => if truthy ua then ua else DEFAULT_USER_AGENT
                          | None => DEFAULT_USER_AGENT
                          end)
               else defaultHeaders !! k) as Hh2.
  { subst h2 h1.
    repeat case_bool_decide; subst; try discriminate.
    - destruct (userAgent T) as [ua|]; [destruct (truthy ua)|];
        rewrite ?lookup_insert_ne by done;
        by rewrite lookup_insert_eq.
    - destruct (userAgent T) as [ua|]; [destruct (truthy ua)|];
        rewrite ?lookup_insert_ne by done;
        by rewrite lookup_insert_eq.
    - destruct (userAgent T) as [ua|]; [destruct (truthy ua)|];
        rewrite ?lookup_insert_eq; rewrite ?lookup_insert_ne by done; done.
    - destruct (userAgent T) as [ua|]; [destruct (truthy ua)|];
        by rewrite !lookup_insert_ne by done. }
  destruct (additionalHeaders T) as [extra|]; simpl; [|exact Hh2].
  rewrite lookup_union. destruct (extra !! k) as [v|] eqn:Hk; simpl.
  - by destruct (h2 !! k).
  - rewrite Hh2. by destruct (if bool_decide (k = js "origin") then _ else _).
Qed.

Lemma findDomainTemplateIn_found (templates before after : list DomainTemplate)
    (T : DomainTemplate) (h : jsstring) :
  templates = before ++ T :: after →
  Forall (λ t, RegExp_test (pattern t) h = false) before →
  RegExp_test (pattern T) h = true →
  findDomainTemplateIn templates h = Some T.
Proof.
  intros -> Hb HT. unfold findDomainTemplateIn.
  induction Hb as [|t before Ht _ IH]; cbn [app find].
  - by rewrite HT.
  - by rewrite Ht.
Qed.

Lemma findDomainTemplateIn_match (templates : list DomainTemplate)
    (T0 : DomainTemplate) (h : jsstring) :
  T0 ∈ templates → RegExp_test (pattern T0) h = true →
  ∃ before T after,
    templates = before ++ T :: after ∧
    Forall (λ t, RegExp_test (pattern t) h = false) before ∧
    RegExp_test (pattern T) h = true.
Proof.
  intros Hin H0.
  destruct (findDomainTemplateIn templates h) as [T|] eqn:E.
  - apply findDomainTemplateIn_first in E as (before & after & -> & HT & Hb).
    by exists before, T, after.
  - apply findDomainTemplateIn_none in E. rewrite Forall_forall in E.
    rewrite (E T0 Hin) in H0. discriminate.
Qed.

Lemma misses_check (l : list DomainTemplate) (h : jsstring) :
  forallb (λ t, negb (RegExp_test (pattern t) h)) l = true →
  Forall (λ t, RegExp_test (pattern t) h = false) l.
Proof.
  intros H. apply Forall_forall. intros t Ht.
  rewrite forallb_forall in H. apply list_elem_of_In, H in Ht.
  by apply negb_true_iff in Ht.
Qed.

(** C6. A host name matches a registered template when the pattern of
    some entry of the table tests true on it; the template that counts is
    the first such entry in table order.  For a URL whose host name
    matches, [generateHeaders] yields, key by key, the header set the
    specification describes for that first matching entry [T]: [host] is
    the URL's authority even if the template's extra headers carry a
    [host] key; an extra header of the template wins over everything
    else; [origin] and [referer] are the template's; [user-agent] is the
    template's only if it gives a non-empty one; every other key keeps its
    default.  When no entry matches, the result is the defaults plus
    [host].  This holds for every table, hence for [domainTemplates]. *)
Theorem C6_generateHeaders_spec (templates : list DomainTemplate) (url : URL) :
  let misses := λ t : DomainTemplate, RegExp_test (pattern t) (hostname url) = false in
  (∀ before T after,
     templates = before ++ T :: after →
     Forall misses before →
     RegExp_test (pattern T) (hostname url) = true →
     generateHeadersIn templates url !! js "host" = Some (host url) ∧
     ∀ k, generateHeadersIn templates url !! k = specifiedHeader T url k) ∧
  (∀ T0, T0 ∈ templates → RegExp_test (pattern T0) (hostname url) = true →
     ∃ before T after,
       templates = before ++ T :: after ∧ Forall misses before ∧
       RegExp_test (pattern T) (hostname url) = true ∧
       ∀ k, generateHeadersIn templates url !! k = specifiedHeader T url k) ∧
  (Forall misses templates →
     generateHeadersIn templates url = <[js "host" := host url]> defaultHeaders) ∧
  (∀ T, findDomainTemplateIn templates (hostname url) = Some T →
     (∃ before after,
        templates = before ++ T :: after ∧
        RegExp_test (pattern T) (hostname url) = true ∧
        Forall misses before) ∧
     generateHeadersIn templates url !! js "host" = Some (host url) ∧
     ∀ k, generateHeadersIn templates url !! k = specifiedHeader T url k) ∧
  (findDomainTemplateIn templates (hostname url) = None →
     generateHeadersIn templates url = <[js "host" := host url]> defaultHeaders) ∧
  generateHeaders url = generateHeadersIn domainTemplates url.
Proof.
  intros misses.
  assert (∀ T, findDomainTemplateIn templates (hostname url) = Some T →
            generateHeadersIn templates url !! js "host" = Some (host url) ∧
            ∀ k, generateHeadersIn templates url !! k = specifiedHeader T url k)
    as Hfound.
  { intros T HT. unfold generateHeadersIn. rewrite HT.
    split; [apply lookup_insert_eq|].
    intros k. unfold specifiedHeader. case_bool_decide as Hk.
    - subst k. apply lookup_insert_eq.
    - rewrite lookup_insert_ne by done. apply applyTemplate_lookup. }
  split; [|split; [|split; [|split; [|split; [|done]]]]].
  - intros before T after Ht Hb HT. apply Hfound.
    by apply findDomainTemplateIn_found with before after.
  - intros T0 Hin H0.
    destruct (findDomainTemplateIn_match templates T0 (hostname url) Hin H0)
      as (before & T & after & Ht & Hb & HT).
    exists before, T, after. split; [done|]. split; [done|]. split; [done|].
    apply Hfound. by apply findDomainTemplateIn_found with before after.
  - intros Hnone. apply findDomainTemplateIn_none in Hnone.
    unfold generateHeadersIn. by rewrite Hnone.
  - intros T HT. split; [by apply findDomainTemplateIn_first|]. by apply Hfound.
  - intros HN. unfold generateHeadersIn. by rewrite HN.
Qed.

(** A host under [akamaized.net] matches the seventh entry of the table
    and none before it, and gets that entry's origin and referer; a host
    that no entry matches gets the defaults and [host] only. *)
Lemma C6_generateHeaders_spec_witness :
  let url := {| href := js "https://x.akamaized.net/a.m3u8";
                protocol := js "https:"; host := js "x.akamaized.net";
                hostname := js "x.akamaized.net" |} in
  let other := {| href := js "https://cdn.example.com/a.m3u8";
                  protocol := js "https:"; host := js "cdn.example.com";
                  hostname := js "cdn.example.com" |} in
  (generateHeaders url !! js "host" = Some (js "x.akamaized.net") ∧
   generateHeaders url !! js "origin" = Some (js "https://bl.krussdomi.com") ∧
   generateHeaders url !! js "referer" = Some (js "https://bl.krussdomi.com/") ∧
   generateHeaders url !! js "user-agent" = Some DEFAULT_USER_AGENT) ∧
  generateHeaders other = <[js "host" := js "cdn.example.com"]> defaultHeaders.
Proof.
  intros url other. split.
  - destruct (C6_generateHeaders_spec domainTemplates url) as (Hmatch & _ & _ & _ & _ & Heq).
    destruct (Hmatch (take 6 domainTemplates)
                (template (suffix_i ".akamaized.net") "https://bl.krussdomi.com"
                   "https://bl.krussdomi.com/")
                (drop 7 domainTemplates)) as (Hhost & Hk).
    + reflexivity.
    + apply misses_check. vm_compute. reflexivity.
    + vm_compute. reflexivity.
    + rewrite Heq. split; [exact Hhost|].
      rewrite !Hk. repeat split; vm_compute; reflexivity.
  - destruct (C6_generateHeaders_spec domainTemplates other) as (_ & _ & Hnone & _ & _ & Heq).
    rewrite Heq. apply Hnone. apply misses_check. vm_compute. reflexivity.
Defined.

(** ** Strings *)

Ltac bool_to_prop :=
  repeat match goal with
    | H : _ && _ = true |- _ => apply andb_true_iff in H as [? ?]
    | H : _ || _ = true |- _ => apply orb_true_iff in H as [?|?]
    | H : _ || _ = false |- _ => apply orb_false_iff in H as [? ?]
    | H : negb _ = true |- _ => apply negb_true_iff in H
    | H : negb _ = false |- _ => apply negb_false_iff in H
    | H : (_ =? _) = true |- _ => apply N.eqb_eq in H
    | H : (_ =? _) = false |- _ => apply N.eqb_neq in H
    | H : (_ <=? _) = true |- _ => apply N.leb_le in H
    | H : (_ <=? _) = false |- _ => apply N.leb_gt in H
    | H : (_ <? _) = true |- _ => apply N.ltb_lt in H
    | H : (_ <? _) = false |- _ => apply N.ltb_ge in H
    end.

Lemma startsWith_prefix (s p : jsstring) :
  startsWith s p = true ↔ ∃ r, s = p ++ r.
Proof.
  revert s. induction p as [|b p IH]; intros s; simpl.
  - split; [intros _; by exists s|done].
  - destruct s as [|a s]; simpl.
    + split; [discriminate|]. intros [r Hr]. discriminate.
    + rewrite andb_true_iff, N.eqb_eq, IH. split.
      * intros [-> [r ->]]. by exists r.
      * intros [r [= -> ->]]. split; [done|by exists r].
Qed.

Lemma startsWith_app (p r : jsstring) : startsWith (p ++ r) p = true.
Proof. apply startsWith_prefix. by exists r. Qed.

Lemma startsWith_nil (s : jsstring) : startsWith s [] = true.
Proof. by destruct s. Qed.

Lemma startsWith_cons_head (s r : jsstring) (c d : N) :
  c ≠ d → startsWith (c :: s) (d :: r) = false.
Proof. intros Hne. simpl. apply N.eqb_neq in Hne. by rewrite Hne. Qed.

Lemma indexOf_Some (s p : jsstring) (i : nat) :
  indexOf s p = Some i → startsWith (drop i s) p = true.
Proof.
  revert i. induction s as [|a s IH]; intros i; simpl.
  - destruct (startsWith [] p) eqn:E; [|discriminate]. by intros [= <-].
  - destruct (startsWith (a :: s) p) eqn:E.
    + by intros [= <-].
    + destruct (indexOf s p) as [j|] eqn:Hj; simpl; [|discriminate].
      intros [= <-]. simpl. by apply IH.
Qed.

Lemma indexOf_least (s p : jsstring) (i j : nat) :
  indexOf s p = Some i → (j < i)%nat → startsWith (drop j s) p = false.
Proof.
  revert i j. induction s as [|a s IH]; intros i j; simpl.
  - destruct (startsWith [] p) eqn:E; [|discriminate]. intros [= <-]. lia.
  - destruct (startsWith (a :: s) p) eqn:E.
    + intros [= <-]. lia.
    + destruct (indexOf s p) as [k|] eqn:Hk; simpl; [|discriminate].
      intros [= <-] Hlt. destruct j as [|j]; [done|]. simpl.
      apply (IH k); [done|lia].
Qed.

Lemma indexOf_None (s p : jsstring) (j : nat) :
  indexOf s p = None → startsWith (drop j s) p = false.
Proof.
  revert j. induction s as [|a s IH]; intros j; simpl.
  - destruct (startsWith [] p) eqn:E; [discriminate|]. intros _.
    by rewrite drop_nil.
  - destruct (startsWith (a :: s) p) eqn:E; [discriminate|].
    destruct (indexOf s p) as [k|] eqn:Hk; simpl; [discriminate|].
    intros _. destruct j as [|j]; [done|]. simpl. by apply IH.
Qed.

Lemma indexOf_first (s p : jsstring) (i : nat) :
  startsWith (drop i s) p = true →
  (∀ j, (j < i)%nat → startsWith (drop j s) p = false) →
  indexOf s p = Some i.
Proof.
  intros Hi Hleast. destruct (indexOf s p) as [k|] eqn:Hk.
  - f_equal. destruct (Nat.lt_trichotomy k i) as [Hlt|[->|Hgt]]; [|done|].
    + apply indexOf_Some in Hk. rewrite (Hleast k Hlt) in Hk. discriminate.
    + rewrite (indexOf_least _ _ _ _ Hk Hgt) in Hi. discriminate.
  - rewrite (indexOf_None _ _ i Hk) in Hi. discriminate.
Qed.

Lemma includes_true (s p : jsstring) :
  includes s p = true ↔ ∃ i, startsWith (drop i s) p = true.
Proof.
  unfold includes. rewrite bool_decide_eq_true. split.
  - intros [i Hi]. exists i. by apply indexOf_Some.
  - intros [i Hi]. destruct (indexOf s p) as [k|] eqn:Hk; [by eexists|].
    rewrite (indexOf_None _ _ i Hk) in Hi. discriminate.
Qed.

(** *** [trim] *)

Lemma trimStart_head (c : N) (s : jsstring) :
  isWhiteSpace c = false → trimStart (c :: s) = c :: s.
Proof. intros Hc. simpl. by rewrite Hc. Qed.

Lemma trimEnd_last (s : jsstring) (c : N) :
  isWhiteSpace c = false → trimEnd (s ++ [c]) = s ++ [c].
Proof.
  intros Hc. unfold trimEnd. rewrite rev_app_distr. simpl. rewrite Hc.
  simpl. by rewrite rev_involutive.
Qed.

Lemma trimEnd_nil : trimEnd [] = [].
Proof. reflexivity. Qed.

Lemma trimStart_app_keep (w x : jsstring) (c : N) :
  isWhiteSpace c = false → ∃ w', trimStart (w ++ c :: x) = w' ++ c :: x.
Proof.
  intros Hc. induction w as [|d w [w' IH]]; simpl.
  - rewrite Hc. by exists [].
  - destruct (isWhiteSpace d); [by exists w'|by exists (d :: w)].
Qed.

(** [trimEnd] keeps everything up to the last character that is not
    white space. *)
Lemma trimEnd_app_keep (s r : jsstring) (c : N) :
  isWhiteSpace c = false → ∃ r', trimEnd (s ++ c :: r) = s ++ c :: r'.
Proof.
  intros Hc. unfold trimEnd.
  replace (rev (s ++ c :: r)) with (rev r ++ c :: rev s)
    by (rewrite rev_app_distr; simpl; by rewrite <- app_assoc).
  destruct (trimStart_app_keep (rev r) (rev s) c Hc) as [w' ->].
  exists (rev w'). rewrite rev_app_distr. simpl.
  by rewrite rev_involutive, <- app_assoc.
Qed.

Lemma trimStart_spec (s : jsstring) :
  ∃ ws, s = ws ++ trimStart s ∧ forallb isWhiteSpace ws = true ∧
        match trimStart s with
        | c :: _ => isWhiteSpace c = false
        | [] => True
        end.
Proof.
  induction s as [|c s (ws & Heq & Hws & Hhd)]; simpl.
  - by exists [].
  - destruct (isWhiteSpace c) eqn:Hc.
    + exists (c :: ws). simpl. rewrite Hc, Hws. split; [by f_equal|done].
    + exists []. done.
Qed.

(** The first character of [trim s] is the first character of [s] that
    is not white space. *)
Lemma trim_head (s : jsstring) (c : N) (r : jsstring) :
  trimStart s = c :: r → ∃ r', trim s = c :: r'.
Proof.
  intros Hs. unfold trim. rewrite Hs.
  destruct (trimStart_spec s) as (_ & _ & _ & Hc). rewrite Hs in Hc.
  destruct (trimEnd_app_keep [] r c Hc) as [r' Hr']. by exists r'.
Qed.

Lemma trim_nil_of_trimStart (s : jsstring) : trimStart s = [] → trim s = [].
Proof. intros Hs. unfold trim. by rewrite Hs. Qed.

(** A string that neither begins nor ends with white space is its own
    trim. *)
Lemma trim_id (c d : N) (m : jsstring) :
  isWhiteSpace c = false → isWhiteSpace d = false →
  trim (c :: m ++ [d]) = c :: m ++ [d].
Proof.
  intros Hc Hd. unfold trim. rewrite trimStart_head by done.
  exact (trimEnd_last (c :: m) d Hd).
Qed.

Lemma trim_id_single (c : N) : isWhiteSpace c = false → trim [c] = [c].
Proof.
  intros Hc. unfold trim. rewrite trimStart_head by done.
  by apply (trimEnd_last [] c).
Qed.

(** *** Lines *)

Lemma splitLines_nonempty (s : jsstring) : splitLines s ≠ [].
Proof.
  destruct s as [|c t]; simpl; [done|].
  destruct (c =? LF); [done|].
  destruct t as [|d t']; [by destruct (splitLines [])|].
  destruct ((c =? CR) && (d =? LF)); [done|].
  by destruct (splitLines (d :: t')).
Qed.

Lemma splitLines_no_LF (s : jsstring) : LF ∉ s → splitLines s = [s].
Proof.
  induction s as [|c t IH]; [done|].
  intros Hnot. apply not_elem_of_cons in Hnot as [Hc Ht].
  cbn [splitLines]. destruct (N.eqb_spec c LF) as [->|_]; [done|].
  rewrite (IH Ht). destruct t as [|d t']; [done|].
  apply not_elem_of_cons in Ht as [Hd _].
  destruct (N.eqb_spec d LF) as [->|_]; [done|].
  by rewrite andb_false_r.
Qed.

Lemma splitLines_app_LF (l rest : jsstring) :
  LF ∉ l → last l ≠ Some CR →
  splitLines (l ++ LF :: rest) = l :: splitLines rest.
Proof.
  induction l as [|c l IH]; intros Hnot Hlast.
  - reflexivity.
  - apply not_elem_of_cons in Hnot as [Hc Hl].
    cbn [app splitLines]. destruct (N.eqb_spec c LF) as [->|_]; [done|].
    destruct l as [|d l'].
    + simpl. destruct (N.eqb_spec c CR) as [->|_]; [done|]. done.
    + rewrite IH; [|done|by rewrite last_cons_cons in Hlast].
      cbn [app]. apply not_elem_of_cons in Hl as [Hd _].
      destruct (N.eqb_spec d LF) as [->|_]; [done|].
      by rewrite andb_false_r.
Qed.

(** Joining lines with LF and splitting again gives the lines back,
    provided no line contains LF or ends in CR. *)
Lemma splitLines_joinLines (ls : list jsstring) :
  ls ≠ [] →
  Forall (λ l, (LF ∉ l) ∧ last l ≠ Some CR) ls →
  splitLines (joinLines ls) = ls.
Proof.
  induction ls as [|l ls IH]; [done|]. intros _ HF.
  apply Forall_cons in HF as [[Hl Hlast] HF].
  destruct ls as [|l' ls'].
  - simpl. by apply splitLines_no_LF.
  - change (joinLines (l :: l' :: ls')) with (l ++ LF :: joinLines (l' :: ls')).
    rewrite splitLines_app_LF by done. f_equal. by apply IH.
Qed.

Lemma consLine_no_LF (c : N) (ls : list jsstring) :
  c ≠ LF → Forall (λ l, LF ∉ l) ls → Forall (λ l, LF ∉ l) (consLine c ls).
Proof.
  intros Hc HF. destruct ls as [|l ls']; simpl.
  - constructor; [|done]. set_solver.
  - apply Forall_cons in HF as [Hl HF]. constructor; [|done]. set_solver.
Qed.

Lemma splitLines_lines_no_LF_aux (n : nat) (s : jsstring) :
  (length s <= n)%nat → Forall (λ l, LF ∉ l) (splitLines s).
Proof.
  revert s. induction n as [|n IH]; intros s Hlen.
  - destruct s; [|simpl in Hlen; lia]. simpl. constructor; [set_solver|done].
  - destruct s as [|c t]; [simpl; constructor; [set_solver|done]|].
    simpl in Hlen. cbn [splitLines].
    destruct (N.eqb_spec c LF) as [->|Hc].
    + constructor; [set_solver|]. apply IH. lia.
    + destruct t as [|d t'].
      * simpl. constructor; [set_solver|done].
      * destruct ((c =? CR) && (d =? LF)).
        -- constructor; [set_solver|]. apply IH. simpl in Hlen. lia.
        -- apply consLine_no_LF; [done|]. apply IH. lia.
Qed.

Lemma splitLines_lines_no_LF (s : jsstring) :
  Forall (λ l, LF ∉ l) (splitLines s).
Proof. by apply (splitLines_lines_no_LF_aux (length s)). Qed.

(** *** [encodeURIComponent] *)

Lemma isUriUnreserved_encodedChar (c : N) :
  isUriUnreserved c = true → encodedChar c.
Proof.
  unfold isUriUnreserved, encodedChar. intros H. bool_to_prop; lia.
Qed.

Lemma hexDigit_encodedChar (n : N) : encodedChar (hexDigit (n mod 16)).
Proof.
  pose proof (N.mod_upper_bound n 16 ltac:(done)) as Hlt.
  unfold hexDigit, encodedChar. generalize dependent (n mod 16). intros m Hlt.
  destruct (N.ltb_spec m 10); lia.
Qed.

Lemma percentOctet_encodedChar (b : N) : Forall encodedChar (percentOctet b).
Proof.
  unfold percentOctet.
  apply Forall_cons; split; [unfold encodedChar; lia|].
  apply Forall_cons; split; [apply hexDigit_encodedChar|].
  apply Forall_cons; split; [apply hexDigit_encodedChar|constructor].
Qed.

Lemma encodeCodePoint_encodedChar (cp : N) : Forall encodedChar (encodeCodePoint cp).
Proof.
  unfold encodeCodePoint. destruct (isUriUnreserved cp) eqn:Hu.
  - apply Forall_cons; split; [by apply isUriUnreserved_encodedChar|constructor].
  - apply Forall_concat, Forall_fmap, Forall_forall. intros b _.
    apply percentOctet_encodedChar.
Qed.

Lemma encodePoints_encodedChar (cps : list (option N)) (e : jsstring) :
  encodePoints cps = Ret e → Forall encodedChar e.
Proof.
  revert e. induction cps as [|[cp|] cps IH]; intros e; simpl.
  - intros [= <-]. constructor.
  - destruct (encodePoints cps) as [r|err] eqn:Hr; simpl; [|discriminate].
    intros [= <-]. apply Forall_app. split; [apply encodeCodePoint_encodedChar|].
    by apply IH.
  - discriminate.
Qed.

Lemma encodeURIComponent_encodedChar (s e : jsstring) :
  encodeURIComponent s = Ret e → Forall encodedChar e.
Proof. apply encodePoints_encodedChar. Qed.

Lemma encodedChar_not_space (c : N) : encodedChar c → isWhiteSpace c = false.
Proof.
  unfold encodedChar, isWhiteSpace. intros H.
  repeat (apply orb_false_iff; split);
    try (apply N.eqb_neq; lia);
    apply andb_false_iff; left; apply N.leb_gt; lia.
Qed.

(** ** The playlist rewriter *)

Lemma returns_Ret {A} (a : A) : returns (Ret a).
Proof. by exists a. Qed.

Lemma returns_Throw {A} (e : JsError) : ¬ returns (@Throw A e).
Proof. intros [a Ha]. discriminate. Qed.

Lemma try_catch_returns {A} (body : outcome A) (h : JsError → outcome A) :
  (∀ e, returns (h e)) → returns (try_catch body h).
Proof. intros Hh. destruct body as [a|e]; simpl; [apply returns_Ret|apply Hh]. Qed.

Lemma mapM_Forall2 {A B} (f : A → outcome B) (xs : list A) (ys : list B) :
  mapM f xs = Ret ys ↔ Forall2 (λ x y, f x = Ret y) xs ys.
Proof.
  revert ys. induction xs as [|x xs IH]; intros ys; simpl.
  - split; [intros [= <-]; constructor|]. intros HF. by inversion HF.
  - split.
    + destruct (f x) as [y|e] eqn:Hx; simpl; [|discriminate].
      destruct (mapM f xs) as [ys'|e] eqn:Hxs; simpl; [|discriminate].
      intros [= <-]. constructor; [done|]. by apply IH.
    + intros HF. inversion HF as [|? y ? ys' Hx Hxs]; subst.
      rewrite Hx. simpl. apply IH in Hxs. by rewrite Hxs.
Qed.

Lemma mapM_returns {A B} (f : A → outcome B) (xs : list A) :
  (∀ x, returns (f x)) → returns (mapM f xs).
Proof.
  intros Hf. induction xs as [|x xs [ys IH]]; simpl; [apply returns_Ret|].
  destruct (Hf x) as [y ->]. simpl. rewrite IH. apply returns_Ret.
Qed.

Lemma foldM_returns {A B} (f : B → A → outcome B) (acc : B) (xs : list A) :
  (∀ b x, returns (f b x)) → returns (foldM f acc xs).
Proof.
  intros Hf. revert acc. induction xs as [|x xs IH]; intros acc; simpl.
  - apply returns_Ret.
  - destruct (Hf acc x) as [b ->]. simpl. apply IH.
Qed.

(** A loop whose every step leaves the accumulator alone returns it. *)
Lemma foldM_fixed {A B} (f : B → A → outcome B) (acc : B) (xs : list A) :
  Forall (λ x, f acc x = Ret acc) xs → foldM f acc xs = Ret acc.
Proof.
  induction xs as [|x xs IH]; intros HF; simpl; [done|].
  apply Forall_cons in HF as [Hx HF]. rewrite Hx. simpl. by apply IH.
Qed.

Section Rewriter.
Context (P : Platform).

Lemma rewriteUriAttr_returns U bp p acc v :
  returns (rewriteUriAttr P U bp p acc v).
Proof.
  unfold rewriteUriAttr. destruct (startsWith v p); [apply returns_Ret|].
  apply try_catch_returns. intros _. apply returns_Ret.
Qed.

Lemma processLine_returns U bp p line :
  returns (processLine P U bp p line).
Proof.
  unfold processLine.
  destruct (startsWith (trim line) [HASH]).
  - destruct (includes line URI_OPEN); [|apply returns_Ret].
    apply foldM_returns. intros. apply rewriteUriAttr_returns.
  - case_bool_decide; [|apply returns_Ret].
    destruct (startsWith (trim line) p); [apply returns_Ret|].
    apply try_catch_returns. intros _. apply returns_Ret.
Qed.

Lemma processM3u8_returns t u p : returns (processM3u8 P t u p).
Proof.
  unfold processM3u8. apply try_catch_returns. intros _. apply returns_Ret.
Qed.

(** When the source URL does not parse, the text comes back as it is. *)
Lemma processM3u8_bad_base t u p e :
  new_URL P u None = Throw e → processM3u8 P t u p = Ret t.
Proof. intros HU. unfold processM3u8. by rewrite HU. Qed.

(** Otherwise the output is the LF-join of one output line per input
    line. *)
Lemma processM3u8_lines t u p U :
  new_URL P u None = Ret U →
  ∃ out, processM3u8 P t u p = Ret (joinLines out) ∧
         Forall2 (λ line o, processLine P U (basePathOf u) p line = Ret o)
                 (splitLines t) out.
Proof.
  intros HU. unfold processM3u8. rewrite HU. simpl.
  destruct (mapM_returns (processLine P U (basePathOf u) p) (splitLines t))
    as [out Hout]; [intros; apply processLine_returns|].
  exists out. rewrite Hout. split; [done|]. by apply mapM_Forall2.
Qed.

(** *** The already-proxied guard *)

(** A reference line whose trimmed text begins with the proxy path is
    emitted as it is. *)
Lemma processLine_proxied_reference U bp p line :
  startsWith (trim line) [HASH] = false →
  startsWith (trim line) p = true →
  processLine P U bp p line = Ret line.
Proof.
  intros Hh Hp. unfold processLine. rewrite Hh, Hp. by case_bool_decide.
Qed.

(** An attribute value that begins with the proxy path is passed over. *)
Lemma rewriteUriAttr_proxied U bp p acc v :
  startsWith v p = true → rewriteUriAttr P U bp p acc v = Ret acc.
Proof. intros Hp. unfold rewriteUriAttr. by rewrite Hp. Qed.

(** An attribute value that fails to resolve is left as it is. *)
Lemma rewriteUriAttr_failed U bp p acc v :
  ¬ returns (proxiedReference P U bp p v) →
  rewriteUriAttr P U bp p acc v = Ret acc.
Proof.
  intros Hf. unfold rewriteUriAttr. destruct (startsWith v p); [done|].
  destruct (proxiedReference P U bp p v) as [r|e]; simpl; [|done].
  destruct Hf. apply returns_Ret.
Qed.

(** A directive line none of whose attribute values is rewritten is
    emitted as it is. *)
Lemma processLine_directive_fixed U bp p line :
  startsWith (trim line) [HASH] = true →
  Forall (λ v, startsWith v p = true ∨ ¬ returns (proxiedReference P U bp p v))
         (uriMatches line) →
  processLine P U bp p line = Ret line.
Proof.
  intros Hh HF. unfold processLine. rewrite Hh.
  destruct (includes line URI_OPEN); [|done].
  apply foldM_fixed. eapply Forall_impl; [exact HF|]. simpl.
  intros v [Hp|Hf]; [by apply rewriteUriAttr_proxied|by apply rewriteUriAttr_failed].
Qed.


(** A reference line that resolves is replaced by the proxied
    reference. *)
Lemma processLine_reference U bp p line r :
  startsWith (trim line) [HASH] = false →
  trim line ≠ [] →
  startsWith (trim line) p = false →
  proxiedReference P U bp p (trim line) = Ret r →
  processLine P U bp p line = Ret r.
Proof.
  intros Hh Hne Hp Hr. unfold processLine. rewrite Hh, Hp, Hr.
  case_bool_decide as Hlen; [done|].
  destruct (trim line); [done|]. simpl in Hlen. lia.
Qed.

(** What [proxiedReference] returns for a relative reference. *)
Lemma proxiedReference_relative U bp p ref u enc :
  startsWith ref (js "http://") = false →
  startsWith ref (js "https://") = false →
  startsWith ref (js "//") = false →
  new_URL P ref (Some bp) = Ret u →
  encodeURIComponent (href u) = Ret enc →
  proxiedReference P U bp p ref = Ret (p ++ js "?url=" ++ enc).
Proof.
  intros H1 H2 H3 Hu Henc. unfold proxiedReference.
  rewrite H1, H2, H3. simpl. rewrite Hu. simpl. by rewrite Henc.
Qed.
End Rewriter.

Lemma processM3u8_ok (P : Platform) t u p U out :
  new_URL P u None = Ret U →
  Forall2 (λ line o, processLine P U (basePathOf u) p line = Ret o)
          (splitLines t) out →
  processM3u8 P t u p = Ret (joinLines out).
Proof.
  intros HU HF. apply mapM_Forall2 in HF.
  unfold processM3u8. rewrite HU. simpl. by rewrite HF.
Qed.

Lemma basePathOf_sourceUrl : basePathOf sourceUrl = sourceDir.
Proof. vm_compute. reflexivity. Qed.







(** ** Idempotence of the rewrite *)

(** *** Occurrences of the attribute opener *)

Lemma startsWith_app_long (a b p : jsstring) :
  (length p <= length a)%nat → startsWith (a ++ b) p = startsWith a p.
Proof.
  revert a. induction p as [|c p IH]; intros a Hlen; [done|].
  destruct a as [|x a]; simpl in *; [lia|].
  rewrite IH by lia. done.
Qed.

Lemma startsWith_app_pat (x a b : jsstring) :
  startsWith x (a ++ b) = true → startsWith x a = true.
Proof.
  rewrite !startsWith_prefix. intros [r ->]. exists (b ++ r). by rewrite app_assoc.
Qed.

Lemma cleanText_drop (t : jsstring) (j : nat) :
  cleanText t → startsWith (drop j t) URI_OPEN = false.
Proof.
  unfold cleanText. intros Hc. apply not_true_iff_false. intros Hs.
  apply not_true_iff_false in Hc. apply Hc. apply includes_true. by exists j.
Qed.

(** A match of [URI=Q] cannot begin in clean text and end in the
    attribute that follows it. *)
Lemma no_open_across (t' x : jsstring) :
  t' ≠ [] → startsWith t' URI_OPEN = false →
  startsWith (t' ++ URI_OPEN ++ x) URI_OPEN = false.
Proof.
  intros Hne Ht.
  destruct (decide (5 <= length t')%nat) as [Hlen|Hlen].
  - by rewrite startsWith_app_long.
  - apply not_true_iff_false. intros [r Hr]%startsWith_prefix.
    destruct t' as [|a [|b [|c [|d [|e t']]]]]; [done| | | | |simpl in Hlen; lia];
      vm_compute in Hr; simplify_eq.
Qed.

Lemma open_in_text (t x : jsstring) (j : nat) :
  cleanText t → (j < length t)%nat →
  startsWith (drop j (t ++ URI_OPEN ++ x)) URI_OPEN = false.
Proof.
  intros Hc Hj. rewrite drop_app_le by lia.
  apply no_open_across; [|by apply cleanText_drop].
  intros Hnil. apply (f_equal length) in Hnil. rewrite length_drop in Hnil.
  simpl in Hnil. lia.
Qed.

Lemma open_in_tail (t : jsstring) (j : nat) :
  cleanText t → startsWith (drop j t) URI_OPEN = false.
Proof. apply cleanText_drop. Qed.

(** If [URI=Q] matches at the head of quote-free text followed by a
    quote, the text is exactly [URI=]. *)
Lemma open_before_quote (x rest : jsstring) :
  DQUOTE ∉ x → startsWith (x ++ DQUOTE :: rest) URI_OPEN = true → x = js "URI=".
Proof.
  intros Hq [r Hr]%startsWith_prefix.
  destruct x as [|a [|b [|c [|d [|e x]]]]]; vm_compute in Hr; simplify_eq;
    [reflexivity|].
  exfalso. apply Hq. unfold DQUOTE. set_solver.
Qed.

Lemma uriAttr_length (v : jsstring) : length (uriAttr v) = (6 + length v)%nat.
Proof. unfold uriAttr. rewrite !length_app. simpl. lia. Qed.

Lemma uriAttr_unfold (v rest : jsstring) :
  uriAttr v ++ rest = URI_OPEN ++ v ++ DQUOTE :: rest.
Proof. unfold uriAttr. by rewrite <- !app_assoc. Qed.

Lemma endsWith_app (a b : jsstring) : endsWith (a ++ b) b = true.
Proof. unfold endsWith. rewrite rev_app_distr. apply startsWith_app. Qed.

(** Inside a clean attribute, past its first character, [URI=Q] does not
    match. *)
Lemma open_in_attr (v rest : jsstring) (j : nat) :
  cleanValue v → (0 < j < length (uriAttr v))%nat →
  startsWith (drop j (uriAttr v ++ rest)) URI_OPEN = false.
Proof.
  intros (Hne & Hq & Hend) Hj. rewrite uriAttr_length in Hj.
  rewrite uriAttr_unfold.
  destruct (decide (j < 5)%nat) as [Hlt|Hge].
  - destruct j as [|[|[|[|[|j]]]]]; try lia; reflexivity.
  - replace j with (5 + (j - 5))%nat by lia.
    change URI_OPEN with [85; 82; 73; 61; 34] at 1. cbn [app drop Nat.add].
    fold (drop (j - 5) (v ++ DQUOTE :: rest)).
    destruct (decide (j - 5 = length v)%nat) as [Heq|Hne'].
    + rewrite drop_app_length' by done. reflexivity.
    + rewrite drop_app_le by lia.
      apply not_true_iff_false. intros Hs.
      apply open_before_quote in Hs.
      * rewrite <- (take_drop (j - 5) v), Hs, endsWith_app in Hend. discriminate.
      * intros Hin. apply Hq. by apply (subseteq_drop (j - 5) v).
Qed.

Lemma spanNotQuote_app (v rest : jsstring) :
  DQUOTE ∉ v → spanNotQuote (v ++ DQUOTE :: rest) = (v, DQUOTE :: rest).
Proof.
  induction v as [|c v IH]; intros Hq; [reflexivity|].
  apply not_elem_of_cons in Hq as [Hc Hv]. cbn [app spanNotQuote].
  destruct (N.eqb_spec c DQUOTE) as [->|_]; [done|]. by rewrite IH.
Qed.

Lemma uriMatchHere_attr (v rest : jsstring) :
  v ≠ [] → DQUOTE ∉ v → uriMatchHere (uriAttr v ++ rest) = Some v.
Proof.
  intros Hne Hq. unfold uriMatchHere. rewrite uriAttr_unfold.
  rewrite startsWith_app.
  change (drop 5 (URI_OPEN ++ v ++ DQUOTE :: rest)) with (v ++ DQUOTE :: rest).
  rewrite spanNotQuote_app by done. by destruct v.
Qed.

Lemma uriMatchHere_closed (s : jsstring) :
  startsWith s URI_OPEN = false → uriMatchHere s = None.
Proof. intros Hs. unfold uriMatchHere. by rewrite Hs. Qed.

(** *** The scan *)

Lemma uriScan_nil (k : nat) : uriScan k [] = [].
Proof. by destruct k. Qed.

Lemma uriScan_skip (a s : jsstring) : uriScan (length a) (a ++ s) = uriScan 0 s.
Proof. induction a as [|c a IH]; [done|]. simpl. exact IH. Qed.

Lemma uriScan_text (a s : jsstring) :
  (∀ j, (j < length a)%nat → startsWith (drop j (a ++ s)) URI_OPEN = false) →
  uriScan 0 (a ++ s) = uriScan 0 s.
Proof.
  induction a as [|c a IH]; intros Hno; [done|].
  cbn [app uriScan].
  rewrite (uriMatchHere_closed (c :: a ++ s)) by (apply (Hno 0%nat); simpl; lia).
  apply IH. intros j Hj. apply (Hno (S j)). simpl. lia.
Qed.

Lemma uriScan_attr (v rest : jsstring) :
  v ≠ [] → DQUOTE ∉ v → uriScan 0 (uriAttr v ++ rest) = v :: uriScan 0 rest.
Proof.
  intros Hne Hq.
  pose proof (uriMatchHere_attr v rest Hne Hq) as Hm.
  rewrite uriAttr_unfold in *.
  change (URI_OPEN ++ v ++ DQUOTE :: rest)
    with (85 :: ([82; 73; 61; 34] ++ v ++ DQUOTE :: rest)) in *.
  cbn [uriScan]. rewrite Hm. f_equal.
  replace ([82; 73; 61; 34] ++ v ++ DQUOTE :: rest)
    with (([82; 73; 61; 34] ++ v ++ [DQUOTE]) ++ rest)
    by (by rewrite <- !app_assoc).
  replace (5 + length v)%nat with (length ([82; 73; 61; 34] ++ v ++ [DQUOTE]))
    by (rewrite !length_app; simpl; lia).
  apply uriScan_skip.
Qed.

Lemma uriScan_clean (t : jsstring) : cleanText t → uriScan 0 t = [].
Proof.
  intros Hc. rewrite <- (app_nil_r t). rewrite uriScan_text; [done|].
  intros j _. rewrite app_nil_r. by apply cleanText_drop.
Qed.

(** The matches of a rendered line are its attribute values, in order. *)
Lemma uriMatches_render (parts : list (jsstring * jsstring)) (tail : jsstring) :
  cleanParts parts → cleanText tail →
  uriMatches (render parts tail) = parts.*2.
Proof.
  intros Hparts Htail. unfold uriMatches.
  induction Hparts as [|[t v] ps [Ht (Hne & Hq & Hend)] _ IH].
  - by apply uriScan_clean.
  - rewrite fmap_cons. cbn [render fst snd] in *. rewrite uriScan_text.
    + rewrite uriScan_attr by done. by rewrite IH.
    + intros j Hj. rewrite uriAttr_unfold. by apply open_in_text.
Qed.

(** *** Replacing the first occurrence *)

Lemma getSubstitution_plain (m b a r : jsstring) :
  DOLLAR ∉ r → getSubstitution m b a r = r.
Proof.
  induction r as [|c r IH]; intros Hd; [done|].
  apply not_elem_of_cons in Hd as [Hc Hr]. cbn [getSubstitution].
  destruct (N.eqb_spec c DOLLAR) as [->|_]; [done|]. by rewrite IH.
Qed.

Lemma indexOf_skip (a s pat : jsstring) :
  (∀ j, (j < length a)%nat → startsWith (drop j (a ++ s)) pat = false) →
  indexOf (a ++ s) pat = (λ i, length a + i)%nat <$> indexOf s pat.
Proof.
  induction a as [|c a IH]; intros Hno.
  - simpl. by destruct (indexOf s pat).
  - pose proof (Hno 0%nat ltac:(simpl; lia)) as H0. cbn [drop app] in H0.
    cbn [app indexOf]. rewrite H0.
    rewrite IH by (intros j Hj; apply (Hno (S j)); simpl; lia).
    by destruct (indexOf s pat).
Qed.

Lemma replaceFirst_skip (a s pat rep : jsstring) :
  DOLLAR ∉ rep →
  (∀ j, (j < length a)%nat → startsWith (drop j (a ++ s)) pat = false) →
  replaceFirst (a ++ s) pat rep = a ++ replaceFirst s pat rep.
Proof.
  intros Hd Hno. unfold replaceFirst. rewrite indexOf_skip by done.
  destruct (indexOf s pat) as [i|]; simpl; [|done].
  rewrite !getSubstitution_plain by done.
  rewrite take_app_add, <- Nat.add_assoc, drop_app_add. by rewrite <- app_assoc.
Qed.

Lemma replaceFirst_here (s pat rep : jsstring) :
  DOLLAR ∉ rep → startsWith s pat = true →
  replaceFirst s pat rep = rep ++ drop (length pat) s.
Proof.
  intros Hd Hs. unfold replaceFirst.
  assert (indexOf s pat = Some 0%nat) as ->.
  { destruct s; simpl; by rewrite Hs. }
  simpl. by rewrite getSubstitution_plain.
Qed.

Lemma replaceFirst_absent (s pat rep : jsstring) :
  (∀ j, startsWith (drop j s) pat = false) → replaceFirst s pat rep = s.
Proof.
  intros Hno. unfold replaceFirst.
  destruct (indexOf s pat) as [i|] eqn:Hi; [|done].
  apply indexOf_Some in Hi. rewrite Hno in Hi. discriminate.
Qed.

(** Two attributes with quote-free values agree at their head exactly
    when the values are equal. *)
Lemma startsWith_value (v w rest : jsstring) :
  DQUOTE ∉ v → DQUOTE ∉ w →
  startsWith (v ++ DQUOTE :: rest) (w ++ [DQUOTE]) = true → v = w.
Proof.
  revert v. induction w as [|b w IH]; intros v Hv Hw.
  - destruct v as [|a v]; [done|]. cbn [startsWith app]. intros H.
    bool_to_prop. subst. exfalso. apply Hv. set_solver.
  - apply not_elem_of_cons in Hw as [Hb Hw].
    destruct v as [|a v]; cbn [startsWith app]; intros H; bool_to_prop.
    + congruence.
    + subst. f_equal. apply not_elem_of_cons in Hv as [_ Hv]. by apply IH.
Qed.

Lemma startsWith_attr (v w rest : jsstring) :
  DQUOTE ∉ v → DQUOTE ∉ w →
  startsWith (uriAttr v ++ rest) (uriAttr w) = true → v = w.
Proof.
  intros Hv Hw. rewrite uriAttr_unfold. unfold uriAttr.
  change (startsWith (URI_OPEN ++ v ++ DQUOTE :: rest) (URI_OPEN ++ w ++ [DQUOTE]))
    with (startsWith (v ++ DQUOTE :: rest) (w ++ [DQUOTE])).
  by apply startsWith_value.
Qed.

Lemma uriAttr_open (x w : jsstring) :
  startsWith x URI_OPEN = false → startsWith x (uriAttr w) = false.
Proof.
  intros Hx. apply not_true_iff_false. intros Hs.
  apply startsWith_app_pat in Hs. congruence.
Qed.

Lemma replaceValue_miss (w w' : jsstring) (parts : list (jsstring * jsstring)) :
  w ∉ parts.*2 → replaceValue w w' parts = parts.
Proof.
  induction parts as [|[t v] ps IH]; intros Hnot; [done|].
  rewrite fmap_cons in Hnot. apply not_elem_of_cons in Hnot as [Hv Hps].
  cbn [replaceValue snd]. rewrite decide_False by done. by rewrite IH.
Qed.

(** On a rendered line, replacing the first occurrence of an attribute
    replaces the value of the first attribute that has that value. *)
Lemma replaceFirst_render (parts : list (jsstring * jsstring)) (tail w w' : jsstring) :
  cleanParts parts → cleanText tail → DQUOTE ∉ w → DOLLAR ∉ uriAttr w' →
  replaceFirst (render parts tail) (uriAttr w) (uriAttr w') =
  render (replaceValue w w' parts) tail.
Proof.
  intros Hparts Htail Hw Hd.
  induction Hparts as [|[t v] ps [Ht Hv] _ IH].
  - cbn [render replaceValue]. apply replaceFirst_absent.
    intros j. apply uriAttr_open. by apply cleanText_drop.
  - cbn [render replaceValue fst snd] in *.
    rewrite replaceFirst_skip; [|done|].
    2:{ intros j Hj. apply uriAttr_open. rewrite uriAttr_unfold.
        by apply open_in_text. }
    f_equal. destruct (decide (v = w)) as [->|Hne].
    + rewrite replaceFirst_here; [|done|apply startsWith_app].
      by rewrite drop_app_length.
    + rewrite replaceFirst_skip; [by rewrite IH|done|].
      intros j Hj. destruct j as [|j].
      * apply not_true_iff_false. intros Hs. apply Hne.
        destruct Hv as (_ & Hq & _). by apply (startsWith_attr v w (render ps tail)).
      * apply uriAttr_open. apply open_in_attr; [done|lia].
Qed.

(** *** Proxied references *)

Lemma encodedChar_plain (c : N) :
  encodedChar c →
  c ≠ LF ∧ c ≠ CR ∧ c ≠ DQUOTE ∧ c ≠ DOLLAR ∧ c ≠ HASH ∧ c ≠ 61.
Proof. unfold encodedChar, LF, CR, DQUOTE, DOLLAR, HASH. lia. Qed.

Lemma Forall_encodedChar_not_in (enc : jsstring) (c : N) :
  Forall encodedChar enc → ¬ encodedChar c → c ∉ enc.
Proof.
  intros HF Hc Hin. rewrite Forall_forall in HF. by apply Hc, HF.
Qed.

Lemma not_encodedChar_specials :
  ¬ encodedChar LF ∧ ¬ encodedChar CR ∧ ¬ encodedChar DQUOTE ∧
  ¬ encodedChar DOLLAR ∧ ¬ encodedChar 61.
Proof. unfold encodedChar, LF, CR, DQUOTE, DOLLAR. lia. Qed.

Section Idempotence.
Context (P : Platform) (U : URL) (bp p : jsstring).

Local Abbreviation settled := (settled P U bp p).
Local Abbreviation targetPart := (targetPart P U bp p).

Lemma proxiedReference_form (v r : jsstring) :
  proxiedReference P U bp p v = Ret r →
  ∃ enc, r = p ++ js "?url=" ++ enc ∧ Forall encodedChar enc.
Proof.
  unfold proxiedReference.
  destruct (if startsWith v (js "http://") || startsWith v (js "https://")
            then Ret v
            else if startsWith v (js "//") then Ret (protocol U ++ v)
            else u ← new_URL P v (Some bp); Ret (href u)) as [absolute|e];
    simpl; [|discriminate].
  destruct (encodeURIComponent absolute) as [enc|e] eqn:Henc; simpl; [|discriminate].
  intros [= <-]. exists enc. split; [done|].
  by apply encodeURIComponent_encodedChar with absolute.
Qed.

Lemma proxied_startsWith (enc : jsstring) :
  startsWith (p ++ js "?url=" ++ enc) p = true.
Proof. apply startsWith_app. Qed.

Lemma proxied_no_char (enc : jsstring) (c : N) :
  c ∉ p → c ∉ js "?url=" → Forall encodedChar enc → ¬ encodedChar c →
  c ∉ p ++ js "?url=" ++ enc.
Proof.
  intros H1 H2 HF Hc. rewrite !not_elem_of_app. split; [done|]. split; [done|].
  by apply Forall_encodedChar_not_in.
Qed.

Lemma proxied_last (enc : jsstring) :
  Forall encodedChar enc →
  ∃ d, last (p ++ js "?url=" ++ enc) = Some d ∧ isWhiteSpace d = false ∧
       d ≠ CR ∧ (d = 61 ∨ encodedChar d).
Proof.
  intros HF. destruct (last enc) as [d|] eqn:Hd.
  - exists d. rewrite !last_app, Hd.
    assert (encodedChar d) as Hed.
    { rewrite Forall_forall in HF. apply HF.
      apply last_Some in Hd as [l' ->]. set_solver. }
    split; [done|]. split; [by apply encodedChar_not_space|].
    split; [by apply encodedChar_plain|by right].
  - apply last_None in Hd as ->. exists 61. rewrite app_nil_r, last_app.
    split; [reflexivity|]. split; [reflexivity|]. split; [done|by left].
Qed.

Lemma proxied_cleanValue (enc : jsstring) :
  plainProxyPath p → Forall encodedChar enc → cleanValue (p ++ js "?url=" ++ enc).
Proof.
  intros Hp HF. destruct Hp as (_ & Hq & _ & _).
  destruct not_encodedChar_specials as (_ & _ & HQ & _ & _).
  split; [|split].
  - intros Hnil. apply (f_equal length) in Hnil. rewrite !length_app in Hnil.
    simpl in Hnil. lia.
  - apply proxied_no_char; try done. unfold DQUOTE. set_solver.
  - apply not_true_iff_false. intros Hend.
    unfold endsWith in Hend. apply startsWith_prefix in Hend as [r Hr].
    destruct enc as [|c enc _] using rev_ind.
    + rewrite app_nil_r, rev_app_distr in Hr. vm_compute in Hr. simplify_eq.
    + rewrite !app_assoc, rev_app_distr in Hr. simpl in Hr.
      rewrite Forall_app, Forall_singleton in HF. destruct HF as [_ Hc].
      apply encodedChar_plain in Hc. vm_compute in Hr. simplify_eq. naive_solver.
Qed.

Lemma proxied_no_dollar (enc : jsstring) :
  plainProxyPath p → Forall encodedChar enc → DOLLAR ∉ uriAttr (p ++ js "?url=" ++ enc).
Proof.
  intros Hp HF. destruct Hp as (_ & _ & Hd & _).
  destruct not_encodedChar_specials as (_ & _ & _ & HD & _).
  unfold uriAttr. rewrite !not_elem_of_app.
  repeat split; try done; try (by apply Forall_encodedChar_not_in);
    vm_compute; set_solver.
Qed.

Lemma proxied_no_LF (enc : jsstring) :
  plainProxyPath p → Forall encodedChar enc → LF ∉ p ++ js "?url=" ++ enc.
Proof.
  intros Hp HF. destruct Hp as (Hl & _).
  destruct not_encodedChar_specials as (HL & _).
  apply proxied_no_char; try done. unfold LF. set_solver.
Qed.

Lemma target_settled (v : jsstring) : settled (target P U bp p v).
Proof.
  unfold target, settled. destruct (startsWith v p) eqn:Hv; [by left|].
  destruct (proxiedReference P U bp p v) as [r|e] eqn:Hr.
  - left. apply proxiedReference_form in Hr as (enc & -> & _).
    apply proxied_startsWith.
  - right. rewrite Hr. apply returns_Throw.
Qed.

Lemma target_clean (v : jsstring) :
  plainProxyPath p → cleanValue v → cleanValue (target P U bp p v).
Proof.
  intros Hp Hv. unfold target. destruct (startsWith v p); [done|].
  destruct (proxiedReference P U bp p v) as [r|e] eqn:Hr; [|done].
  apply proxiedReference_form in Hr as (enc & -> & HF).
  by apply proxied_cleanValue.
Qed.

Lemma target_no_LF (v : jsstring) :
  plainProxyPath p → LF ∉ v → LF ∉ target P U bp p v.
Proof.
  intros Hp Hv. unfold target. destruct (startsWith v p); [done|].
  destruct (proxiedReference P U bp p v) as [r|e] eqn:Hr; [|done].
  apply proxiedReference_form in Hr as (enc & -> & HF).
  by apply proxied_no_LF.
Qed.

Lemma settled_fixed (acc v : jsstring) :
  settled v → rewriteUriAttr P U bp p acc v = Ret acc.
Proof.
  intros [Hv|Hv]; [by apply rewriteUriAttr_proxied|by apply rewriteUriAttr_failed].
Qed.

Lemma settled_target (v : jsstring) : settled v → target P U bp p v = v.
Proof.
  intros [Hv|Hv]; unfold target; [by rewrite Hv|].
  destruct (startsWith v p); [done|].
  destruct (proxiedReference P U bp p v) as [r|e]; [|done].
  destruct Hv. apply returns_Ret.
Qed.

Lemma app_cons_middle {A} (l : list A) (x : A) (r : list A) :
  l ++ x :: r = (l ++ [x]) ++ r.
Proof. by rewrite <- app_assoc. Qed.

Lemma replaceValue_middle (done todo : list (jsstring * jsstring)) (t w w' : jsstring) :
  w ∉ done.*2 →
  replaceValue w w' (done ++ (t, w) :: todo) = done ++ (t, w') :: todo.
Proof.
  induction done as [|[t0 v0] done IH]; intros Hnot.
  - cbn [app replaceValue snd fst]. by rewrite decide_True.
  - rewrite fmap_cons in Hnot. apply not_elem_of_cons in Hnot as [Hv Hd].
    cbn [app replaceValue snd fst]. rewrite decide_False by done.
    by rewrite IH.
Qed.

(** The loop over the attributes of a rendered line replaces every value
    by its target, in place. *)
Lemma foldM_render (done todo : list (jsstring * jsstring)) (tail : jsstring) :
  plainProxyPath p → cleanParts (done ++ todo) → cleanText tail →
  Forall (λ tv, settled tv.2) done →
  foldM (rewriteUriAttr P U bp p) (render (done ++ todo) tail) (todo.*2) =
  Ret (render (done ++ (targetPart <$> todo)) tail).
Proof.
  intros Hp. revert done.
  induction todo as [|[t v] todo IH]; intros done Hclean Htail Hdone.
  - done.
  - rewrite !fmap_cons. cbn [foldM snd].
    assert (∀ v', cleanValue v' → settled v' →
              foldM (rewriteUriAttr P U bp p)
                    (render ((done ++ [(t, v')]) ++ todo) tail) (todo.*2) =
              Ret (render ((done ++ [(t, v')]) ++ (targetPart <$> todo)) tail))
      as Hnext.
    { intros v' Hv' Hs. apply IH; [|done|].
      - apply Forall_app in Hclean as [Hd Ht]. apply Forall_cons in Ht as [[Ht _] Ht'].
        apply Forall_app. split; [|done]. apply Forall_app. split; [done|].
        by apply Forall_singleton.
      - apply Forall_app. split; [done|]. by apply Forall_singleton. }
    assert (cleanValue v) as Hv.
    { apply Forall_app in Hclean as [_ Ht]. by apply Forall_cons in Ht as [[_ ?] _]. }
    unfold targetPart at 1. cbn [fst snd].
    destruct (startsWith v p) eqn:Hvp.
    + rewrite rewriteUriAttr_proxied by done. cbn [mbind outcome_bind].
      rewrite (settled_target v) by (by left).
      rewrite (app_cons_middle done (t, v) todo),
        (app_cons_middle done (t, v) (targetPart <$> todo)).
      apply Hnext; [done|by left].
    + destruct (proxiedReference P U bp p v) as [r|e] eqn:Hr.
      * assert (target P U bp p v = r) as -> by (unfold target; by rewrite Hvp, Hr).
        unfold rewriteUriAttr. rewrite Hvp, Hr. cbn [mbind outcome_bind try_catch].
        pose proof Hr as (enc & -> & HF)%proxiedReference_form.
        rewrite replaceFirst_render;
          [|done|done|by destruct Hv as (_ & ? & _)|by apply proxied_no_dollar].
        rewrite replaceValue_middle.
        -- rewrite (app_cons_middle done (t, p ++ js "?url=" ++ enc) todo),
             (app_cons_middle done (t, p ++ js "?url=" ++ enc) (targetPart <$> todo)).
           apply Hnext; [by apply proxied_cleanValue|].
           left. apply proxied_startsWith.
        -- intros Hin. apply list_elem_of_fmap in Hin as ([t0 v0] & Heq & Hin).
           simpl in Heq. subst v0. rewrite Forall_forall in Hdone.
           destruct (Hdone _ Hin) as [Hs|Hs]; simpl in Hs; [congruence|].
           apply Hs. rewrite Hr. apply returns_Ret.
      * rewrite rewriteUriAttr_failed by (rewrite Hr; apply returns_Throw).
        cbn [mbind outcome_bind].
        rewrite (settled_target v) by (right; rewrite Hr; apply returns_Throw).
        rewrite (app_cons_middle done (t, v) todo),
          (app_cons_middle done (t, v) (targetPart <$> todo)).
        apply Hnext; [done|].
        right. rewrite Hr. apply returns_Throw.
Qed.
End Idempotence.

(** *** Lines that begin with [#] *)

Lemma trim_hash_iff (s : jsstring) :
  startsWith (trim s) [HASH] = true ↔ ∃ r, trimStart s = HASH :: r.
Proof.
  destruct (trimStart s) as [|c r] eqn:Hs.
  - rewrite (trim_nil_of_trimStart s Hs). split; [discriminate|]. by intros [r Hr].
  - destruct (trim_head s c r Hs) as [r' ->]. cbn [startsWith].
    rewrite andb_true_r, N.eqb_eq. split; [intros ->; by exists r|].
    by intros [r0 [= -> _]].
Qed.

Lemma trimStart_app (t z : jsstring) :
  trimStart (t ++ z) =
  match trimStart t with
  | [] => trimStart z
  | _ => trimStart t ++ z
  end.
Proof.
  induction t as [|c t IH]; [done|]. cbn [app trimStart].
  destruct (isWhiteSpace c); [exact IH|done].
Qed.

(** Whether a line with an attribute begins with [#] is decided before
    the attribute. *)
Lemma trim_hash_before_attr (t x y : jsstring) :
  startsWith (trim (t ++ URI_OPEN ++ x)) [HASH] = true →
  startsWith (trim (t ++ URI_OPEN ++ y)) [HASH] = true.
Proof.
  rewrite !trim_hash_iff, !trimStart_app.
  destruct (trimStart t) as [|c r0].
  - intros [r Hr]. vm_compute in Hr. simplify_eq.
  - intros [r [= -> _]]. by eexists.
Qed.

Lemma render_fmap_hash (f : jsstring * jsstring → jsstring * jsstring)
    (parts : list (jsstring * jsstring)) (tail : jsstring) :
  (∀ tv, (f tv).1 = tv.1) →
  startsWith (trim (render parts tail)) [HASH] = true →
  startsWith (trim (render (f <$> parts) tail)) [HASH] = true.
Proof.
  intros Hf. destruct parts as [|tv ps]; [done|].
  rewrite fmap_cons. cbn [render]. rewrite Hf, !uriAttr_unfold.
  apply trim_hash_before_attr.
Qed.

(** *** Line feeds and the last character *)

Lemma uriAttr_no_LF (v : jsstring) : LF ∉ uriAttr v ↔ LF ∉ v.
Proof.
  unfold uriAttr. rewrite !not_elem_of_app. split; [by intros (_ & ? & _)|].
  intros Hv. split; [vm_compute; set_solver|]. split; [done|].
  vm_compute; set_solver.
Qed.

Lemma render_fmap_no_LF (f : jsstring * jsstring → jsstring * jsstring)
    (parts : list (jsstring * jsstring)) (tail : jsstring) :
  (∀ tv, (f tv).1 = tv.1) →
  (∀ tv, LF ∉ tv.2 → LF ∉ (f tv).2) →
  LF ∉ render parts tail → LF ∉ render (f <$> parts) tail.
Proof.
  intros Hf1 Hf2. induction parts as [|tv ps IH]; [done|].
  rewrite fmap_cons. cbn [render]. rewrite !not_elem_of_app, !uriAttr_no_LF, Hf1.
  intros (Ht & Hv & Hr). split; [done|]. split; [by apply Hf2|by apply IH].
Qed.

Lemma last_render (parts : list (jsstring * jsstring)) (tail : jsstring) :
  last (render parts tail) =
  match last tail with
  | Some d => Some d
  | None => match parts with [] => None | _ => Some DQUOTE end
  end.
Proof.
  induction parts as [|tv ps IH].
  - cbn [render]. by destruct (last tail).
  - cbn [render]. rewrite !last_app, IH. unfold uriAttr.
    rewrite app_assoc, last_snoc.
    destruct (last tail); [done|]. by destruct ps.
Qed.

Lemma render_fmap_last (f : jsstring * jsstring → jsstring * jsstring)
    (parts : list (jsstring * jsstring)) (tail : jsstring) :
  last (render (f <$> parts) tail) = last (render parts tail).
Proof. rewrite !last_render. by destruct parts. Qed.

(** A string whose first and last characters are not white space is its
    own trim. *)
Lemma trim_fixed (s : jsstring) :
  match s with c :: _ => isWhiteSpace c = false | [] => True end →
  match last s with Some d => isWhiteSpace d = false | None => True end →
  trim s = s.
Proof.
  intros Hhead Hlast. destruct s as [|c s]; [done|].
  unfold trim. rewrite trimStart_head by done.
  destruct (last (c :: s)) as [d|] eqn:Hd.
  - apply last_Some in Hd as [l' ->]. by apply trimEnd_last.
  - by apply last_None in Hd.
Qed.

Section LineIdempotence.
Context (P : Platform) (U : URL) (bp p : jsstring).

Lemma targetPart_fst (tv : jsstring * jsstring) : (targetPart P U bp p tv).1 = tv.1.
Proof. done. Qed.

Lemma cleanParts_target (parts : list (jsstring * jsstring)) :
  plainProxyPath p → cleanParts parts → cleanParts (targetPart P U bp p <$> parts).
Proof.
  intros Hp Hc. unfold cleanParts in *. rewrite Forall_fmap.
  eapply Forall_impl; [exact Hc|]. intros [t v] [Ht Hv]. split; [done|].
  by apply target_clean.
Qed.

(** What [processLine] makes of a directive line with well-formed
    attributes. *)
Lemma processLine_render (parts : list (jsstring * jsstring)) (tail : jsstring) :
  plainProxyPath p → cleanParts parts → cleanText tail →
  startsWith (trim (render parts tail)) [HASH] = true →
  processLine P U bp p (render parts tail) =
  Ret (render (targetPart P U bp p <$> parts) tail).
Proof.
  intros Hp Hparts Htail Hhash. unfold processLine. rewrite Hhash.
  destruct (includes (render parts tail) URI_OPEN) eqn:Hinc.
  - rewrite uriMatches_render by done.
    apply (foldM_render P U bp p [] parts tail); [done|done|done|constructor].
  - destruct parts as [|[t v] ps]; [done|]. exfalso.
    apply not_true_iff_false in Hinc. apply Hinc, includes_true.
    exists (length t). cbn [render fst snd]. rewrite drop_app_length.
    rewrite uriAttr_unfold. apply startsWith_app.
Qed.

(** A second pass leaves the output of a directive line alone. *)
Lemma processLine_directive_idem (line o : jsstring) :
  plainProxyPath p → attributeLine line →
  startsWith (trim line) [HASH] = true →
  processLine P U bp p line = Ret o →
  processLine P U bp p o = Ret o ∧
  (LF ∉ line → LF ∉ o) ∧ last o = last line.
Proof.
  intros Hp (parts & tail & -> & Hparts & Htail) Hhash Ho.
  rewrite processLine_render in Ho by done. injection Ho as <-.
  split; [|split].
  - apply processLine_directive_fixed.
    + apply render_fmap_hash; [apply targetPart_fst|done].
    + rewrite uriMatches_render; [|by apply cleanParts_target|done].
      rewrite <- list_fmap_compose. apply Forall_fmap, Forall_forall.
      intros [t v] _. simpl. apply target_settled.
  - apply render_fmap_no_LF; [apply targetPart_fst|].
    intros [t v]. simpl. by apply target_no_LF.
  - apply render_fmap_last.
Qed.

(** A second pass leaves the output of a reference line alone. *)
Lemma processLine_reference_idem (line o : jsstring) :
  plainProxyPath p →
  startsWith (trim line) [HASH] = false →
  processLine P U bp p line = Ret o →
  processLine P U bp p o = Ret o ∧
  (LF ∉ line → LF ∉ o) ∧ (last line ≠ Some CR → last o ≠ Some CR).
Proof.
  intros Hp Hhash Ho. pose proof Ho as Ho'. unfold processLine in Ho.
  rewrite Hhash in Ho.
  case_bool_decide as Hlen; [|by injection Ho as <-].
  destruct (startsWith (trim line) p) eqn:Hpre; [by injection Ho as <-|].
  destruct (proxiedReference P U bp p (trim line)) as [r|e] eqn:Hr;
    simpl in Ho; injection Ho as <-; [|done].
  apply proxiedReference_form in Hr as (enc & -> & HF).
  destruct (proxied_last p enc HF) as (d & Hd & Hws & Hcr & _).
  assert (match p ++ js "?url=" ++ enc with
          | c :: _ => isWhiteSpace c = false ∧ c ≠ HASH
          | [] => True
          end) as Hhead.
  { destruct Hp as (_ & _ & _ & Hh). destruct p as [|c p']; [|exact Hh].
    split; [reflexivity|done]. }
  assert (trim (p ++ js "?url=" ++ enc) = p ++ js "?url=" ++ enc) as Htrim.
  { apply trim_fixed; [|by rewrite Hd].
    destruct (p ++ js "?url=" ++ enc); [done|]. by destruct Hhead. }
  split; [|split].
  - apply processLine_proxied_reference; rewrite Htrim.
    + destruct (p ++ js "?url=" ++ enc) as [|c r']; [done|].
      destruct Hhead as [_ Hc]. by apply startsWith_cons_head.
    + apply startsWith_app.
  - intros _. by apply proxied_no_LF.
  - intros _. rewrite Hd. congruence.
Qed.

Lemma processLine_idem (line o : jsstring) :
  plainProxyPath p →
  (startsWith (trim line) [HASH] = true → attributeLine line) →
  processLine P U bp p line = Ret o →
  processLine P U bp p o = Ret o ∧
  (LF ∉ line → LF ∉ o) ∧ (last line ≠ Some CR → last o ≠ Some CR).
Proof.
  intros Hp Hattr Ho. destruct (startsWith (trim line) [HASH]) eqn:Hhash.
  - destruct (processLine_directive_idem line o Hp (Hattr eq_refl) Hhash Ho)
      as (H1 & H2 & H3).
    split; [done|]. split; [done|]. by rewrite H3.
  - by apply processLine_reference_idem.
Qed.
End LineIdempotence.

(** *** The whole document *)

Lemma Forall2_same {A} (R : A → A → Prop) (l : list A) :
  Forall (λ x, R x x) l → Forall2 R l l.
Proof. induction 1; by constructor. Qed.

Lemma processM3u8_idem (P : Platform) (t u p : jsstring) :
  plainProxyPath p →
  Forall (λ line, last line ≠ Some CR ∧
                  (startsWith (trim line) [HASH] = true → attributeLine line))
         (splitLines t) →
  (once ← processM3u8 P t u p; processM3u8 P once u p) = processM3u8 P t u p.
Proof.
  intros Hp Hlines.
  destruct (new_URL P u None) as [U|e] eqn:HU.
  2:{ rewrite (processM3u8_bad_base P t u p e HU). simpl.
      by apply processM3u8_bad_base with e. }
  destruct (processM3u8_lines P t u p U HU) as (out & -> & HF). simpl.
  assert (Forall (λ o, processLine P U (basePathOf u) p o = Ret o ∧
                       (LF ∉ o) ∧ last o ≠ Some CR) out) as Hout.
  { pose proof (splitLines_lines_no_LF t) as HLF.
    induction HF as [|line o ls os Ho _ IH]; [constructor|].
    apply Forall_cons in Hlines as [[Hcr Hattr] Hlines].
    apply Forall_cons in HLF as [Hlf HLF].
    constructor; [|by apply IH].
    destruct (processLine_idem P U (basePathOf u) p line o Hp Hattr Ho)
      as (H1 & H2 & H3).
    split; [done|]. split; [by apply H2|by apply H3]. }
  apply (processM3u8_ok P (joinLines out) u p U out HU).
  rewrite splitLines_joinLines.
  - apply Forall2_same. eapply Forall_impl; [exact Hout|]. by intros o (? & _).
  - intros ->. apply Forall2_nil_inv_r in HF. by apply splitLines_nonempty in HF.
  - eapply Forall_impl; [exact Hout|]. by intros o (_ & ? & ?).
Qed.

(** C7 (as stated) fails on a playlist whose first line ends in CR CR LF.
    The split takes CR LF as the line end and leaves the other CR on the
    line; the directive line is kept as it is and joined to the next with
    LF; a second pass then reads that CR LF as the line end, and its
    output has lost the CR. *)
Lemma C7_counterexample_carriage_return :
  let P := Reference.platform Reference.unreachable in
  let t := js "#EXTM3U" ++ [CR; CR; LF] ++ js "segment001.ts" in
  let proxied :=
    js "/proxy?url=https%3A%2F%2Fcdn.example.com%2Fvideos%2Fshow%2Fsegment001.ts" in
  processM3u8 P t sourceUrl (js "/proxy") =
    Ret (js "#EXTM3U" ++ [CR; LF] ++ proxied) ∧
  processM3u8 P (js "#EXTM3U" ++ [CR; LF] ++ proxied) sourceUrl (js "/proxy") =
    Ret (js "#EXTM3U" ++ [LF] ++ proxied) ∧
  (once ← processM3u8 P t sourceUrl (js "/proxy");
   processM3u8 P once sourceUrl (js "/proxy")) ≠
  processM3u8 P t sourceUrl (js "/proxy").
Proof.
  intros P t proxied. split; [vm_compute; reflexivity|].
  split; [vm_compute; reflexivity|]. vm_compute. discriminate.
Qed.

(** Idempotence also fails on a directive whose first attribute value
    ends in [URI=]: with the closing quote it reads as the opening of an
    attribute, and the replacement for the second attribute lands
    there. *)
Lemma idempotence_needs_clean_attributes :
  let P := Reference.platform Reference.unreachable in
  let t := js "#URI=" ++ [DQUOTE] ++ js "/proxyURI=" ++ [DQUOTE] ++ js "b" ++
           [DQUOTE] ++ js ",URI=" ++ [DQUOTE] ++ js "b" ++ [DQUOTE] in
  (once ← processM3u8 P t sourceUrl (js "/proxy");
   processM3u8 P once sourceUrl (js "/proxy")) ≠
  processM3u8 P t sourceUrl (js "/proxy").
Proof. intros P t. vm_compute. discriminate. Qed.

(** And on a proxy path that itself reads as a directive with an
    attribute. *)
Lemma idempotence_needs_plain_proxy_path :
  let P := Reference.platform Reference.unreachable in
  let p := js "#URI=" ++ [DQUOTE] ++ js "x" ++ [DQUOTE] in
  (once ← processM3u8 P (js "a.ts") sourceUrl p;
   processM3u8 P once sourceUrl p) ≠
  processM3u8 P (js "a.ts") sourceUrl p.
Proof. intros P p. vm_compute. discriminate. Qed.

(** C7 (amended).  The rewrite is idempotent, for a fixed source URL and
    proxy path, on every playlist in which no line ends in a carriage
    return and every [URI=Q] of a directive line opens a well-formed
    attribute (a non-empty value without a double quote, closed by one,
    and not ending in [URI=]), provided the proxy path contains no line
    feed, double quote or dollar sign and does not begin with white space
    or [#].  Whatever the playlist and the proxy path, a reference line
    whose trimmed text begins with the proxy path, and an attribute value
    that begins with it, are left unchanged by a pass. *)
Theorem C7_idempotent_rewrite (P : Platform) (t u p : jsstring) :
  plainProxyPath p →
  Forall (λ line, last line ≠ Some CR ∧
                  (startsWith (trim line) [HASH] = true → attributeLine line))
         (splitLines t) →
  (once ← processM3u8 P t u p; processM3u8 P once u p) = processM3u8 P t u p ∧
  (∀ U bp q line,
     startsWith (trim line) [HASH] = false → startsWith (trim line) q = true →
     processLine P U bp q line = Ret line) ∧
  (∀ U bp q acc v,
     startsWith v q = true → rewriteUriAttr P U bp q acc v = Ret acc).
Proof.
  intros Hp Hlines. split; [by apply processM3u8_idem|].
  split; [intros U bp q line; apply processLine_proxied_reference|].
  intros U bp q acc v. apply rewriteUriAttr_proxied.
Qed.

Lemma not_elem_of_check (c : N) (l : jsstring) :
  forallb (λ x, negb (x =? c)) l = true → c ∉ l.
Proof.
  induction l as [|a l IH]; cbn [forallb]; intros H; [set_solver|].
  bool_to_prop. apply not_elem_of_cons. split; [done|by apply IH].
Qed.

Lemma plainProxyPath_proxy : plainProxyPath (js "/proxy").
Proof.
  unfold plainProxyPath. split; [|split; [|split; [|split]]].
  - apply not_elem_of_check. vm_compute. reflexivity.
  - apply not_elem_of_check. vm_compute. reflexivity.
  - apply not_elem_of_check. vm_compute. reflexivity.
  - reflexivity.
  - discriminate.
Qed.

(** The sample playlist under [/proxy] on the reference platform. *)
Lemma C7_idempotent_rewrite_witness :
  let P := Reference.platform Reference.unreachable in
  (once ← processM3u8 P samplePlaylist sourceUrl (js "/proxy");
   processM3u8 P once sourceUrl (js "/proxy")) =
  processM3u8 P samplePlaylist sourceUrl (js "/proxy").
Proof.
  intros P.
  destruct (C7_idempotent_rewrite P samplePlaylist sourceUrl (js "/proxy")
              plainProxyPath_proxy) as [Hidem _]; [|exact Hidem].
  replace (splitLines samplePlaylist)
    with [js "#EXTM3U"; keyLine (js "key.bin"); js "#EXTINF:4.0,";
          js "segment001.ts"; []] by (vm_compute; reflexivity).
  repeat (apply Forall_cons_2; [split; [vm_compute; discriminate|]|]);
    [| | | | |apply Forall_nil_2].
  - intros _. exists [], (js "#EXTM3U"). split; [done|].
    split; [constructor|vm_compute; reflexivity].
  - intros _. exists [(js "#EXT-X-KEY:METHOD=AES-128,", js "key.bin")], [].
    split; [vm_compute; reflexivity|]. split; [|vm_compute; reflexivity].
    apply Forall_cons. split; [|constructor].
    split; [vm_compute; reflexivity|].
    split; [discriminate|].
    split; [apply not_elem_of_check; vm_compute; reflexivity|vm_compute; reflexivity].
  - intros _. exists [], (js "#EXTINF:4.0,"). split; [done|].
    split; [constructor|vm_compute; reflexivity].
  - intros Hh. vm_compute in Hh. discriminate.
  - intros Hh. vm_compute in Hh. discriminate.
Defined.

(** ** The fetch pipeline *)

Section Pipeline.
Context (P : Platform) (config : Config).

Lemma decompressContent_returns b enc : returns (decompressContent P b enc).
Proof.
  unfold decompressContent. destruct enc as [enc|]; [|apply returns_Ret].
  destruct (truthy enc); simpl; [|apply returns_Ret].
  apply try_catch_returns. intros _. apply returns_Ret.
Qed.

(** What comes out is the input or what one of the decoders returned. *)
Lemma decompressContent_result b enc d :
  decompressContent P b enc = Ret d →
  d = b ∨ ∃ f, f ∈ codecs P ∧ f b = Ret d.
Proof.
  unfold decompressContent, codecs. destruct enc as [enc|]; [|intros [= <-]; by left].
  destruct (truthy enc); simpl; [|intros [= <-]; by left].
  repeat case_bool_decide; simpl;
    match goal with
    | |- try_catch (?f P b) _ = _ → _ =>
        destruct (f P b) as [d'|e] eqn:Hf; simpl; intros [= <-];
        [right; exists (f P); split; [set_solver|done] | by left]
    | |- _ => intros [= <-]; by left
    end.
Qed.

(** When every decoder fails on the bytes, the bytes come back. *)
Lemma decompressContent_failure b enc :
  (∀ f, f ∈ codecs P → ¬ returns (f b)) →
  decompressContent P b enc = Ret b.
Proof.
  intros Hfail. destruct (decompressContent_returns b enc) as [d Hd].
  rewrite Hd. destruct (decompressContent_result b enc d Hd) as [->|(f & Hf & Hfd)];
    [done|].
  destruct (Hfail f Hf). by exists d.
Qed.

Lemma decompressStage_returns result : returns (decompressStage P result).
Proof.
  unfold decompressStage.
  destruct (pr_headers result !! js "content-encoding") as [enc|];
    [|apply returns_Ret].
  destruct (pr_content result) as [s|b]; [apply returns_Ret|].
  destruct (truthy enc); [|apply returns_Ret].
  apply try_catch_returns. intros _. apply returns_Ret.
Qed.

(** Text is never decompressed; bytes are, when a non-empty
    content-encoding is present. *)
Lemma decompressStage_result result c :
  decompressStage P result = Ret c →
  match pr_content result with
  | Text s => c = Text s
  | Buf b =>
      match pr_headers result !! js "content-encoding" with
      | Some enc =>
          if truthy enc
          then ∃ d, decompressContent P b (Some enc) = Ret d ∧ c = Buf d
          else c = Buf b
      | None => c = Buf b
      end
  end.
Proof.
  unfold decompressStage.
  destruct (pr_headers result !! js "content-encoding") as [enc|];
    destruct (pr_content result) as [s|b]; try (intros [= <-]; done).
  destruct (truthy enc); [|intros [= <-]; done].
  destruct (decompressContent_returns b (Some enc)) as [d Hd].
  rewrite Hd. simpl. intros [= <-]. by exists d.
Qed.

Lemma decompressStage_failure result b :
  pr_content result = Buf b →
  (∀ f, f ∈ codecs P → ¬ returns (f b)) →
  decompressStage P result = Ret (Buf b).
Proof.
  intros Hc Hfail. unfold decompressStage. rewrite Hc.
  destruct (pr_headers result !! js "content-encoding") as [enc|]; [|done].
  destruct (truthy enc); [|done].
  by rewrite (decompressContent_failure b (Some enc) Hfail).
Qed.

Lemma dropContentEncoding_lookup h :
  dropContentEncoding h !! js "content-encoding" = None ∨
  dropContentEncoding h !! js "content-encoding" = Some [].
Proof.
  unfold dropContentEncoding.
  destruct (h !! js "content-encoding") as [v|] eqn:Hv; [|by left].
  destruct v as [|c v]; simpl; [by right|]. left. apply lookup_delete_eq.
Qed.

Lemma dropContentEncoding_other h k :
  k ≠ js "content-encoding" → dropContentEncoding h !! k = h !! k.
Proof.
  intros Hk. unfold dropContentEncoding.
  destruct (h !! js "content-encoding") as [v|]; [|done].
  destruct (truthy v); [|done]. by apply lookup_delete_ne.
Qed.

(** The two ways [fetchAndProcess] ends once the fetch has succeeded. *)
Lemma fetchAndProcess_result targetUrl result content :
  proxyUrl P targetUrl (requestTimeout config) = Ret result →
  decompressStage P result = Ret content →
  let contentType :=
    getStreamingContentType P targetUrl (Some (contentBuffer content))
      (Some (pr_contentType result)) in
  let looksLikePlaylist :=
    isM3u8Url P targetUrl || isM3u8ContentType contentType in
  fetchAndProcess P config targetUrl =
  if looksLikePlaylist && isActuallyM3u8 P content then
    rewritten ← processM3u8 P
                  (match content with Text s => s | Buf b => Buffer_toString P b end)
                  targetUrl (js "/proxy");
    Ret {| out_content := Text rewritten; out_contentType := MPEGURL;
           out_headers := pr_headers result |}
  else
    Ret {| out_content := content; out_contentType := contentType;
           out_headers := pr_headers result |}.
Proof.
  intros Hfetch Hdec. unfold fetchAndProcess. rewrite Hfetch. simpl.
  rewrite Hdec. simpl. done.
Qed.

Lemma fetchAndProcess_fetch_failed targetUrl e :
  proxyUrl P targetUrl (requestTimeout config) = Throw e →
  fetchAndProcess P config targetUrl = Throw e.
Proof. intros Hfetch. unfold fetchAndProcess. by rewrite Hfetch. Qed.

(** The pipeline fails only if the fetch does. *)
Lemma fetchAndProcess_returns targetUrl result :
  proxyUrl P targetUrl (requestTimeout config) = Ret result →
  returns (fetchAndProcess P config targetUrl).
Proof.
  intros Hfetch. destruct (decompressStage_returns result) as [content Hdec].
  rewrite (fetchAndProcess_result targetUrl result content Hfetch Hdec).
  destruct (_ && _); [|apply returns_Ret].
  destruct (processM3u8_returns P
              (match content with Text s => s | Buf b => Buffer_toString P b end)
              targetUrl (js "/proxy")) as [r ->].
  simpl. apply returns_Ret.
Qed.

Lemma fetchAndProcess_headers targetUrl r :
  fetchAndProcess P config targetUrl = Ret r →
  ∃ result, proxyUrl P targetUrl (requestTimeout config) = Ret result ∧
            out_headers r = pr_headers result.
Proof.
  intros Hr.
  destruct (proxyUrl P targetUrl (requestTimeout config)) as [result|e] eqn:Hfetch.
  - exists result. split; [done|].
    destruct (decompressStage_returns result) as [content Hdec].
    rewrite (fetchAndProcess_result targetUrl result content Hfetch Hdec) in Hr.
    destruct (_ && _).
    + destruct (processM3u8 P _ targetUrl (js "/proxy")) as [rw|]; simpl in Hr;
        [|discriminate]. by injection Hr as <-.
    + by injection Hr as <-.
  - rewrite (fetchAndProcess_fetch_failed targetUrl e Hfetch) in Hr. discriminate.
Qed.

(** The request handler, case by case. *)
Lemma handler_cases query now_get now_set c :
  let run := handler P config query now_get now_set c in
  (status (response run) = 400%Z ∧ cacheAfter run = c ∧ resultHeaders run = None) ∨
  ∃ targetUrl,
    query = Some targetUrl ∧ truthy targetUrl = true ∧
    returns (new_URL P targetUrl None) ∧
    ((∃ v type,
        cache_get c targetUrl now_get = (Some (v, type), c) ∧
        run = {| response :=
                   {| status := 200;
                      responseHeaders := [(js "Content-Type", type);
                                          (js "X-Cache", js "HIT")];
                      body := BodyContent v |};
                 cacheAfter := c; resultHeaders := None |}) ∨
     (∃ c1,
        cache_get c targetUrl now_get = (None, c1) ∧
        match fetchAndProcess P config targetUrl with
        | Throw error =>
            run = {| response := json 500 [(js "error", error_message error);
                                           (js "url", targetUrl)];
                     cacheAfter := c1; resultHeaders := None |}
        | Ret r =>
            run = {| response :=
                       {| status := 200;
                          responseHeaders :=
                            [(js "Content-Type", out_contentType r);
                             (js "X-Cache", js "MISS");
                             (js "Content-Length",
                              numberToString (contentLength (out_content r)))];
                          body := BodyContent (out_content r) |};
                     cacheAfter := cache_set c1 targetUrl (out_content r)
                                     (out_contentType r) (cacheTtl config) now_set;
                     resultHeaders := Some (dropContentEncoding (out_headers r)) |}
        end)).
Proof.
  intros run. subst run. unfold handler.
  destruct query as [targetUrl|]; [|by left].
  destruct (truthy targetUrl) eqn:Ht; simpl; [|by left].
  destruct (new_URL P targetUrl None) as [U|e] eqn:HU; [|by left].
  right. exists targetUrl. split; [done|]. split; [done|].
  split; [by exists U|].
  destruct (cache_get c targetUrl now_get) as [cached c1] eqn:Hget.
  destruct cached as [[v type]|].
  - left. exists v, type.
    pose proof (cache_get_sound _ _ _ _ _ Hget) as (en & _ & _ & _ & _ & ->).
    done.
  - right. exists c1. split; [done|].
    by destruct (fetchAndProcess P config targetUrl).
Qed.
End Pipeline.

Lemma proxyUrl_Ret_url (P : Platform) targetUrl timeout result :
  proxyUrl P targetUrl timeout = Ret result → returns (new_URL P targetUrl None).
Proof.
  unfold proxyUrl. destruct (new_URL P targetUrl None) as [U|e]; [intros _; by exists U|].
  simpl. by case_bool_decide.
Qed.

(** *** Content encoding *)

(** C3 (as stated) fails: the origin labels a body that is not gzip as
    gzip, decompression fails and the original byte is passed on, yet the
    content-encoding entry is gone from the result's headers when the
    handler returns. *)
Lemma C3_counterexample_header_dropped :
  let P := Reference.platform mislabelledOrigin in
  let url := js "https://cdn.example.com/videos/show/seg1.ts" in
  let run := handler P testConfig (Some url) 0 0 SimpleCache_new in
  (∃ result, proxyUrl P url 30000 = Ret result ∧
             pr_headers result !! js "content-encoding" = Some (js "gzip") ∧
             pr_content result = Buf [Byte.x00]) ∧
  ¬ returns (gunzipSync P [Byte.x00]) ∧
  status (response run) = 200%Z ∧
  body (response run) = BodyContent (Buf [Byte.x00]) ∧
  ∃ h, resultHeaders run = Some h ∧ h !! js "content-encoding" = None.
Proof.
  intros P url run. split; [|split; [|split; [|split]]].
  - destruct (proxyUrl P url 30000) as [result|] eqn:Hr;
      [|vm_compute in Hr; discriminate].
    exists result. split; [done|].
    vm_compute in Hr. injection Hr as <-. split; vm_compute; reflexivity.
  - intros [d Hd]. vm_compute in Hd. discriminate.
  - vm_compute. reflexivity.
  - vm_compute. reflexivity.
  - destruct (resultHeaders run) as [h|] eqn:Hh; [|vm_compute in Hh; discriminate].
    exists h. split; [done|]. vm_compute in Hh. injection Hh as <-.
    vm_compute. reflexivity.
Qed.

(** C3 (amended).  Decompression never fails the request.  For a
    non-empty content-encoding, [decompressContent] picks the decoder by
    the lower-cased name -- [gunzipSync] for gzip, [inflateSync] for
    deflate, [brotliDecompressSync] for br, the zstd decoder for zstd and
    zst -- and returns what that decoder returns, or the bytes it was
    given when that decoder throws; for any other name, an empty name or
    no name it returns the bytes it was given.  On a binary body with a
    non-empty content-encoding the pipeline goes on with what
    [decompressContent] returned; a string body, or a body without
    content-encoding, goes on as it is.  Whether or not decoding failed,
    a non-empty content-encoding entry is deleted from the fetched
    result's headers before the handler returns, every other header of
    the result being kept.  The route callback itself sets no header
    other than Content-Type, X-Cache and Content-Length: it never copies
    a header of the fetched result into the response (what the CORS
    middleware adds afterwards is outside this statement). *)
Theorem C3_content_encoding (P : Platform) (config : Config) :
  (∀ b enc name f,
     (name, f) ∈ [(js "gzip", gunzipSync P); (js "deflate", inflateSync P);
                  (js "br", brotliDecompressSync P);
                  (js "zstd", zstd_decompress P); (js "zst", zstd_decompress P)] →
     truthy enc = true → toLowerCase P enc = name →
     decompressContent P b (Some enc) =
       match f b with Ret d => Ret d | Throw _ => Ret b end) ∧
  (∀ b enc,
     toLowerCase P enc ∉ [js "gzip"; js "deflate"; js "br"; js "zstd"; js "zst"] →
     decompressContent P b (Some enc) = Ret b) ∧
  (∀ b, decompressContent P b None = Ret b ∧ decompressContent P b (Some []) = Ret b) ∧
  (∀ result b enc,
     pr_content result = Buf b →
     pr_headers result !! js "content-encoding" = Some enc →
     truthy enc = true →
     ∃ d, decompressContent P b (Some enc) = Ret d ∧
          decompressStage P result = Ret (Buf d)) ∧
  (∀ result,
     (∃ s, pr_content result = Text s) ∨
     pr_headers result !! js "content-encoding" = None ∨
     pr_headers result !! js "content-encoding" = Some [] →
     decompressStage P result = Ret (pr_content result)) ∧
  (∀ b enc, ∃ d, decompressContent P b enc = Ret d ∧
                 (d = b ∨ ∃ f, f ∈ codecs P ∧ f b = Ret d)) ∧
  (∀ b enc d,
     truthy enc = true → toLowerCase P enc = js "gzip" →
     gunzipSync P b = Ret d → decompressContent P b (Some enc) = Ret d) ∧
  (∀ result b,
     pr_content result = Buf b →
     (∀ f, f ∈ codecs P → ¬ returns (f b)) →
     decompressStage P result = Ret (Buf b)) ∧
  (∀ result b enc d,
     pr_content result = Buf b →
     pr_headers result !! js "content-encoding" = Some enc →
     truthy enc = true →
     decompressContent P b (Some enc) = Ret d →
     decompressStage P result = Ret (Buf d)) ∧
  (∀ query now_get now_set c h,
     resultHeaders (handler P config query now_get now_set c) = Some h →
     (h !! js "content-encoding" = None ∨ h !! js "content-encoding" = Some []) ∧
     ∃ url result,
       query = Some url ∧
       proxyUrl P url (requestTimeout config) = Ret result ∧
       h = dropContentEncoding (pr_headers result) ∧
       ∀ k, k ≠ js "content-encoding" → h !! k = pr_headers result !! k) ∧
  (∀ query now_get now_set c k v,
     (k, v) ∈ responseHeaders (response (handler P config query now_get now_set c)) →
     k ∈ RESPONSE_HEADER_NAMES).
Proof.
  assert (∀ result b enc d,
            pr_content result = Buf b →
            pr_headers result !! js "content-encoding" = Some enc →
            truthy enc = true →
            decompressContent P b (Some enc) = Ret d →
            decompressStage P result = Ret (Buf d)) as Hstage.
  { intros result b enc d Hc Henc Ht Hd. unfold decompressStage.
    by rewrite Henc, Hc, Ht, Hd. }
  split.
  { intros b enc name f Hin Ht Hname. unfold decompressContent.
    rewrite Ht, Hname. cbn [negb].
    repeat (apply elem_of_cons in Hin as [Heq|Hin];
            [injection Heq as -> ->;
             rewrite ?bool_decide_eq_false_2 by discriminate;
             rewrite ?bool_decide_eq_true_2 by reflexivity;
             cbn [orb];
             match goal with |- context [try_catch ?m _] => by destruct m end|]).
    by apply elem_of_nil in Hin. }
  split.
  { intros b enc Hn. unfold decompressContent.
    destruct (truthy enc); cbn [negb]; [|done].
    rewrite !not_elem_of_cons in Hn. destruct Hn as (? & ? & ? & ? & ? & _).
    by rewrite !bool_decide_eq_false_2 by done. }
  split; [done|].
  split.
  { intros result b enc Hc Henc Ht.
    destruct (decompressContent_returns P b (Some enc)) as [d Hd].
    exists d. split; [done|]. exact (Hstage result b enc d Hc Henc Ht Hd). }
  split.
  { intros result. unfold decompressStage.
    intros [[s ->]|[-> | ->]]; [by destruct (_ !! _)| |];
      by destruct (pr_content result). }
  split.
  { intros b enc. destruct (decompressContent_returns P b enc) as [d Hd].
    exists d. split; [done|]. by apply decompressContent_result with enc. }
  split.
  { intros b enc d Ht Hgz Hd. unfold decompressContent.
    rewrite Ht, Hgz. cbn [negb]. rewrite bool_decide_eq_true_2 by done.
    by rewrite Hd. }
  split; [intros result b; apply decompressStage_failure|].
  split; [exact Hstage|].
  split.
  - intros query now_get now_set c h Hh.
    destruct (handler_cases P config query now_get now_set c)
      as [(_ & _ & Hnone)|(url & -> & _ & _ & [(v & type & _ & Hrun)|(c1 & _ & Hrun)])].
    + rewrite Hnone in Hh. discriminate.
    + rewrite Hrun in Hh. discriminate.
    + destruct (fetchAndProcess P config url) as [r|e] eqn:Hr;
        rewrite Hrun in Hh; simpl in Hh; [|discriminate].
      injection Hh as <-. split; [apply dropContentEncoding_lookup|].
      destruct (fetchAndProcess_headers P config url r Hr) as (result & Hfetch & Hhd).
      exists url, result. rewrite Hhd. split; [done|]. split; [done|].
      split; [done|]. intros k Hk. by apply dropContentEncoding_other.
  - intros query now_get now_set c k v Hin.
    destruct (handler_cases P config query now_get now_set c)
      as [Hbad|(url & -> & _ & _ & [(v' & type & _ & Hrun)|(c1 & _ & Hrun)])].
    + exfalso. revert Hin Hbad. unfold handler.
      destruct query as [url|]; [|simpl; by intros ?%elem_of_nil].
      destruct (truthy url); simpl; [|by intros ?%elem_of_nil].
      destruct (new_URL P url None); [|simpl; by intros ?%elem_of_nil].
      destruct (cache_get c url now_get) as [[[? ?]|] ?];
        [simpl; intros _ (? & _); discriminate|].
      destruct (fetchAndProcess P config url); simpl;
        [intros _ (? & _); discriminate|by intros ?%elem_of_nil].
    + rewrite Hrun in Hin. simpl in Hin. unfold RESPONSE_HEADER_NAMES.
      set_solver.
    + destruct (fetchAndProcess P config url) as [r|e];
        rewrite Hrun in Hin; simpl in Hin; unfold RESPONSE_HEADER_NAMES;
        set_solver.
Qed.

(** On the reference platform [gunzipSync] rejects the single byte 00:
    under the name GZIP (in any letter case) [decompressContent] selects
    it and falls back to the byte it was given, and a result with that
    body and encoding goes on with it. *)
Lemma C3_content_encoding_witness :
  let P := Reference.platform mislabelledOrigin in
  let result := {| pr_content := Buf [Byte.x00]; pr_contentType := js "video/mp2t";
                   pr_status := 200;
                   pr_headers := {[ js "content-encoding" := js "gzip" ]} |} in
  decompressContent P [Byte.x00] (Some (js "GZIP")) = Ret [Byte.x00] ∧
  decompressStage P result = Ret (Buf [Byte.x00]).
Proof.
  intros P result.
  destruct (C3_content_encoding P testConfig) as (Hpick & _ & _ & _ & _ & _ & _ & Hfail & _).
  split.
  - rewrite (Hpick [Byte.x00] (js "GZIP") (js "gzip") (gunzipSync P)).
    + vm_compute. reflexivity.
    + apply list_elem_of_here.
    + reflexivity.
    + vm_compute. reflexivity.
  - apply Hfail; [reflexivity|].
    intros f Hf [d Hd]. unfold codecs in Hf.
    repeat (apply elem_of_cons in Hf as [->|Hf]; [vm_compute in Hd; discriminate|]).
    by apply elem_of_nil in Hf.
Defined.

(** *** Conditional rewrite *)

Lemma isActuallyM3u8_marker (P : Platform) (content : Content) :
  isActuallyM3u8 P content =
  match content with
  | Text s => startsWithMarker s
  | Buf b => bool_decide (b ≠ []) && startsWithMarker (Buffer_toString P (take 100 b))
  end.
Proof.
  destruct content as [s|b]; [done|]. unfold isActuallyM3u8.
  case_bool_decide as Hlen.
  - rewrite bool_decide_eq_true_2 by (intros ->; simpl in Hlen; lia).
    cbn [andb].
    destruct (Nat.min_spec 100 (length b)) as [[Hlt ->]|[Hge ->]]; [done|].
    rewrite (take_ge b (length b)) by lia. by rewrite (take_ge b 100) by lia.
  - rewrite bool_decide_eq_false_2; [done|].
    intros Hne. destruct b; [done|]. simpl in Hlen. lia.
Qed.

Lemma handler_miss (P : Platform) (config : Config) (url : jsstring)
    (now_get now_set : Z) (c c1 : SimpleCache) (r : Processed) :
  truthy url = true →
  returns (new_URL P url None) →
  cache_get c url now_get = (None, c1) →
  fetchAndProcess P config url = Ret r →
  handler P config (Some url) now_get now_set c =
  {| response :=
       {| status := 200;
          responseHeaders :=
            [(js "Content-Type", out_contentType r);
             (js "X-Cache", js "MISS");
             (js "Content-Length", numberToString (contentLength (out_content r)))];
          body := BodyContent (out_content r) |};
     cacheAfter := cache_set c1 url (out_content r) (out_contentType r)
                     (cacheTtl config) now_set;
     resultHeaders := Some (dropContentEncoding (out_headers r)) |}.
Proof.
  intros Ht [U HU] Hget Hr. unfold handler. by rewrite Ht, HU, Hget, Hr.
Qed.

Lemma isActuallyM3u8_true (P : Platform) (payload : Content) :
  isActuallyM3u8 P payload = true ↔
  match payload with Text _ => True | Buf b => b ≠ [] end ∧
  let sniffed :=
    match payload with Text s => s | Buf b => Buffer_toString P (take 100 b) end in
  (startsWith (trim sniffed) (js "#EXTM3U") = true ∨
   startsWith (trim sniffed) (js "#EXT-X-") = true).
Proof.
  rewrite isActuallyM3u8_marker. unfold startsWithMarker.
  destruct payload as [s|b]; cbv zeta.
  - rewrite orb_true_iff. tauto.
  - rewrite andb_true_iff, bool_decide_eq_true, orb_true_iff. tauto.
Qed.

(** C5. Once the fetch and the decompression stage have completed, the
    rewriter runs exactly when two checks both hold.  The first: the
    lower-cased URL ends in [.m3u8] or contains [.m3u8?], or the
    classified content type contains one of [application/vnd.apple.mpegurl],
    [application/x-mpegurl], [audio/mpegurl], [audio/x-mpegurl].  The
    second: the content starts with a playlist marker, [#EXTM3U] or
    [#EXT-X-], tested on the trimmed text -- for a buffer on the decoding
    of its first 100 bytes, an empty buffer never passing.  When either
    check fails the pipeline hands on the content as it is, under the
    classified content type; when both hold, the content is the rewriter's
    output for the proxy path [/proxy] and the type is the playlist media
    type.  In both cases a cache miss answers 200 with exactly that
    content and type, and stores them. *)
Theorem C5_conditional_rewrite (P : Platform) (config : Config)
    (url : jsstring) (result : ProxyResult) (payload : Content) :
  proxyUrl P url (requestTimeout config) = Ret result →
  decompressStage P result = Ret payload →
  let classified :=
    getStreamingContentType P url (Some (contentBuffer payload))
      (Some (pr_contentType result)) in
  let lowerUrl := toLowerCase P url in
  let looksLikePlaylist : Prop :=
    endsWith lowerUrl (js ".m3u8") = true ∨
    includes lowerUrl (js ".m3u8?") = true ∨
    includes classified (js "application/vnd.apple.mpegurl") = true ∨
    includes classified (js "application/x-mpegurl") = true ∨
    includes classified (js "audio/mpegurl") = true ∨
    includes classified (js "audio/x-mpegurl") = true in
  let sniffed :=
    match payload with Text s => s | Buf b => Buffer_toString P (take 100 b) end in
  let hasMarker : Prop :=
    match payload with Text _ => True | Buf b => b ≠ [] end ∧
    (startsWith (trim sniffed) (js "#EXTM3U") = true ∨
     startsWith (trim sniffed) (js "#EXT-X-") = true) in
  let text := match payload with Text s => s | Buf b => Buffer_toString P b end in
  let served (r : Processed) : Prop :=
    fetchAndProcess P config url = Ret r ∧
    ∀ now_get now_set c c1,
      truthy url = true →
      cache_get c url now_get = (None, c1) →
      let run := handler P config (Some url) now_get now_set c in
      status (response run) = 200%Z ∧
      body (response run) = BodyContent (out_content r) ∧
      (js "Content-Type", out_contentType r) ∈ responseHeaders (response run) ∧
      ∃ en, cache (cacheAfter run) !! url = Some en ∧
            content en = out_content r ∧ contentType en = out_contentType r in
  (isM3u8Url P url || isM3u8ContentType classified = true ↔ looksLikePlaylist) ∧
  (isActuallyM3u8 P payload = true ↔ hasMarker) ∧
  (¬ (looksLikePlaylist ∧ hasMarker) →
     served {| out_content := payload; out_contentType := classified;
               out_headers := pr_headers result |}) ∧
  (looksLikePlaylist ∧ hasMarker →
     ∃ rewritten,
       processM3u8 P text url (js "/proxy") = Ret rewritten ∧
       served {| out_content := Text rewritten; out_contentType := MPEGURL;
                 out_headers := pr_headers result |}).
Proof.
  intros Hfetch Hdec classified lowerUrl looksLikePlaylist sniffed hasMarker text served.
  pose proof (fetchAndProcess_result P config url result payload Hfetch Hdec) as Hfp.
  cbv zeta in Hfp. fold classified text in Hfp.
  assert (isM3u8Url P url || isM3u8ContentType classified = true ↔ looksLikePlaylist)
    as Hlooks.
  { unfold isM3u8Url, isM3u8ContentType, looksLikePlaylist. fold lowerUrl.
    rewrite !orb_true_iff. tauto. }
  assert (isActuallyM3u8 P payload = true ↔ hasMarker) as Hmark
    by apply isActuallyM3u8_true.
  assert (∀ r, fetchAndProcess P config url = Ret r → served r) as Hserved.
  { intros r Hr. split; [done|].
    intros now_get now_set c c1 Ht Hget run. subst run.
    rewrite (handler_miss P config url now_get now_set c c1 r Ht
               (proxyUrl_Ret_url P url _ result Hfetch) Hget Hr).
    cbn [response status body responseHeaders cacheAfter].
    split; [done|]. split; [done|]. split; [apply list_elem_of_here|].
    eexists. split; [apply cache_set_lookup|]. done. }
  split; [exact Hlooks|]. split; [exact Hmark|]. split.
  - intros Hno. apply Hserved.
    destruct (isM3u8Url P url || isM3u8ContentType classified) eqn:E1;
      [|by rewrite Hfp].
    destruct (isActuallyM3u8 P payload) eqn:E2; [|by rewrite Hfp].
    destruct Hno. split; [by apply Hlooks|by apply Hmark].
  - intros [Hl Hm]. apply Hlooks in Hl. apply Hmark in Hm.
    rewrite Hl, Hm in Hfp. cbn [andb] in Hfp.
    destruct (processM3u8_returns P text url (js "/proxy")) as [rewritten Hrw].
    exists rewritten. split; [done|]. apply Hserved. by rewrite Hfp, Hrw.
Qed.

(** Both sides on the reference platform.  A single byte 47 served under
    a [.m3u8] name: the URL looks like a playlist, the content does not
    start with a marker, and the byte is handed on unrewritten under the
    classified type.  A two-line playlist served under the playlist media
    type: both checks hold, and its reference line is rewritten. *)
Lemma C5_conditional_rewrite_witness :
  fetchAndProcess (Reference.platform disguisedOrigin) testConfig sourceUrl =
    Ret {| out_content := Buf [Byte.x47]; out_contentType := OCTET_STREAM;
           out_headers := {[ js "content-type" := OCTET_STREAM ]} |} ∧
  fetchAndProcess (Reference.platform playlistOrigin) testConfig sourceUrl =
    Ret {| out_content :=
             Text (js "#EXTM3U" ++ [LF] ++
                   js "/proxy?url=https%3A%2F%2Fcdn.example.com%2Fvideos%2Fshow%2Fsegment001.ts");
           out_contentType := MPEGURL;
           out_headers := {[ js "content-type" := MPEGURL ]} |}.
Proof.
  split.
  - set (P := Reference.platform disguisedOrigin).
    destruct (C5_conditional_rewrite P testConfig sourceUrl
                {| pr_content := Buf [Byte.x47]; pr_contentType := OCTET_STREAM;
                   pr_status := 200;
                   pr_headers := {[ js "content-type" := OCTET_STREAM ]} |}
                (Buf [Byte.x47])) as (_ & _ & Hno & _);
      [vm_compute; reflexivity | vm_compute; reflexivity |].
    destruct Hno as [Hfp _].
    + intros [_ [_ [H|H]]]; vm_compute in H; discriminate.
    + rewrite Hfp. vm_compute. reflexivity.
  - set (P := Reference.platform playlistOrigin).
    destruct (C5_conditional_rewrite P testConfig sourceUrl
                {| pr_content := Text (js "#EXTM3U" ++ [LF] ++ js "segment001.ts");
                   pr_contentType := MPEGURL; pr_status := 200;
                   pr_headers := {[ js "content-type" := MPEGURL ]} |}
                (Text (js "#EXTM3U" ++ [LF] ++ js "segment001.ts")))
      as (_ & _ & _ & Hyes);
      [vm_compute; reflexivity | vm_compute; reflexivity |].
    destruct Hyes as (rewritten & Hrw & Hfp & _).
    + split; [left; vm_compute; reflexivity|].
      split; [done|]. left. vm_compute. reflexivity.
    + rewrite Hfp. vm_compute in Hrw. injection Hrw as <-.
      vm_compute. reflexivity.
Defined.

(** *** Cache writes *)

(** C9 (as stated) fails: the cache holds an expired entry for the target
    URL, the origin cannot be reached, the handler answers 500, and the
    cache is not as it was before the request, because the lookup that
    opens the request has deleted the expired entry. *)
Lemma C9_counterexample_lazy_expiry :
  let P := Reference.platform Reference.unreachable in
  let c0 := cache_set SimpleCache_new sourceUrl (Text (js "old")) (js "text/plain")
              (Some 1%Z) 0 in
  let run := handler P testConfig (Some sourceUrl) 5000 5000 c0 in
  status (response run) = 500%Z ∧
  is_Some (cache c0 !! sourceUrl) ∧
  cache (cacheAfter run) !! sourceUrl = None ∧
  cacheAfter run ≠ c0.
Proof.
  intros P c0 run.
  assert (cache (cacheAfter run) !! sourceUrl = None) as Hafter
    by (vm_compute; reflexivity).
  assert (is_Some (cache c0 !! sourceUrl)) as Hbefore
    by (unfold c0; rewrite cache_set_lookup; by eexists).
  split; [vm_compute; reflexivity|]. split; [done|]. split; [done|].
  intros Heq. rewrite Heq in Hafter. rewrite Hafter in Hbefore.
  by destruct Hbefore.
Qed.

(** C9 (amended).  The cache is written only after the fetch,
    decompression, classification and conditional rewrite have all
    completed: an entry that is in the cache after a request and was not
    there before is the entry for the target URL made from the pipeline's
    result, on a request answered 200.  If the pipeline throws, the
    handler answers 500 with the error's message, and the cache is the
    one the opening lookup left: no entry is added or changed, and the
    only entry that can be missing is an expired entry for the target URL,
    which the lookup deletes.  A request refused with 400 leaves the cache
    untouched. *)
Theorem C9_cache_write_on_success (P : Platform) (config : Config)
    (query : option jsstring) (now_get now_set : Z) (c : SimpleCache) :
  let run := handler P config query now_get now_set c in
  (∀ k en,
     cache (cacheAfter run) !! k = Some en → cache c !! k ≠ Some en →
     status (response run) = 200%Z ∧ query = Some k ∧
     ∃ r, fetchAndProcess P config k = Ret r ∧
          en = {| content := out_content r; contentType := out_contentType r;
                  timestamp := now_set;
                  ttl := ttlOrDefault (cacheTtl config) (defaultTtl c) |}) ∧
  (∀ url e,
     query = Some url → truthy url = true → returns (new_URL P url None) →
     (cache_get c url now_get).1 = None →
     fetchAndProcess P config url = Throw e →
     response run = json 500 [(js "error", error_message e); (js "url", url)] ∧
     cacheAfter run = (cache_get c url now_get).2 ∧
     (∀ k en, cache (cacheAfter run) !! k = Some en → cache c !! k = Some en) ∧
     (∀ k en, cache c !! k = Some en → k ≠ url ∨ expired now_get en = false →
              cache (cacheAfter run) !! k = Some en)) ∧
  (status (response run) = 400%Z → cacheAfter run = c).
Proof.
  intros run.
  pose proof (handler_cases P config query now_get now_set c) as Hcases.
  fold run in Hcases.
  split; [|split].
  - intros k en Hafter Hbefore.
    destruct Hcases
      as [(_ & Hc & _)|(url & -> & _ & _ & [(v & type & _ & Hrun)|(c1 & Hget & Hrun)])].
    + rewrite Hc in Hafter. done.
    + rewrite Hrun in Hafter. done.
    + pose proof (cache_get_sound _ _ _ _ _ Hget) as (Hgone & Hother & _).
      destruct (fetchAndProcess P config url) as [r|e] eqn:Hr; rewrite Hrun in *;
        simpl in *.
      * destruct (decide (k = url)) as [->|Hne].
        -- rewrite lookup_insert_eq in Hafter. injection Hafter as <-.
           split; [done|]. split; [done|]. exists r. split; [done|].
           by rewrite (cache_get_defaultTtl _ _ _ _ _ Hget).
        -- rewrite lookup_insert_ne in Hafter by done.
           rewrite (Hother k Hne) in Hafter. done.
      * destruct (decide (k = url)) as [->|Hne]; [congruence|].
        rewrite (Hother k Hne) in Hafter. done.
  - intros url e -> Ht HU Hmiss Hthrow.
    destruct Hcases
      as [(Hbad & _)|(url' & [= <-] & _ & _ & [(v & type & Hhit & _)|(c1 & Hget & Hrun)])].
    + exfalso. revert Hbad. subst run. unfold handler. rewrite Ht. simpl.
      destruct HU as [U ->].
      destruct (cache_get c url now_get) as [[[? ?]|] ?]; [discriminate|].
      rewrite Hthrow. discriminate.
    + rewrite Hhit in Hmiss. discriminate.
    + rewrite Hthrow in Hrun. rewrite Hrun, Hget. simpl.
      pose proof (cache_get_sound _ _ _ _ _ Hget) as (Hgone & Hother & Habsent).
      split; [done|]. split; [done|]. split.
      * intros k en Hk. destruct (decide (k = url)) as [->|Hne]; [congruence|].
        by rewrite <- (Hother k Hne).
      * intros k en Hk [Hne|Hlive]; [by rewrite (Hother k Hne)|].
        destruct (decide (k = url)) as [->|Hne]; [|by rewrite (Hother k Hne)].
        unfold cache_get in Hget. rewrite Hk, Hlive in Hget. discriminate.
  - intros H400.
    destruct Hcases
      as [(_ & Hc & _)|(url & -> & _ & _ & [(v & type & _ & Hrun)|(c1 & Hget & Hrun)])];
      [done| |].
    + rewrite Hrun in H400. discriminate.
    + destruct (fetchAndProcess P config url); rewrite Hrun in H400; discriminate.
Qed.

(** An unreachable origin and an empty cache: the answer is 500 and the
    cache stays empty. *)
Lemma C9_cache_write_on_success_witness :
  let P := Reference.platform Reference.unreachable in
  let run := handler P testConfig (Some sourceUrl) 0 0 SimpleCache_new in
  response run = json 500 [(js "error", js "request failed"); (js "url", sourceUrl)] ∧
  cacheAfter run = SimpleCache_new.
Proof.
  intros P run.
  destruct (C9_cache_write_on_success P testConfig (Some sourceUrl) 0 0 SimpleCache_new)
    as (_ & Hfail & _).
  destruct (Hfail sourceUrl Reference.networkError) as (Hresp & Hcache & _).
  - reflexivity.
  - vm_compute. reflexivity.
  - destruct (new_URL P sourceUrl None) as [U|] eqn:HU; [by exists U|].
    vm_compute in HU. discriminate.
  - reflexivity.
  - vm_compute. reflexivity.
  - split; [exact Hresp|exact Hcache].
Defined.

(** ** The rewrite scenarios *)

(** C1. With source URL
    [https://cdn.example.com/videos/show/index.m3u8] and proxy base path
    [/proxy], on any platform whose URL parser accepts the source URL and
    resolves [segment001.ts] and [key.bin] against the directory
    [https://cdn.example.com/videos/show/]: the base path is that
    directory (the source URL without its final component); the line
    [segment001.ts] becomes
    [/proxy?url=https%3A%2F%2Fcdn.example.com%2Fvideos%2Fshow%2Fsegment001.ts];
    the [#EXT-X-KEY] line keeps everything but the value of its URI
    attribute, which becomes
    [/proxy?url=https%3A%2F%2Fcdn.example.com%2Fvideos%2Fshow%2Fkey.bin];
    and both values come from the one procedure [proxiedReference]:
    the proxy path, [?url=], and the percent-encoded absolute URL.  In
    general a reference line is replaced by what [proxiedReference] makes
    of its trimmed text, and a directive line with well-formed URI
    attributes keeps all its text outside the attribute values, each value
    being replaced by its [target]: what [proxiedReference] makes of it,
    or the value itself when it already begins with the proxy path or
    does not resolve. *)
Theorem C1_rewrite_scenarios (P : Platform) (U seg key : URL) :
  new_URL P sourceUrl None = Ret U →
  new_URL P (js "segment001.ts") (Some sourceDir) = Ret seg →
  href seg = sourceDir ++ js "segment001.ts" →
  new_URL P (js "key.bin") (Some sourceDir) = Ret key →
  href key = sourceDir ++ js "key.bin" →
  basePathOf sourceUrl = js "https://cdn.example.com/videos/show/" ∧
  processM3u8 P (js "segment001.ts") sourceUrl (js "/proxy") =
    Ret (js "/proxy?url=https%3A%2F%2Fcdn.example.com%2Fvideos%2Fshow%2Fsegment001.ts") ∧
  processM3u8 P (keyLine (js "key.bin")) sourceUrl (js "/proxy") =
    Ret (keyLine (js "/proxy?url=https%3A%2F%2Fcdn.example.com%2Fvideos%2Fshow%2Fkey.bin")) ∧
  (∃ enc, encodeURIComponent (href seg) = Ret enc ∧
          proxiedReference P U (basePathOf sourceUrl) (js "/proxy") (js "segment001.ts")
          = Ret (js "/proxy" ++ js "?url=" ++ enc)) ∧
  (∃ enc, encodeURIComponent (href key) = Ret enc ∧
          proxiedReference P U (basePathOf sourceUrl) (js "/proxy") (js "key.bin")
          = Ret (js "/proxy" ++ js "?url=" ++ enc)) ∧
  (∀ line r,
     startsWith (trim line) [HASH] = false → trim line ≠ [] →
     startsWith (trim line) (js "/proxy") = false →
     proxiedReference P U (basePathOf sourceUrl) (js "/proxy") (trim line) = Ret r →
     processLine P U (basePathOf sourceUrl) (js "/proxy") line = Ret r) ∧
  (∀ parts tail,
     cleanParts parts → cleanText tail →
     startsWith (trim (render parts tail)) [HASH] = true →
     processLine P U (basePathOf sourceUrl) (js "/proxy") (render parts tail) =
     Ret (render (targetPart P U (basePathOf sourceUrl) (js "/proxy") <$> parts) tail)).
Proof.
  intros HU Hseg Hhseg Hkey Hhkey.
  assert (encodeURIComponent (href seg) =
          Ret (js "https%3A%2F%2Fcdn.example.com%2Fvideos%2Fshow%2Fsegment001.ts"))
    as Eseg by (rewrite Hhseg; vm_compute; reflexivity).
  assert (encodeURIComponent (href key) =
          Ret (js "https%3A%2F%2Fcdn.example.com%2Fvideos%2Fshow%2Fkey.bin"))
    as Ekey by (rewrite Hhkey; vm_compute; reflexivity).
  assert (proxiedReference P U (basePathOf sourceUrl) (js "/proxy") (js "segment001.ts")
          = Ret (js "/proxy" ++ js "?url=" ++
                 js "https%3A%2F%2Fcdn.example.com%2Fvideos%2Fshow%2Fsegment001.ts"))
    as Rseg.
  { rewrite basePathOf_sourceUrl.
    by apply (proxiedReference_relative P U sourceDir (js "/proxy") _ seg). }
  assert (proxiedReference P U (basePathOf sourceUrl) (js "/proxy") (js "key.bin")
          = Ret (js "/proxy" ++ js "?url=" ++
                 js "https%3A%2F%2Fcdn.example.com%2Fvideos%2Fshow%2Fkey.bin"))
    as Rkey.
  { rewrite basePathOf_sourceUrl.
    by apply (proxiedReference_relative P U sourceDir (js "/proxy") _ key). }
  split; [exact basePathOf_sourceUrl|]. split; [|split; [|split; [|split; [|split]]]].
  - apply (processM3u8_ok P _ _ _ U
             [js "/proxy?url=https%3A%2F%2Fcdn.example.com%2Fvideos%2Fshow%2Fsegment001.ts"] HU).
    replace (splitLines (js "segment001.ts")) with [js "segment001.ts"]
      by (vm_compute; reflexivity).
    constructor; [|constructor].
    apply processLine_reference;
      [vm_compute; reflexivity | vm_compute; discriminate
      | vm_compute; reflexivity | ].
    replace (trim (js "segment001.ts")) with (js "segment001.ts")
      by (vm_compute; reflexivity).
    exact Rseg.
  - apply (processM3u8_ok P _ _ _ U
             [keyLine (js "/proxy?url=https%3A%2F%2Fcdn.example.com%2Fvideos%2Fshow%2Fkey.bin")] HU).
    replace (splitLines (keyLine (js "key.bin"))) with [keyLine (js "key.bin")]
      by (vm_compute; reflexivity).
    constructor; [|constructor].
    unfold processLine.
    replace (startsWith (trim (keyLine (js "key.bin"))) [HASH]) with true
      by (vm_compute; reflexivity).
    replace (includes (keyLine (js "key.bin")) URI_OPEN) with true
      by (vm_compute; reflexivity).
    replace (uriMatches (keyLine (js "key.bin"))) with [js "key.bin"]
      by (vm_compute; reflexivity).
    cbn [foldM]. unfold rewriteUriAttr.
    replace (startsWith (js "key.bin") (js "/proxy")) with false
      by (vm_compute; reflexivity).
    rewrite Rkey. vm_compute. reflexivity.
  - eexists. split; [exact Eseg|exact Rseg].
  - eexists. split; [exact Ekey|exact Rkey].
  - intros line r. apply processLine_reference.
  - intros parts tail. apply processLine_render. exact plainProxyPath_proxy.
Qed.

(** The reference platform meets the hypotheses of C1. *)
Lemma C1_rewrite_scenarios_witness :
  let P := Reference.platform Reference.unreachable in
  processM3u8 P (js "segment001.ts") sourceUrl (js "/proxy") =
    Ret (js "/proxy?url=https%3A%2F%2Fcdn.example.com%2Fvideos%2Fshow%2Fsegment001.ts") ∧
  processM3u8 P (keyLine (js "key.bin")) sourceUrl (js "/proxy") =
    Ret (keyLine (js "/proxy?url=https%3A%2F%2Fcdn.example.com%2Fvideos%2Fshow%2Fkey.bin")).
Proof.
  intros P.
  destruct (new_URL P sourceUrl None) as [U|] eqn:HU; [|vm_compute in HU; discriminate].
  destruct (new_URL P (js "segment001.ts") (Some sourceDir)) as [seg|] eqn:Hseg;
    [|vm_compute in Hseg; discriminate].
  destruct (new_URL P (js "key.bin") (Some sourceDir)) as [key|] eqn:Hkey;
    [|vm_compute in Hkey; discriminate].
  assert (href seg = sourceDir ++ js "segment001.ts") as Hhseg
    by (vm_compute in Hseg; injection Hseg as <-; vm_compute; reflexivity).
  assert (href key = sourceDir ++ js "key.bin") as Hhkey
    by (vm_compute in Hkey; injection Hkey as <-; vm_compute; reflexivity).
  destruct (C1_rewrite_scenarios P U seg key HU Hseg Hhseg Hkey Hhkey)
    as (_ & H1 & H2 & _).
  split; [exact H1|exact H2].
Defined.


(** * Further properties of the code

    ** The cache as a store (cache.ts) *)

Lemma cache_get_fst (c : SimpleCache) k now :
  (cache_get c k now).1 =
  match cache c !! k with
  | Some e => if expired now e then None else Some (content e, contentType e)
  | None => None
  end.
Proof.
  unfold cache_get. destruct (cache c !! k) as [e|]; [|done].
  by destruct (expired now e).
Qed.

Lemma expired_mono (t1 t2 : Z) (e : CacheEntry) :
  (t1 <= t2)%Z → expired t2 e = false → expired t1 e = false.
Proof. rewrite !expired_false. lia. Qed.

Lemma SimpleCache_eq (c c' : SimpleCache) :
  cache c = cache c' → defaultTtl c = defaultTtl c' → c = c'.
Proof. destruct c, c'; simpl; congruence. Qed.

(** X1. [set] is a plain store: a second [set] on the same key replaces
    the first entirely (content, type, time stamp and TTL); [set]s on
    different keys commute; a [set] does not change what [get] returns for
    any other key; and the entry count grows by one exactly when the key
    was not stored before. *)
Theorem X1_set_store (c : SimpleCache) (k : jsstring)
    (v1 v2 : Content) (ty1 ty2 : jsstring) (ttl1 ttl2 : option Z) (n1 n2 : Z) :
  cache_set (cache_set c k v1 ty1 ttl1 n1) k v2 ty2 ttl2 n2 =
    cache_set c k v2 ty2 ttl2 n2 ∧
  (∀ k', k' ≠ k →
     cache_set (cache_set c k v1 ty1 ttl1 n1) k' v2 ty2 ttl2 n2 =
     cache_set (cache_set c k' v2 ty2 ttl2 n2) k v1 ty1 ttl1 n1) ∧
  (∀ k' now, k' ≠ k →
     (cache_get (cache_set c k v1 ty1 ttl1 n1) k' now).1 = (cache_get c k' now).1) ∧
  getStats (cache_set c k v1 ty1 ttl1 n1) =
    (if cache c !! k then getStats c else S (getStats c)).
Proof.
  split; [|split; [|split]].
  - apply SimpleCache_eq; [|done]. simpl. apply insert_insert_eq.
  - intros k' Hk. apply SimpleCache_eq; [|done]. simpl. by apply insert_insert_ne.
  - intros k' now Hk. rewrite !cache_get_fst. simpl.
    by rewrite lookup_insert_ne.
  - unfold getStats. simpl. destruct (cache c !! k) as [e|] eqn:E.
    + by erewrite map_size_insert_Some.
    + by rewrite map_size_insert_None.
Qed.

Lemma X1_set_store_witness :
  let c := cache_set SimpleCache_new (js "a") (Text (js "1")) (js "t") None 0 in
  (cache_get (cache_set c (js "b") (Text (js "2")) (js "u") None 5) (js "a") 9).1 =
    Some (Text (js "1"), js "t") ∧
  getStats (cache_set c (js "a") (Text (js "3")) (js "t") None 7) = 1%nat.
Proof.
  intros c. split.
  - pose proof (X1_set_store c (js "b") (Text (js "2")) (Text (js "2")) (js "u") (js "u")
                  None None 5 5) as (_ & _ & H & _).
    rewrite (H (js "a") 9%Z); [vm_compute; reflexivity | discriminate].
  - pose proof (X1_set_store c (js "a") (Text (js "3")) (Text (js "3")) (js "t") (js "t")
                  None None 7 7) as (_ & _ & _ & H).
    rewrite H. vm_compute. reflexivity.
Defined.

(** X2. [delete] and [clear]: after [delete(k)] a [get(k)] misses and
    leaves the cache as it is, every other key answers as before, deleting
    a key that is not stored changes nothing, and deleting a stored key
    lowers the entry count by one.  After [clear] the count is zero and
    every [get] misses; the default TTL is kept by both. *)
Theorem X2_delete_and_clear (c : SimpleCache) (k : jsstring) :
  (∀ now, cache_get (cache_delete c k) k now = (None, cache_delete c k)) ∧
  (∀ k' now, k' ≠ k →
     (cache_get (cache_delete c k) k' now).1 = (cache_get c k' now).1) ∧
  (cache c !! k = None → cache_delete c k = c) ∧
  (is_Some (cache c !! k) → S (getStats (cache_delete c k)) = getStats c) ∧
  getStats (cache_clear c) = 0%nat ∧
  (∀ k' now, cache_get (cache_clear c) k' now = (None, cache_clear c)) ∧
  defaultTtl (cache_delete c k) = defaultTtl c ∧
  defaultTtl (cache_clear c) = defaultTtl c.
Proof.
  split; [|split; [|split; [|split; [|split; [|split; [|split]]]]]]; try done.
  - intros now. apply cache_get_absent. simpl. apply lookup_delete_eq.
  - intros k' now Hk. rewrite !cache_get_fst. simpl. by rewrite lookup_delete_ne.
  - intros Hn. apply SimpleCache_eq; [|done]. simpl. by apply delete_id.
  - intros [e He]. unfold getStats. simpl.
    rewrite map_size_delete, He.
    assert (size (cache c) ≠ 0%nat); [|lia].
    intros Hz. apply map_size_empty_inv in Hz. by rewrite Hz in He.
Qed.

Lemma X2_delete_and_clear_witness :
  let c := cache_set SimpleCache_new (js "a") (Text (js "1")) (js "t") None 0 in
  S (getStats (cache_delete c (js "a"))) = getStats c ∧
  cache_delete c (js "b") = c.
Proof.
  intros c.
  pose proof (X2_delete_and_clear c (js "a")) as (_ & _ & _ & H & _).
  pose proof (X2_delete_and_clear c (js "b")) as (_ & _ & H' & _).
  split; [apply H; vm_compute; eauto | apply H'; vm_compute; reflexivity].
Defined.

(** X3. [has(k)] answers true exactly when the key is stored and its age
    has not passed its TTL, and then it leaves the cache alone.  A false
    answer is not a pure query: it leaves the key absent (an expired entry
    is evicted), so [has(k)] stays false at every time thereafter until
    the next [set]. *)
Theorem X3_has (c : SimpleCache) (k : jsstring) (now : Z) :
  ((cache_has c k now).1 = true ↔
     ∃ e, cache c !! k = Some e ∧ (now - timestamp e <= 1000 * ttl e)%Z) ∧
  ((cache_has c k now).1 = true → (cache_has c k now).2 = c) ∧
  ((cache_has c k now).1 = false →
     cache (cache_has c k now).2 !! k = None ∧
     ∀ now', cache_has (cache_has c k now).2 k now' = (false, (cache_has c k now).2)).
Proof.
  unfold cache_has.
  destruct (cache_get c k now) as [r c'] eqn:G.
  pose proof (cache_get_sound _ _ _ _ _ G) as S. simpl.
  destruct r as [[v ty]|].
  - destruct S as (e & He & -> & -> & Hl & ->).
    split; [|split]; [|done|].
    + split; [eauto|]. intros _. apply bool_decide_eq_true. eauto.
    + intros Hf. apply bool_decide_eq_false in Hf. destruct Hf. eauto.
  - destruct S as (Hk & _ & _).
    split; [|split].
    + split.
      * intros Ht. apply bool_decide_eq_true in Ht. by destruct Ht.
      * intros (e & He & Hl). exfalso.
        rewrite (cache_get_live _ _ _ _ He Hl) in G. discriminate.
    + intros Ht. apply bool_decide_eq_true in Ht. by destruct Ht.
    + intros _. split; [done|]. intros now'.
      by rewrite (cache_get_absent _ _ _ Hk).
Qed.

Lemma X3_has_witness :
  let c := cache_set SimpleCache_new (js "a") (Text (js "1")) (js "t") (Some 1%Z) 0 in
  (cache_has c (js "a") 1000).2 = c ∧
  cache (cache_has c (js "a") 1001).2 !! js "a" = None.
Proof.
  intros c.
  pose proof (X3_has c (js "a") 1000) as (_ & H & _).
  pose proof (X3_has c (js "a") 1001) as (_ & _ & H').
  split; [apply H; vm_compute; reflexivity|].
  apply H'. vm_compute. reflexivity.
Defined.

(** X4. The periodic [cleanup] is invisible to readers: a [get] at the
    time of the sweep returns the same thing before and after it, and
    after the sweep that [get] no longer has anything to evict.  A sweep
    followed by a later sweep equals the later sweep alone (so sweeping
    twice at one time is sweeping once), and a sweep never raises the
    entry count. *)
Theorem X4_cleanup_transparent (c : SimpleCache) (now : Z) :
  (∀ k, cache_get (cleanup c now) k now = ((cache_get c k now).1, cleanup c now)) ∧
  (∀ later, (now <= later)%Z → cleanup (cleanup c now) later = cleanup c later) ∧
  cleanup (cleanup c now) now = cleanup c now ∧
  (getStats (cleanup c now) ≤ getStats c)%nat.
Proof.
  assert (∀ later, (now <= later)%Z →
            cleanup (cleanup c now) later = cleanup c later) as Hlater.
  { intros later Hl. apply SimpleCache_eq; [|done].
    apply map_eq. intros k.
    change (cache (cleanup (cleanup c now) later) !! k = cache (cleanup c later) !! k).
    rewrite !cleanup_lookup.
    destruct (cache c !! k) as [e|]; [|done].
    destruct (expired now e) eqn:E1, (expired later e) eqn:E2; try done.
    by rewrite (expired_mono now later e Hl E2) in E1. }
  split; [|split; [|split]].
  - intros k. unfold cache_get at 1. rewrite cleanup_lookup, cache_get_fst.
    destruct (cache c !! k) as [e|]; [|done].
    destruct (expired now e) eqn:E; [done|]. by rewrite E.
  - exact Hlater.
  - apply Hlater. lia.
  - apply map_size_filter.
Qed.

Lemma X4_cleanup_transparent_witness :
  let c := cache_set SimpleCache_new (js "a") (Text (js "1")) (js "t") (Some 1%Z) 0 in
  cleanup (cleanup c 500) 2000 = cleanup c 2000.
Proof.
  intros c. pose proof (X4_cleanup_transparent c 500) as (_ & H & _).
  apply H. lia.
Defined.

(** X5. Entries only age: if [get(k)] returns a value at some time, the
    same [get] at any earlier time returns the same value and leaves the
    cache alone; equivalently, once a key misses it misses at every later
    time as well (until it is set again). *)
Theorem X5_hit_at_earlier_times (c : SimpleCache) (k : jsstring) (t1 t2 : Z)
    (r : Content * jsstring) :
  (t1 <= t2)%Z →
  (cache_get c k t2).1 = Some r →
  cache_get c k t1 = (Some r, c).
Proof.
  intros Ht. rewrite cache_get_fst. unfold cache_get.
  destruct (cache c !! k) as [e|]; [|done].
  destruct (expired t2 e) eqn:E; [done|]. intros [= <-].
  by rewrite (expired_mono t1 t2 e Ht E).
Qed.

Lemma X5_hit_at_earlier_times_witness :
  let c := cache_set SimpleCache_new (js "a") (Text (js "1")) (js "t") (Some 1%Z) 0 in
  cache_get c (js "a") 10 = (Some (Text (js "1"), js "t"), c).
Proof.
  intros c.
  apply (X5_hit_at_earlier_times c (js "a") 10 1000); [lia|].
  vm_compute. reflexivity.
Defined.

(** X6. A negative TTL switches caching off for the entry: it is stored
    (and counted by [getStats]), but no [get] at or after the time of the
    [set] ever returns it; the first such [get] evicts it. *)
Theorem X6_negative_ttl_never_served (c : SimpleCache) (k : jsstring)
    (v : Content) (type : jsstring) (t now0 now : Z) :
  (t < 0)%Z → (now0 <= now)%Z →
  let c1 := cache_set c k v type (Some t) now0 in
  is_Some (cache c1 !! k) ∧
  cache_get c1 k now = (None, cache_delete c1 k).
Proof.
  intros Ht Hn c1. subst c1. rewrite cache_set_lookup. split; [eauto|].
  eapply cache_get_expired; [apply cache_set_lookup|].
  simpl. unfold ttlOrDefault.
  destruct (Z.eqb_spec t 0); lia.
Qed.

Lemma X6_negative_ttl_never_served_witness :
  let c1 := cache_set SimpleCache_new (js "a") (Text (js "1")) (js "t") (Some (-1)%Z) 0 in
  cache_get c1 (js "a") 0 = (None, cache_delete c1 (js "a")).
Proof.
  intros c1.
  apply (X6_negative_ttl_never_served SimpleCache_new (js "a") (Text (js "1")) (js "t")
           (-1) 0 0); lia.
Defined.

(** ** Content classification (mime-types.ts) *)

Lemma endsWith_last (s p : jsstring) :
  endsWith s p = true → p ≠ [] → last s = last p.
Proof.
  unfold endsWith. intros H Hp. apply startsWith_prefix in H as [r Hr].
  apply (f_equal (@rev N)) in Hr. rewrite rev_app_distr, !rev_involutive in Hr.
  subst s. destruct p as [|c p] using rev_ind; [done|].
  by rewrite app_assoc, !last_snoc.
Qed.

Lemma truthy_orOctetStream (fallback : option jsstring) :
  truthy (orOctetStream fallback) = true.
Proof.
  unfold orOctetStream. destruct fallback as [f|]; [|done].
  by destruct (truthy f) eqn:E.
Qed.

Section MimeFacts.
Context (P : Platform).

Lemma playlistByExtension_cases path buffer t :
  playlistByExtension P path buffer = Some t →
  t = MPEGURL ∧ isM3u8Playlist P path = true ∧
  match buffer with
  | Some buf => buf !! 0%nat = Some Byte.x23 ∧ buf !! 1%nat = Some Byte.x45
  | None => True
  end.
Proof.
  unfold playlistByExtension. destruct (isM3u8Playlist P path); [|done].
  destruct buffer as [buf|]; [|by intros [= <-]].
  destruct (bool_decide _ && _) eqn:E; [|done]. intros [= <-].
  apply andb_true_iff in E as [E0 E1].
  apply bool_decide_eq_true in E0. apply bool_decide_eq_true in E1. done.
Qed.

Lemma isTsSegment_last path :
  isTsSegment P path = true →
  ∃ c, last (toLowerCase P path) = Some c ∧ c ≠ 56 ∧ c ≠ 117.
Proof.
  unfold isTsSegment, isDisguisedSegment.
  destruct (negb (truthy path)); [done|].
  set (l := toLowerCase P path).
  destruct (endsWith l (js ".ts")) eqn:E1.
  { apply endsWith_last in E1; [|done]. rewrite E1. by eexists. }
  destruct (endsWith l (js ".mts")) eqn:E2.
  { apply endsWith_last in E2; [|done]. rewrite E2. by eexists. }
  destruct (endsWith l (js ".m2ts")) eqn:E3.
  { apply endsWith_last in E3; [|done]. rewrite E3. by eexists. }
  destruct (endsWith l (js ".mp2t")) eqn:E4.
  { apply endsWith_last in E4; [|done]. rewrite E4. by eexists. }
  cbn [orb].
  destruct (existsb _ SEGMENT_PATTERNS); [|done]. cbn [andb].
  destruct (existsb _ DISGUISE_EXTENSIONS) eqn:E; [|done]. intros _.
  apply existsb_exists in E as (ext & Hin & He).
  unfold DISGUISE_EXTENSIONS in Hin. cbn [fmap list_fmap] in Hin.
  repeat (destruct Hin as [<-|Hin];
          [apply endsWith_last in He; [|done]; rewrite He; by eexists|]).
  destruct Hin.
Qed.

Lemma isTsSegment_not_playlist path :
  isTsSegment P path = true → isM3u8Playlist P path = false.
Proof.
  intros (c & Hc & H8 & Hu)%isTsSegment_last.
  unfold isM3u8Playlist. destruct (negb (truthy path)); [done|].
  apply orb_false_iff. split.
  - destruct (endsWith _ (js ".m3u8")) eqn:E; [|done].
    apply endsWith_last in E; [|done]. rewrite Hc in E. by injection E.
  - destruct (endsWith _ (js ".m3u")) eqn:E; [|done].
    apply endsWith_last in E; [|done]. rewrite Hc in E. by injection E.
Qed.

Lemma isTsSegment_truthy path : isTsSegment P path = true → truthy path = true.
Proof. unfold isTsSegment. by destruct (truthy path). Qed.
End MimeFacts.

Lemma getStreamingContentType_signature (P : Platform) (path : jsstring)
    (buf : bytes) (fallback : option jsstring) :
  truthy path = true →
  detectTransportStream buf = true →
  getStreamingContentType P path (Some buf) fallback = MP2T.
Proof.
  intros Hp Hd. unfold getStreamingContentType. rewrite Hp, Hd. cbn [negb].
  destruct (playlistByExtension P path (Some buf)) as [t|] eqn:E.
  - apply playlistByExtension_cases in E as (_ & _ & H0 & _).
    apply detectTransportStream_spec in Hd as (_ & Hs & _).
    rewrite Hs in H0. discriminate.
  - by destruct (hasSuspiciousExtension P path).
Qed.

(** X7. The binary signature has the last word: whenever the buffer
    passes [detectTransportStream], [getStreamingContentType] answers
    [video/mp2t] for every non-empty path and every fallback -- also for
    a path ending in [.m3u8], since a buffer that begins with the sync
    byte 0x47 cannot begin with the two characters [#E]. *)
Theorem X7_signature_overrides (P : Platform) (path : jsstring) (buf : bytes)
    (fallback : option jsstring) :
  truthy path = true →
  detectTransportStream buf = true →
  getStreamingContentType P path (Some buf) fallback = MP2T.
Proof. apply getStreamingContentType_signature. Qed.

Lemma X7_signature_overrides_witness :
  getStreamingContentType (Reference.platform Reference.unreachable)
    (js "https://cdn.example.com/live/index.m3u8") (Some twoPackets)
    (Some MPEGURL) = MP2T.
Proof.
  apply X7_signature_overrides; vm_compute; reflexivity.
Defined.

(** X8. What [getStreamingContentType] can answer, and why.  The answer
    is never the empty string.  It is the playlist type only if the path
    has a playlist extension (and the buffer, if given, begins with [#E])
    or the fallback already said so; it is [video/mp2t] only if the
    buffer passes [detectTransportStream], the path passes [isTsSegment],
    or the fallback already said so; in every other case it is the
    fallback, or [application/octet-stream] when the fallback is missing
    or empty.  An empty path always gives the fallback. *)
Theorem X8_classification_sound (P : Platform) (path : jsstring)
    (buffer : option bytes) (fallback : option jsstring) :
  let t := getStreamingContentType P path buffer fallback in
  truthy t = true ∧
  (t = MPEGURL →
     (isM3u8Playlist P path = true ∧
      match buffer with
      | Some buf => buf !! 0%nat = Some Byte.x23 ∧ buf !! 1%nat = Some Byte.x45
      | None => True
      end) ∨
     orOctetStream fallback = MPEGURL) ∧
  (t = MP2T →
     (∃ buf, buffer = Some buf ∧ detectTransportStream buf = true) ∨
     isTsSegment P path = true ∨
     orOctetStream fallback = MP2T) ∧
  (t ≠ MPEGURL → t ≠ MP2T → t = orOctetStream fallback) ∧
  (path = [] → t = orOctetStream fallback).
Proof.
  intros t. subst t. unfold getStreamingContentType.
  destruct (truthy path) eqn:Hp; cbn [negb].
  2:{ pose proof (truthy_orOctetStream fallback). repeat split; auto. }
  assert (path ≠ []) as Hne by (by destruct path).
  destruct (playlistByExtension P path buffer) as [t|] eqn:E.
  { apply playlistByExtension_cases in E as (-> & Hpl & Hb).
    repeat split; try done. by left. }
  assert (∀ d : bool, (if d then MP2T else
                if isTsSegment P path then MP2T else orOctetStream fallback) =
               (if d || isTsSegment P path then MP2T else orOctetStream fallback))
    as Hif by (by intros []).
  set (d := match buffer with Some buf => detectTransportStream buf | None => false end).
  assert ((if match buffer with
              | Some buf => hasSuspiciousExtension P path && detectTransportStream buf
              | None => false
              end
           then MP2T
           else if d then MP2T
           else if isTsSegment P path then MP2T else orOctetStream fallback) =
          (if d || isTsSegment P path then MP2T else orOctetStream fallback)) as ->.
  { rewrite <- Hif. subst d. destruct buffer as [buf|]; [|done].
    by destruct (hasSuspiciousExtension P path), (detectTransportStream buf). }
  destruct (d || isTsSegment P path) eqn:Hd.
  - split; [done|]. split; [discriminate|]. split; [|split; done].
    intros _. apply orb_true_iff in Hd as [Hd|Hd]; [left|by right; left].
    subst d. destruct buffer as [buf|]; [eauto|done].
  - split; [apply truthy_orOctetStream|]. repeat split; auto.
Qed.

Lemma X8_classification_sound_witness :
  let t := getStreamingContentType (Reference.platform Reference.unreachable)
             (js "https://cdn.example.com/a/logo.png") (Some [Byte.x89])
             (Some (js "image/png")) in
  t = js "image/png".
Proof.
  intros t.
  pose proof (X8_classification_sound (Reference.platform Reference.unreachable)
                (js "https://cdn.example.com/a/logo.png") (Some [Byte.x89])
                (Some (js "image/png"))) as (_ & _ & _ & H & _).
  apply H; vm_compute; discriminate.
Defined.

(** X9. A path that passes [isTsSegment] -- by one of the extensions
    [.ts], [.mts], [.m2ts], [.mp2t], or as a disguised segment (a
    segment-like name with an image, script or text extension) -- is never
    taken for a playlist, and is classified [video/mp2t] whatever the
    buffer holds and whatever the fallback says. *)
Theorem X9_segment_path_decides (P : Platform) (path : jsstring)
    (buffer : option bytes) (fallback : option jsstring) :
  isTsSegment P path = true →
  isM3u8Playlist P path = false ∧
  getStreamingContentType P path buffer fallback = MP2T.
Proof.
  intros Hts. pose proof (isTsSegment_not_playlist P path Hts) as Hnp.
  split; [done|].
  unfold getStreamingContentType, playlistByExtension.
  rewrite (isTsSegment_truthy P path Hts), Hnp, Hts. cbn [negb].
  destruct buffer as [buf|]; [|done].
  by destruct (hasSuspiciousExtension P path && detectTransportStream buf),
              (detectTransportStream buf).
Qed.

Lemma X9_segment_path_decides_witness :
  getStreamingContentType (Reference.platform Reference.unreachable)
    (js "https://cdn.example.com/v/seg-12.jpg") (Some [Byte.xff; Byte.xd8])
    (Some (js "image/jpeg")) = MP2T.
Proof.
  apply X9_segment_path_decides. vm_compute. reflexivity.
Defined.

(** ** The template table (domain-templates.ts) *)

Lemma asciiLower_idem (d : N) : asciiLower (asciiLower d) = asciiLower d.
Proof.
  unfold asciiLower. destruct ((65 <=? d) && (d <=? 90)) eqn:E; [|by rewrite E].
  bool_to_prop.
  replace ((65 <=? d + 32) && (d + 32 <=? 90)) with false; [done|].
  symmetry. apply andb_false_iff. right. apply N.leb_gt. lia.
Qed.

Lemma asciiLower_digit (d : N) :
  (48 <=? asciiLower d) && (asciiLower d <=? 57) = (48 <=? d) && (d <=? 57).
Proof.
  unfold asciiLower. destruct ((65 <=? d) && (d <=? 90)) eqn:E; [|done].
  bool_to_prop.
  replace (d <=? 57) with false by (symmetry; apply N.leb_gt; lia).
  replace (d + 32 <=? 57) with false by (symmetry; apply N.leb_gt; lia).
  by rewrite !andb_false_r.
Qed.

Lemma deriv_asciiLower (d : N) (r : re) :
  deriv true (asciiLower d) r = deriv true d r.
Proof.
  induction r as [| |c| | |a IHa b IHb|a IHa b IHb|a IHa]; cbn [deriv]; try done.
  - unfold chrMatches. by rewrite asciiLower_idem.
  - by rewrite asciiLower_digit.
  - by rewrite IHa, IHb.
  - by rewrite IHa, IHb.
  - by rewrite IHa.
Qed.

Lemma matchesPrefix_asciiLower (r : re) (s : jsstring) :
  matchesPrefix true r (asciiLower <$> s) = matchesPrefix true r s.
Proof.
  revert r. induction s as [|d s IH]; intros r; [done|].
  cbn [fmap list_fmap matchesPrefix]. f_equal.
  rewrite deriv_asciiLower. apply IH.
Qed.

Lemma searchFrom_asciiLower (r : re) (s : jsstring) :
  searchFrom true r (asciiLower <$> s) = searchFrom true r s.
Proof.
  induction s as [|d s IH].
  - done.
  - change (asciiLower <$> d :: s) with (asciiLower d :: (asciiLower <$> s)).
    cbn [searchFrom]. rewrite IH. f_equal.
    apply (matchesPrefix_asciiLower r (d :: s)).
Qed.

Lemma RegExp_test_ignoreCase (p : RegExp) (h h' : jsstring) :
  re_ignoreCase p = true →
  asciiLower <$> h = asciiLower <$> h' →
  RegExp_test p h = RegExp_test p h'.
Proof.
  unfold RegExp_test. intros -> Hh.
  by rewrite <- (searchFrom_asciiLower _ h), Hh, searchFrom_asciiLower.
Qed.

Lemma findDomainTemplateIn_ext (templates : list DomainTemplate) (h h' : jsstring) :
  Forall (λ t, RegExp_test (pattern t) h = RegExp_test (pattern t) h') templates →
  findDomainTemplateIn templates h = findDomainTemplateIn templates h'.
Proof.
  unfold findDomainTemplateIn.
  induction 1 as [|t ts Ht _ IH]; [done|].
  cbn [find]. by rewrite Ht, IH.
Qed.

Lemma domainTemplates_ignoreCase :
  Forall (λ t, re_ignoreCase (pattern t) = true) domainTemplates.
Proof.
  apply Forall_forall. intros t Ht.
  assert (forallb (λ t, re_ignoreCase (pattern t)) domainTemplates = true) as H
    by (vm_compute; reflexivity).
  rewrite forallb_forall in H. apply H. by apply list_elem_of_In.
Qed.

(** X10. Template lookup does not depend on the letter case of the host
    name: two host names that agree up to the case of their ASCII letters
    get the same template (or both none), since every pattern of the
    table carries the [i] flag. *)
Theorem X10_template_lookup_ignores_case (h h' : jsstring) :
  asciiLower <$> h = asciiLower <$> h' →
  findDomainTemplate h = findDomainTemplate h'.
Proof.
  intros Hh. apply findDomainTemplateIn_ext.
  eapply Forall_impl; [apply domainTemplates_ignoreCase|].
  intros t Ht. by apply RegExp_test_ignoreCase.
Qed.

Lemma X10_template_lookup_ignores_case_witness :
  findDomainTemplate (js "CDN.Padorupado.RU") =
  findDomainTemplate (js "cdn.padorupado.ru").
Proof.
  apply X10_template_lookup_ignores_case. vm_compute. reflexivity.
Defined.

(** The templates of the table that change a header other than [origin]
    and [referer]: there is none. *)
Lemma domainTemplates_plain :
  Forall (λ t, applyTemplate t defaultHeaders =
               <[js "referer" := referer t]> (<[js "origin" := origin t]> defaultHeaders))
         domainTemplates.
Proof.
  apply Forall_forall. intros t Ht.
  assert (forallb (λ t, bool_decide
            (applyTemplate t defaultHeaders =
             <[js "referer" := referer t]> (<[js "origin" := origin t]> defaultHeaders)))
            domainTemplates = true) as H by (vm_compute; reflexivity).
  rewrite forallb_forall in H.
  apply list_elem_of_In, H in Ht. by apply bool_decide_eq_true in Ht.
Qed.

(** X11. With the table as shipped, the headers sent upstream are the
    six defaults, [host], and -- exactly when the pattern of some entry
    tests true on the host name -- the [origin] and [referer] of the first
    entry in table order whose pattern does.  No entry of the table
    replaces the user agent or any other default: the one
    [additionalHeaders] block (for [douvid.xyz]) repeats the defaults. *)
Theorem X11_shipped_table_headers (url : URL) :
  let matches := λ t : DomainTemplate, RegExp_test (pattern t) (hostname url) = true in
  let misses := λ t : DomainTemplate, RegExp_test (pattern t) (hostname url) = false in
  (∀ before T after,
     domainTemplates = before ++ T :: after →
     Forall misses before → matches T →
     generateHeaders url =
       <[js "host" := host url]>
         (<[js "referer" := referer T]> (<[js "origin" := origin T]> defaultHeaders))) ∧
  (Forall misses domainTemplates →
     generateHeaders url = <[js "host" := host url]> defaultHeaders) ∧
  generateHeaders url !! js "user-agent" = Some DEFAULT_USER_AGENT ∧
  (is_Some (generateHeaders url !! js "origin") ↔ Exists matches domainTemplates) ∧
  (is_Some (generateHeaders url !! js "referer") ↔ Exists matches domainTemplates) ∧
  generateHeaders url =
    <[js "host" := host url]>
      (match findDomainTemplate (hostname url) with
       | Some t => <[js "referer" := referer t]>
                     (<[js "origin" := origin t]> defaultHeaders)
       | None => defaultHeaders
       end).
Proof.
  intros matches misses.
  assert (generateHeaders url =
          <[js "host" := host url]>
            (match findDomainTemplate (hostname url) with
             | Some t => <[js "referer" := referer t]>
                           (<[js "origin" := origin t]> defaultHeaders)
             | None => defaultHeaders
             end)) as Heq.
  { unfold generateHeaders, generateHeadersIn, findDomainTemplate.
    destruct (findDomainTemplateIn domainTemplates (hostname url)) as [t|] eqn:E; [|done].
    f_equal. apply findDomainTemplateIn_first in E as (before & after & Ht & _).
    pose proof domainTemplates_plain as Hall. rewrite Ht in Hall.
    rewrite Forall_app, Forall_cons in Hall. by destruct Hall as (_ & ? & _). }
  assert (Exists matches domainTemplates ↔
          is_Some (findDomainTemplate (hostname url))) as Hex.
  { split.
    - intros (T0 & Hin & H0)%Exists_exists.
      destruct (findDomainTemplateIn_match domainTemplates T0 (hostname url) Hin H0)
        as (before & T & after & Ht & Hb & HT).
      exists T. by apply findDomainTemplateIn_found with before after.
    - intros [T HT]. apply findDomainTemplateIn_first in HT as (before & after & Ht & HT & _).
      apply Exists_exists. exists T. split; [|done].
      rewrite Ht. apply elem_of_app. right. apply list_elem_of_here. }
  split; [|split; [|split; [|split; [|split; [|exact Heq]]]]].
  - intros before T after Ht Hb HT. rewrite Heq. unfold findDomainTemplate.
    by rewrite (findDomainTemplateIn_found _ before after T _ Ht Hb HT).
  - intros Hnone. rewrite Heq. unfold findDomainTemplate.
    apply findDomainTemplateIn_none in Hnone. by rewrite Hnone.
  - rewrite Heq. destruct (findDomainTemplate (hostname url));
      rewrite !lookup_insert_ne by discriminate; exact defaultHeaders_user_agent.
  - rewrite Hex, Heq. destruct (findDomainTemplate (hostname url)) as [t|].
    + rewrite lookup_insert_ne by discriminate.
      rewrite lookup_insert_ne by discriminate.
      rewrite lookup_insert_eq. split; eauto.
    + rewrite lookup_insert_ne by discriminate.
      split; intros [x Hx]; [vm_compute in Hx|]; discriminate.
  - rewrite Hex, Heq. destruct (findDomainTemplate (hostname url)) as [t|].
    + rewrite lookup_insert_ne by discriminate.
      rewrite lookup_insert_eq. split; eauto.
    + rewrite lookup_insert_ne by discriminate.
      split; intros [x Hx]; [vm_compute in Hx|]; discriminate.
Qed.

(** A host under [akamaized.net] matches the seventh entry and none
    before it. *)
Lemma X11_shipped_table_headers_witness :
  let url := {| href := js "https://x.akamaized.net/a.m3u8";
                protocol := js "https:"; host := js "x.akamaized.net";
                hostname := js "x.akamaized.net" |} in
  generateHeaders url =
    <[js "host" := js "x.akamaized.net"]>
      (<[js "referer" := js "https://bl.krussdomi.com/"]>
         (<[js "origin" := js "https://bl.krussdomi.com"]> defaultHeaders)).
Proof.
  intros url.
  destruct (X11_shipped_table_headers url) as (H & _).
  apply (H (take 6 domainTemplates)
           (template (suffix_i ".akamaized.net") "https://bl.krussdomi.com"
              "https://bl.krussdomi.com/")
           (drop 7 domainTemplates)).
  - reflexivity.
  - apply misses_check. vm_compute. reflexivity.
  - vm_compute. reflexivity.
Defined.

(** ** The fetch helper (proxy.ts, [proxyUrl]) *)







(** ** The playlist rewriter (proxy.ts, [processM3u8]) *)

Lemma joinLines_cons (l : jsstring) (ls : list jsstring) :
  ls ≠ [] → joinLines (l :: ls) = l ++ LF :: joinLines ls.
Proof. by destruct ls. Qed.

Lemma consLine_length (c : N) (ls : list jsstring) :
  ls ≠ [] → length (consLine c ls) = length ls.
Proof. by destruct ls. Qed.

Lemma joinLines_consLine (c : N) (ls : list jsstring) :
  ls ≠ [] → joinLines (consLine c ls) = c :: joinLines ls.
Proof. destruct ls as [|l [|l' ls]]; done. Qed.

Lemma crlfToLf_LF (t : jsstring) : crlfToLf (LF :: t) = LF :: crlfToLf t.
Proof. by destruct t. Qed.

Lemma joinLines_splitLines_aux (n : nat) (t : jsstring) :
  (length t <= n)%nat → joinLines (splitLines t) = crlfToLf t.
Proof.
  revert t. induction n as [|n IH]; intros [|c t] Hn; simpl in Hn; try done; try lia.
  cbn [splitLines].
  destruct (c =? LF) eqn:Ec.
  { bool_to_prop. subst c.
    rewrite joinLines_cons by apply splitLines_nonempty.
    rewrite crlfToLf_LF, IH by lia. done. }
  destruct t as [|d t'].
  { done. }
  destruct ((c =? CR) && (d =? LF)) eqn:Ecd.
  - bool_to_prop. subst c d.
    rewrite joinLines_cons by apply splitLines_nonempty.
    simpl in Hn. rewrite IH by lia.
    change (crlfToLf (CR :: LF :: t')) with (crlfToLf (LF :: t')).
    by rewrite crlfToLf_LF.
  - rewrite joinLines_consLine by apply splitLines_nonempty.
    rewrite IH by lia. cbn [crlfToLf]. by rewrite Ecd.
Qed.

(** Splitting into lines and joining them again turns CR LF into LF and
    changes nothing else. *)
Lemma joinLines_splitLines (t : jsstring) :
  joinLines (splitLines t) = crlfToLf t.
Proof. by apply (joinLines_splitLines_aux (length t)). Qed.

Lemma crlfToLf_id (t : jsstring) : CR ∉ t → crlfToLf t = t.
Proof.
  induction t as [|c t IH]; [done|]. intros [Hc Ht]%not_elem_of_cons.
  cbn [crlfToLf]. destruct t as [|d t']; [done|].
  replace (c =? CR) with false by (symmetry; by apply N.eqb_neq).
  cbn [andb]. by rewrite IH.
Qed.

Lemma splitLines_app_LF_length (l rest : jsstring) :
  LF ∉ l → length (splitLines (l ++ LF :: rest)) = S (length (splitLines rest)).
Proof.
  induction l as [|c l IH]; intros Hl.
  - done.
  - apply not_elem_of_cons in Hl as [Hc Hl].
    cbn [app splitLines].
    replace (c =? LF) with false by (symmetry; by apply N.eqb_neq).
    destruct l as [|d l'].
    + cbn [app]. rewrite N.eqb_refl, andb_true_r.
      destruct (c =? CR); [done|].
      rewrite consLine_length by apply splitLines_nonempty. done.
    + cbn [app]. apply not_elem_of_cons in Hl as Hl'. destruct Hl' as [Hd _].
      replace (d =? LF) with false by (symmetry; by apply N.eqb_neq).
      rewrite andb_false_r.
      rewrite consLine_length by apply splitLines_nonempty.
      by apply IH.
Qed.

Lemma splitLines_joinLines_length (ls : list jsstring) :
  ls ≠ [] → Forall (λ l, LF ∉ l) ls →
  length (splitLines (joinLines ls)) = length ls.
Proof.
  induction ls as [|l ls IH]; [done|]. intros _ HF.
  apply Forall_cons in HF as [Hl HF].
  destruct ls as [|l' ls].
  - cbn [joinLines]. by rewrite splitLines_no_LF.
  - rewrite joinLines_cons by done.
    rewrite splitLines_app_LF_length by done.
    rewrite IH; done.
Qed.

Lemma getSubstitution_no_char_aux (x : N) (n : nat) (m b a r : jsstring) :
  (length r <= n)%nat →
  x ∉ m → x ∉ b → x ∉ a → x ∉ r → x ∉ getSubstitution m b a r.
Proof.
  revert r. induction n as [|n IH]; intros [|c r] Hn Hm Hb Ha Hr;
    simpl in Hn; try lia; cbn [getSubstitution]; try done.
  apply not_elem_of_cons in Hr as [Hc Hr].
  destruct (c =? DOLLAR).
  - destruct r as [|d r'].
    + by apply not_elem_of_cons.
    + apply not_elem_of_cons in Hr as Hr'. destruct Hr' as [Hd Hr'].
      simpl in Hn.
      repeat case_match;
        rewrite ?not_elem_of_cons, ?not_elem_of_app;
        repeat split; try done; try (apply IH; (done || lia)); try (unfold DOLLAR; congruence).
      all: try (apply IH; [simpl; lia|done..]).
      bool_to_prop. by subst d.
  - apply not_elem_of_cons. split; [done|]. apply IH; (done || lia).
Qed.

Lemma getSubstitution_no_char (x : N) (m b a r : jsstring) :
  x ∉ m → x ∉ b → x ∉ a → x ∉ r → x ∉ getSubstitution m b a r.
Proof. by apply (getSubstitution_no_char_aux x (length r)). Qed.

Lemma not_elem_of_take_drop (x : N) (i : nat) (s : jsstring) :
  x ∉ s → (x ∉ take i s) ∧ (x ∉ drop i s).
Proof.
  intros Hs. rewrite <- (take_drop i s) in Hs. by apply not_elem_of_app in Hs.
Qed.

Lemma replaceFirst_no_char (x : N) (s pat rep : jsstring) :
  x ∉ s → x ∉ rep → x ∉ replaceFirst s pat rep.
Proof.
  intros Hs Hr. unfold replaceFirst.
  destruct (indexOf s pat) as [i|] eqn:E; [|done].
  apply indexOf_Some, startsWith_prefix in E as [rest E].
  destruct (not_elem_of_take_drop x i s Hs) as [Ht Hd].
  destruct (not_elem_of_take_drop x (i + length pat) s Hs) as [_ Hd'].
  rewrite E in Hd. apply not_elem_of_app in Hd as [Hp _].
  rewrite !not_elem_of_app. repeat split; try done.
  by apply getSubstitution_no_char.
Qed.

Lemma foldM_invariant {A B} (f : B → A → outcome B) (Inv : B → Prop)
    (acc : B) (xs : list A) (r : B) :
  (∀ b x b', Inv b → f b x = Ret b' → Inv b') →
  Inv acc → foldM f acc xs = Ret r → Inv r.
Proof.
  intros Hstep. revert acc. induction xs as [|x xs IH]; intros acc Hacc; cbn [foldM].
  - by intros [= <-].
  - destruct (f acc x) as [acc'|e] eqn:E; simpl; [|done].
    apply IH. by eapply Hstep.
Qed.

Section RewriterFacts.
Context (P : Platform) (U : URL) (bp p : jsstring).

Lemma proxiedReference_no_LF ref r :
  LF ∉ p → proxiedReference P U bp p ref = Ret r → LF ∉ r.
Proof.
  intros Hp Hr. apply proxiedReference_form in Hr as (enc & -> & HF).
  destruct not_encodedChar_specials as (HL & _).
  apply proxied_no_char; try done. unfold LF. vm_compute. set_solver.
Qed.

Lemma rewriteUriAttr_no_LF acc v acc' :
  LF ∉ p → LF ∉ acc → rewriteUriAttr P U bp p acc v = Ret acc' → LF ∉ acc'.
Proof.
  intros Hp Hacc. unfold rewriteUriAttr.
  destruct (startsWith v p); [by intros [= <-]|].
  destruct (proxiedReference P U bp p v) as [r|e] eqn:Hr; simpl;
    intros [= <-]; [|done].
  apply replaceFirst_no_char; [done|].
  apply uriAttr_no_LF. by eapply proxiedReference_no_LF.
Qed.

Lemma processLine_no_LF line o :
  LF ∉ p → LF ∉ line → processLine P U bp p line = Ret o → LF ∉ o.
Proof.
  intros Hp Hl. unfold processLine.
  destruct (startsWith (trim line) [HASH]).
  - destruct (includes line URI_OPEN); [|by intros [= <-]].
    apply (foldM_invariant _ (λ s, LF ∉ s)); [|done].
    intros b x b' Hb. by apply rewriteUriAttr_no_LF.
  - case_bool_decide; [|by intros [= <-]].
    destruct (startsWith (trim line) p); [by intros [= <-]|].
    destruct (proxiedReference P U bp p (trim line)) as [r|e] eqn:Hr; simpl;
      intros [= <-]; [|done].
    by eapply proxiedReference_no_LF.
Qed.

Lemma processLine_settled line :
  settledLine p line → processLine P U bp p line = Ret line.
Proof.
  unfold processLine. intros [Hb|[[Hh Hu]|[Hh Hp]]].
  - by rewrite Hb.
  - by rewrite Hh, Hu.
  - rewrite Hh, Hp. by case_bool_decide.
Qed.
End RewriterFacts.

(** X14. Every proxied reference is the proxy path, [?url=], and a value
    made only of the characters [encodeURIComponent] can produce
    (unreserved characters and [%XX] escapes).  The value therefore holds
    none of [& # ? = / : +], no space, double quote, line break or dollar
    sign: the target URL stays one query parameter and cannot break out
    of the attribute or the line it is written into. *)
Theorem X14_proxied_reference_shape (P : Platform) (U : URL)
    (bp p ref r : jsstring) :
  proxiedReference P U bp p ref = Ret r →
  ∃ enc, r = p ++ js "?url=" ++ enc ∧
         Forall encodedChar enc ∧
         ∀ c, c ∈ delimiters → c ∉ enc.
Proof.
  intros (enc & -> & HF)%proxiedReference_form.
  exists enc. split; [done|]. split; [done|].
  intros c Hc. apply Forall_encodedChar_not_in; [done|].
  change delimiters with [38; 35; 63; 61; 47; 58; 43; 32; 34; 10; 13; 36] in Hc.
  repeat (apply elem_of_cons in Hc as [->|Hc]; [unfold encodedChar; lia|]).
  by apply elem_of_nil in Hc.
Qed.

Lemma X14_proxied_reference_shape_witness :
  ∃ enc,
    js "/proxy?url=https%3A%2F%2Fcdn.example.com%2Fvideos%2Fshow%2Fsegment001.ts" =
      js "/proxy" ++ js "?url=" ++ enc ∧
    Forall encodedChar enc ∧ ∀ c, c ∈ delimiters → c ∉ enc.
Proof.
  apply (X14_proxied_reference_shape (Reference.platform Reference.unreachable)
           sourceUrlObj sourceDir (js "/proxy") (js "segment001.ts")).
  vm_compute. reflexivity.
Defined.

(** X15. References that need no resolving are proxied as written.  A
    line whose trimmed text begins with [http://] or [https://] (and not
    with the proxy path) is replaced by the proxy path, [?url=] and the
    encoding of that trimmed text; one that begins with [//] gets the
    scheme of the source URL put in front first.  In both cases the URL
    parser and the base path are not consulted, so the reference is
    neither validated nor normalised, and the white space around it is
    dropped.  Only if the text cannot be encoded (a lone surrogate) does
    the line stay as it is. *)
Theorem X15_absolute_reference_line (P : Platform) (U : URL)
    (bp p line : jsstring) :
  startsWith (trim line) p = false →
  (startsWith (trim line) (js "http://") || startsWith (trim line) (js "https://") = true →
   processLine P U bp p line =
     Ret (match encodeURIComponent (trim line) with
          | Ret enc => p ++ js "?url=" ++ enc
          | Throw _ => line
          end)) ∧
  (startsWith (trim line) (js "//") = true →
   processLine P U bp p line =
     Ret (match encodeURIComponent (protocol U ++ trim line) with
          | Ret enc => p ++ js "?url=" ++ enc
          | Throw _ => line
          end)).
Proof.
  intros Hp. split.
  - intros Habs.
    assert (∃ r, trim line = 104 :: r) as [r Hr].
    { apply orb_true_iff in Habs as [H|H];
        apply startsWith_prefix in H as [r ->]; by eexists. }
    assert (startsWith (trim line) [HASH] = false) as Hh by (by rewrite Hr).
    assert (0 < length (trim line))%nat as Hlen by (rewrite Hr; simpl; lia).
    unfold processLine, proxiedReference.
    rewrite Hh, Hp, Habs, (bool_decide_eq_true_2 _ Hlen).
    simpl. by destruct (encodeURIComponent (trim line)).
  - intros Hrel.
    assert (∃ r, trim line = 47 :: r) as [r Hr].
    { apply startsWith_prefix in Hrel as [r ->]. by eexists. }
    assert (startsWith (trim line) [HASH] = false) as Hh by (by rewrite Hr).
    assert (0 < length (trim line))%nat as Hlen by (rewrite Hr; simpl; lia).
    assert (startsWith (trim line) (js "http://") ||
            startsWith (trim line) (js "https://") = false) as Habs by (by rewrite Hr).
    unfold processLine, proxiedReference.
    rewrite Hh, Hp, Habs, Hrel, (bool_decide_eq_true_2 _ Hlen).
    simpl. by destruct (encodeURIComponent (protocol U ++ trim line)).
Qed.

Lemma X15_absolute_reference_line_witness :
  processLine (Reference.platform Reference.unreachable) sourceUrlObj sourceDir
    (js "/proxy") (js "  http://other.example/a b.ts ") =
    Ret (js "/proxy?url=http%3A%2F%2Fother.example%2Fa%20b.ts") ∧
  processLine (Reference.platform Reference.unreachable) sourceUrlObj sourceDir
    (js "/proxy") (js "//other.example/c.ts") =
    Ret (js "/proxy?url=https%3A%2F%2Fother.example%2Fc.ts").
Proof.
  split.
  - destruct (X15_absolute_reference_line (Reference.platform Reference.unreachable)
                sourceUrlObj sourceDir (js "/proxy")
                (js "  http://other.example/a b.ts ")) as [H _];
      [vm_compute; reflexivity|].
    rewrite H; vm_compute; reflexivity.
  - destruct (X15_absolute_reference_line (Reference.platform Reference.unreachable)
                sourceUrlObj sourceDir (js "/proxy")
                (js "//other.example/c.ts")) as [_ H];
      [vm_compute; reflexivity|].
    rewrite H; vm_compute; reflexivity.
Defined.

(** X16. What the rewriter leaves alone.  If the source URL parses and
    every line is blank, a directive without a URI attribute, or a
    reference that already begins with the proxy path, the output is the
    input with each CR LF turned into LF and nothing else changed; in
    particular a text without carriage returns comes back unchanged. *)
Theorem X16_settled_playlist (P : Platform) (t u p : jsstring) (U : URL) :
  new_URL P u None = Ret U →
  Forall (settledLine p) (splitLines t) →
  processM3u8 P t u p = Ret (crlfToLf t) ∧
  (CR ∉ t → processM3u8 P t u p = Ret t).
Proof.
  intros HU Hall.
  assert (processM3u8 P t u p = Ret (crlfToLf t)) as Heq.
  { rewrite <- joinLines_splitLines. apply (processM3u8_ok P t u p U); [done|].
    apply Forall2_same. eapply Forall_impl; [exact Hall|].
    intros line Hl. by apply processLine_settled. }
  split; [done|]. intros Hcr. by rewrite Heq, crlfToLf_id.
Qed.

Lemma X16_settled_playlist_witness :
  let t := js "#EXTM3U" ++ [CR; LF] ++ js "#EXT-X-VERSION:3" ++ [LF] ++
           js "/proxy?url=x" ++ [LF] in
  processM3u8 (Reference.platform Reference.unreachable) t sourceUrl (js "/proxy") =
  Ret (js "#EXTM3U" ++ [LF] ++ js "#EXT-X-VERSION:3" ++ [LF] ++
       js "/proxy?url=x" ++ [LF]).
Proof.
  intros t.
  apply (X16_settled_playlist (Reference.platform Reference.unreachable) t sourceUrl
           (js "/proxy") sourceUrlObj).
  - vm_compute. reflexivity.
  - repeat (apply Forall_cons_2; [vm_compute; tauto|]). apply Forall_nil_2.
Defined.

(** X17. The rewrite keeps the line structure: provided the proxy path
    holds no line feed, the output has exactly as many lines as the input
    (a reference, however it is encoded, never spills onto a second line
    and no line is dropped or merged). *)
Theorem X17_line_count (P : Platform) (t u p out : jsstring) :
  LF ∉ p →
  processM3u8 P t u p = Ret out →
  length (splitLines out) = length (splitLines t).
Proof.
  intros Hp Hout.
  destruct (new_URL P u None) as [U|e] eqn:HU.
  2:{ rewrite (processM3u8_bad_base P t u p e HU) in Hout. by injection Hout as <-. }
  destruct (processM3u8_lines P t u p U HU) as (outs & Heq & HF).
  rewrite Heq in Hout. injection Hout as <-.
  pose proof (Forall2_length _ _ _ HF) as Hlen.
  rewrite splitLines_joinLines_length; [done| |].
  - intros ->. pose proof (splitLines_nonempty t). by destruct (splitLines t).
  - pose proof (splitLines_lines_no_LF t) as Hin.
    clear Heq Hlen. induction HF as [|line o ls os Hlo _ IH]; [done|].
    apply Forall_cons in Hin as [Hl Hin].
    apply Forall_cons_2; [|by apply IH].
    exact (processLine_no_LF P U (basePathOf u) p line o Hp Hl Hlo).
Qed.

Lemma X17_line_count_witness :
  length (splitLines
            (js "#EXTM3U" ++ [LF] ++
             js "/proxy?url=https%3A%2F%2Fcdn.example.com%2Fvideos%2Fshow%2Fa.ts")) =
  length (splitLines (js "#EXTM3U" ++ [CR; LF] ++ js "a.ts")).
Proof.
  apply (X17_line_count (Reference.platform Reference.unreachable) _ sourceUrl
           (js "/proxy")).
  - vm_compute. set_solver.
  - vm_compute. reflexivity.
Defined.

(** ** The base path of relative references (proxy.ts, lines 120-126) *)

Lemma lastIndexOf_from_notin (i : Z) (s : jsstring) (c : N) (found : Z) :
  c ∉ s → lastIndexOf_from i s c found = found.
Proof.
  revert i. induction s as [|a s IH]; intros i Hs; [done|].
  apply not_elem_of_cons in Hs as [Ha Hs]. cbn [lastIndexOf_from].
  replace (a =? c) with false by (symmetry; apply N.eqb_neq; congruence).
  by apply IH.
Qed.

Lemma lastIndexOf_from_app (i : Z) (a b : jsstring) (c : N) (found : Z) :
  lastIndexOf_from i (a ++ b) c found =
  lastIndexOf_from (i + Z.of_nat (length a)) b c (lastIndexOf_from i a c found).
Proof.
  revert i found. induction a as [|x a IH]; intros i found.
  - cbn [app length lastIndexOf_from]. by rewrite Z.add_0_r.
  - cbn [app length lastIndexOf_from]. rewrite IH. f_equal. lia.
Qed.

Lemma lastIndexOf_last (a b : jsstring) (c : N) :
  c ∉ b → lastIndexOf (a ++ c :: b) c = Z.of_nat (length a).
Proof.
  intros Hb. unfold lastIndexOf. rewrite lastIndexOf_from_app.
  cbn [lastIndexOf_from]. rewrite N.eqb_refl.
  by rewrite lastIndexOf_from_notin.
Qed.

Lemma endsWith_single (s : jsstring) (c : N) :
  endsWith s [c] = true ↔ last s = Some c.
Proof.
  split.
  - intros H. by apply endsWith_last in H.
  - intros (s' & ->)%last_Some. apply endsWith_app.
Qed.

(** X18. The base path.  For a source URL ending in [.m3u8] it is the
    URL up to and including its last slash -- the directory of the
    playlist -- and empty when the URL has no slash at all.  For any other
    URL it is the URL itself with a slash appended unless it ends in one
    (so a playlist URL with a query string is treated as a directory).
    In every case the base path is empty or ends in a slash, and a base
    path that ends in a slash is its own base path. *)
Theorem X18_basePathOf_shape (u : jsstring) :
  (endsWith u (js ".m3u8") = true →
     (47 ∉ u → basePathOf u = []) ∧
     (∀ dir file, u = dir ++ 47 :: file → 47 ∉ file → basePathOf u = dir ++ [47])) ∧
  (endsWith u (js ".m3u8") = false →
     basePathOf u = if endsWith u (js "/") then u else u ++ js "/") ∧
  (basePathOf u = [] ∨ last (basePathOf u) = Some 47) ∧
  (last (basePathOf u) = Some 47 → basePathOf (basePathOf u) = basePathOf u).
Proof.
  assert (∀ v, last v = Some 47 → basePathOf v = v) as Hfix.
  { intros v Hv. unfold basePathOf.
    destruct (endsWith v (js ".m3u8")) eqn:E.
    - apply endsWith_last in E; [|done]. rewrite Hv in E. discriminate.
    - apply (endsWith_single v 47) in Hv.
      change (js "/") with [47]. by rewrite Hv. }
  assert (endsWith u (js ".m3u8") = true →
          (47 ∉ u → basePathOf u = []) ∧
          (∀ dir file, u = dir ++ 47 :: file → 47 ∉ file →
                       basePathOf u = dir ++ [47])) as Hm.
  { intros E. unfold basePathOf. rewrite E. split.
    - intros Hn. unfold lastIndexOf. by rewrite lastIndexOf_from_notin.
    - intros dir file -> Hf. rewrite lastIndexOf_last by done.
      unfold substring0.
      replace (Z.to_nat (Z.of_nat (length dir) + 1)) with (length (dir ++ [47]))
        by (rewrite length_app; simpl; lia).
      rewrite (app_cons_middle dir 47 file). by rewrite take_app_length. }
  assert (endsWith u (js ".m3u8") = false →
          basePathOf u = if endsWith u (js "/") then u else u ++ js "/") as Ho.
  { intros E. unfold basePathOf. rewrite E. by destruct (endsWith u (js "/")). }
  split; [exact Hm|]. split; [exact Ho|]. split; [|by apply Hfix].
  destruct (endsWith u (js ".m3u8")) eqn:E.
  - destruct (Hm eq_refl) as [Hnone Hsome].
    destruct (decide (47 ∈ u)) as [Hin|Hnin]; [|left; by apply Hnone].
    apply list_elem_of_split_r in Hin as (dir & file & -> & Hf).
    right. rewrite (Hsome dir file eq_refl Hf). apply last_snoc.
  - right. rewrite (Ho eq_refl).
    destruct (endsWith u (js "/")) eqn:E'.
    + by apply (endsWith_single u 47).
    + change (js "/") with [47]. apply last_snoc.
Qed.

Lemma X18_basePathOf_shape_witness :
  basePathOf (js "https://cdn.example.com/videos/show/index.m3u8") =
    js "https://cdn.example.com/videos/show" ++ [47] ∧
  basePathOf (js "https://cdn.example.com/live/index.m3u8?token=1") =
    js "https://cdn.example.com/live/index.m3u8?token=1/".
Proof.
  split.
  - pose proof (X18_basePathOf_shape
                  (js "https://cdn.example.com/videos/show/index.m3u8")) as (H & _).
    destruct H as [_ H]; [vm_compute; reflexivity|].
    apply (H (js "https://cdn.example.com/videos/show") (js "index.m3u8")).
    + reflexivity.
    + vm_compute. set_solver.
  - pose proof (X18_basePathOf_shape
                  (js "https://cdn.example.com/live/index.m3u8?token=1")) as (_ & H & _).
    rewrite H; vm_compute; reflexivity.
Defined.

(** ** The [/proxy] route (index.ts) *)

Lemma fetchAndProcess_withStatus (P : Platform) (config : Config) (s : Z)
    (url : jsstring) :
  fetchAndProcess (withStatus s P) config url = fetchAndProcess P config url.
Proof.
  unfold fetchAndProcess, proxyUrl. cbn [withStatus new_URL fetch].
  destruct (new_URL P url None) as [U|e]; [|reflexivity].
  cbn [try_catch mbind outcome_bind].
  destruct (fetch P url (generateHeaders U) true (requestTimeout config))
    as [resp|e]; reflexivity.
Qed.

(** X19. The upstream status is never looked at.  Replacing the status of
    the upstream response by any other number changes nothing in what the
    route does: the response, the cache afterwards and the headers are the
    same.  So an upstream error page (404, 500, ...) is answered with
    status 200 and cached like any other body. *)
Theorem X19_upstream_status_ignored (P : Platform) (config : Config) (s : Z)
    (query : option jsstring) (now_get now_set : Z) (c : SimpleCache) :
  handler (withStatus s P) config query now_get now_set c =
  handler P config query now_get now_set c.
Proof.
  unfold handler. destruct query as [url|]; [|done].
  destruct (negb (truthy url)); [done|].
  cbn [withStatus new_URL].
  destruct (new_URL P url None) as [U|e]; [|done].
  destruct (cache_get c url now_get) as [[[v ty]|] c1]; [done|].
  by rewrite fetchAndProcess_withStatus.
Qed.

(** An origin that answers 404 is answered with 200, and its error page is
    stored in the cache. *)
Example upstream_404_answered_200 :
  let run := handler (Reference.platform notFoundOrigin) testConfig
               (Some (js "https://cdn.example.com/missing.ts")) 0 0 SimpleCache_new in
  status (response run) = 200%Z ∧
  is_Some (cache (cacheAfter run) !! js "https://cdn.example.com/missing.ts").
Proof. vm_compute. eauto. Qed.

(** X20. A miss followed by a hit.  After a request that missed the cache
    and fetched successfully, a second request for the same URL made
    within the TTL (counted from the first request's [cache.set]) is
    answered from the cache: status 200, the same body, the stored content
    type, [X-Cache: HIT] and no [Content-Length].  It needs nothing from
    upstream -- the platform of the second request may fail every fetch --
    and it leaves the cache as it was. *)
Theorem X20_miss_then_hit (P P' : Platform) (config : Config) (url : jsstring)
    (t0 t1 t2 t3 : Z) (c : SimpleCache) (r : Processed) :
  truthy url = true →
  returns (new_URL P url None) →
  returns (new_URL P' url None) →
  (cache_get c url t0).1 = None →
  fetchAndProcess P config url = Ret r →
  (t2 - t1 <= 1000 * ttlOrDefault (cacheTtl config) (defaultTtl c))%Z →
  let run1 := handler P config (Some url) t0 t1 c in
  let run2 := handler P' config (Some url) t2 t3 (cacheAfter run1) in
  response run2 =
    {| status := 200;
       responseHeaders := [(js "Content-Type", out_contentType r);
                           (js "X-Cache", js "HIT")];
       body := BodyContent (out_content r) |} ∧
  body (response run2) = body (response run1) ∧
  cacheAfter run2 = cacheAfter run1 ∧
  resultHeaders run2 = None.
Proof.
  intros Ht [U HU] [U' HU'] Hmiss Hr Hage run1.
  assert (∃ c1, cache_get c url t0 = (None, c1) ∧ defaultTtl c1 = defaultTtl c)
    as (c1 & Hget & Hd).
  { destruct (cache_get c url t0) as [o c1] eqn:G. simpl in Hmiss. subst o.
    exists c1. split; [done|]. by eapply cache_get_defaultTtl. }
  assert (run1 =
          {| response :=
               {| status := 200;
                  responseHeaders :=
                    [(js "Content-Type", out_contentType r);
                     (js "X-Cache", js "MISS");
                     (js "Content-Length",
                      numberToString (contentLength (out_content r)))];
                  body := BodyContent (out_content r) |};
             cacheAfter := cache_set c1 url (out_content r) (out_contentType r)
                             (cacheTtl config) t1;
             resultHeaders := Some (dropContentEncoding (out_headers r)) |}) as ->.
  { subst run1. unfold handler. by rewrite Ht, HU, Hget, Hr. }
  cbn [cacheAfter response body].
  set (c2 := cache_set c1 url (out_content r) (out_contentType r) (cacheTtl config) t1).
  assert (cache_get c2 url t2 = (Some (out_content r, out_contentType r), c2)) as Hhit.
  { subst c2.
    rewrite (cache_get_live _ _ _ _ (cache_set_lookup c1 url _ _ _ t1)); [done|].
    simpl. rewrite Hd. lia. }
  unfold handler. rewrite Ht, HU', Hhit. done.
Qed.

Lemma X20_miss_then_hit_witness :
  let run1 := handler (Reference.platform disguisedOrigin) testConfig
                (Some sourceUrl) 0 0 SimpleCache_new in
  let run2 := handler (Reference.platform Reference.unreachable) testConfig
                (Some sourceUrl) 300000 300000 (cacheAfter run1) in
  response run2 =
    {| status := 200;
       responseHeaders := [(js "Content-Type", OCTET_STREAM); (js "X-Cache", js "HIT")];
       body := BodyContent (Buf [Byte.x47]) |}.
Proof.
  intros run1 run2.
  apply (X20_miss_then_hit (Reference.platform disguisedOrigin)
           (Reference.platform Reference.unreachable) testConfig sourceUrl
           0 0 300000 300000 SimpleCache_new
           {| out_content := Buf [Byte.x47]; out_contentType := OCTET_STREAM;
              out_headers := {[ js "content-type" := OCTET_STREAM ]} |}).
  - reflexivity.
  - eexists. vm_compute. reflexivity.
  - eexists. vm_compute. reflexivity.
  - reflexivity.
  - vm_compute. reflexivity.
  - vm_compute. discriminate.
Defined.



(** X22. Sniffing reads at most the first 100 bytes.  Whether a binary
    body counts as a playlist ([isActuallyM3u8]) depends only on its first
    100 bytes: two buffers that agree there get the same answer, and an
    empty buffer is never a playlist.  A body that is a string is judged
    by its trimmed text. *)
Theorem X22_sniffing_window (P : Platform) (b b' : bytes) :
  take 100 b = take 100 b' →
  isActuallyM3u8 P (Buf b) = isActuallyM3u8 P (Buf b') ∧
  isActuallyM3u8 P (Buf b) = isActuallyM3u8 P (Buf (take 100 b)) ∧
  isActuallyM3u8 P (Buf []) = false.
Proof.
  intros Heq.
  assert (∀ x : bytes, bool_decide (x ≠ []) = bool_decide (take 100 x ≠ [])) as Hne.
  { intros [|a x]; [done|]. by rewrite !bool_decide_eq_true_2. }
  rewrite !isActuallyM3u8_marker. split; [|split]; [| |done].
  - by rewrite (Hne b), (Hne b'), Heq.
  - rewrite take_take. by rewrite <- (Hne b).
Qed.

Lemma X22_sniffing_window_witness :
  isActuallyM3u8 (Reference.platform Reference.unreachable)
    (Buf (replicate 100 Byte.x23 ++ [Byte.x00])) =
  isActuallyM3u8 (Reference.platform Reference.unreachable)
    (Buf (replicate 100 Byte.x23 ++ [Byte.xff; Byte.xff])).
Proof.
  apply X22_sniffing_window. vm_compute. reflexivity.
Defined.

(** X25. A request touches no entry but its own.  Whatever the outcome,
    the cache entry of every URL other than the requested one is the same
    before and after, the default TTL is unchanged, and the number of
    entries grows by at most one. *)
Theorem X25_handler_frame (P : Platform) (config : Config)
    (query : option jsstring) (now_get now_set : Z) (c : SimpleCache) :
  let run := handler P config query now_get now_set c in
  (∀ k, query ≠ Some k → cache (cacheAfter run) !! k = cache c !! k) ∧
  defaultTtl (cacheAfter run) = defaultTtl c ∧
  (getStats (cacheAfter run) ≤ S (getStats c))%nat.
Proof.
  intros run. subst run.
  pose proof (handler_cases P config query now_get now_set c) as Hcases.
  cbv zeta in Hcases.
  destruct Hcases as [(_ & Hc & _)|(url & -> & Ht & HU & Hcase)].
  { rewrite Hc. split; [done|]. split; [done|lia]. }
  destruct Hcase as [(v & ty & _ & ->)|(c1 & Hget & Hrun)].
  { cbn [cacheAfter]. split; [done|]. split; [done|lia]. }
  pose proof (cache_get_sound _ _ _ _ _ Hget) as (Hk & Hother & _).
  pose proof (cache_get_defaultTtl _ _ _ _ _ Hget) as Hd.
  assert (getStats c1 ≤ getStats c)%nat as Hsize.
  { unfold cache_get in Hget. destruct (cache c !! url) as [e|] eqn:E.
    - destruct (expired now_get e); [|discriminate Hget].
      injection Hget as <-. unfold getStats. cbn [cache].
      rewrite map_size_delete, E. lia.
    - by injection Hget as <-. }
  destruct (fetchAndProcess P config url) as [r|e]; rewrite Hrun; cbn [cacheAfter].
  - split; [|split].
    + intros k Hk'. cbn [cache_set cache].
      rewrite lookup_insert_ne by congruence. apply Hother. congruence.
    + done.
    + unfold getStats in *. cbn [cache_set cache].
      rewrite map_size_insert_None by done. lia.
  - split; [|split]; [|done|lia].
    intros k Hk'. apply Hother. congruence.
Qed.

Lemma X25_handler_frame_witness :
  let c := cache_set SimpleCache_new (js "https://cdn.example.com/other.ts")
             (Buf [Byte.x47]) MP2T None 0 in
  let run := handler (Reference.platform disguisedOrigin) testConfig
               (Some sourceUrl) 5 5 c in
  cache (cacheAfter run) !! js "https://cdn.example.com/other.ts" =
  cache c !! js "https://cdn.example.com/other.ts".
Proof.
  intros c run.
  apply (X25_handler_frame (Reference.platform disguisedOrigin) testConfig
           (Some sourceUrl) 5 5 c).
  discriminate.
Defined.

(** X26. An expired entry is never served.  After a request that missed
    the cache and fetched successfully, a second request for the same URL
    made after the TTL has passed is not answered from the cache: it goes
    upstream again.  If that fails, the answer is 500 and the stale copy
    is gone from the cache; if it succeeds, the fresh result is served and
    stored with the time of the second request. *)
Theorem X26_expired_entry_refetched (P P' : Platform) (config : Config)
    (url : jsstring) (t0 t1 t2 t3 : Z) (c : SimpleCache) (r : Processed) :
  truthy url = true →
  returns (new_URL P url None) →
  returns (new_URL P' url None) →
  (cache_get c url t0).1 = None →
  fetchAndProcess P config url = Ret r →
  (1000 * ttlOrDefault (cacheTtl config) (defaultTtl c) < t2 - t1)%Z →
  let run1 := handler P config (Some url) t0 t1 c in
  let run2 := handler P' config (Some url) t2 t3 (cacheAfter run1) in
  (js "X-Cache", js "HIT") ∉ responseHeaders (response run2) ∧
  (∀ e, fetchAndProcess P' config url = Throw e →
     response run2 = json 500 [(js "error", error_message e); (js "url", url)] ∧
     cache (cacheAfter run2) !! url = None) ∧
  (∀ r', fetchAndProcess P' config url = Ret r' →
     status (response run2) = 200%Z ∧
     body (response run2) = BodyContent (out_content r') ∧
     cache (cacheAfter run2) !! url =
       Some {| content := out_content r'; contentType := out_contentType r';
               timestamp := t3;
               ttl := ttlOrDefault (cacheTtl config) (defaultTtl c) |}).
Proof.
  intros Ht [U HU] [U' HU'] Hmiss Hr Hage run1.
  assert (∃ c1, cache_get c url t0 = (None, c1) ∧ defaultTtl c1 = defaultTtl c)
    as (c1 & Hget & Hd).
  { destruct (cache_get c url t0) as [o c1] eqn:G. simpl in Hmiss. subst o.
    exists c1. split; [done|]. by eapply cache_get_defaultTtl. }
  assert (cacheAfter run1 =
          cache_set c1 url (out_content r) (out_contentType r) (cacheTtl config) t1)
    as ->.
  { subst run1. unfold handler. by rewrite Ht, HU, Hget, Hr. }
  clear run1.
  set (c2 := cache_set c1 url (out_content r) (out_contentType r) (cacheTtl config) t1).
  assert (cache_get c2 url t2 = (None, cache_delete c2 url)) as Hexp.
  { subst c2.
    rewrite (cache_get_expired _ _ _ _ (cache_set_lookup c1 url _ _ _ t1)); [done|].
    simpl. rewrite Hd. lia. }
  intros run2. subst run2. unfold handler. rewrite Ht, HU', Hexp. cbn [negb].
  destruct (fetchAndProcess P' config url) as [r'|e]; cbn [response cacheAfter].
  - split; [|split].
    + cbn [responseHeaders]. rewrite !not_elem_of_cons.
      repeat split; try discriminate. apply not_elem_of_nil.
    + intros e. discriminate.
    + intros r'' [= <-]. cbn [status body]. split; [done|]. split; [done|].
      rewrite cache_set_lookup. cbn [cache_delete defaultTtl]. subst c2.
      cbn [cache_set defaultTtl]. by rewrite Hd.
  - split; [|split].
    + cbn [json responseHeaders]. apply not_elem_of_nil.
    + intros e' [= <-]. split; [done|]. cbn [cache_delete cache].
      apply lookup_delete_eq.
    + intros r'. discriminate.
Qed.

Lemma X26_expired_entry_refetched_witness :
  let run1 := handler (Reference.platform disguisedOrigin) testConfig
                (Some sourceUrl) 0 0 SimpleCache_new in
  let run2 := handler (Reference.platform Reference.unreachable) testConfig
                (Some sourceUrl) 300001 300001 (cacheAfter run1) in
  response run2 = json 500 [(js "error", js "request failed"); (js "url", sourceUrl)] ∧
  cache (cacheAfter run2) !! sourceUrl = None.
Proof.
  intros run1 run2.
  pose proof (X26_expired_entry_refetched (Reference.platform disguisedOrigin)
           (Reference.platform Reference.unreachable) testConfig sourceUrl
           0 0 300001 300001 SimpleCache_new
           {| out_content := Buf [Byte.x47]; out_contentType := OCTET_STREAM;
              out_headers := {[ js "content-type" := OCTET_STREAM ]} |}) as H.
  destruct H as (_ & H & _).
  - reflexivity.
  - eexists. vm_compute. reflexivity.
  - eexists. vm_compute. reflexivity.
  - reflexivity.
  - vm_compute. reflexivity.
  - vm_compute. reflexivity.
  - apply (H Reference.networkError). vm_compute. reflexivity.
Defined.

(** X27. Disguised segments are served as video.  When the fetched body
    (after the decompression step) is binary and passes
    [detectTransportStream], and the URL does not look like a playlist,
    the route hands the body on unchanged with content type [video/mp2t],
    whatever content type upstream declared (an image or script type, for
    instance) and whatever the extension of the URL. *)
Theorem X27_disguised_segment_served (P : Platform) (config : Config)
    (url : jsstring) (result : ProxyResult) (d : bytes) :
  truthy url = true →
  proxyUrl P url (requestTimeout config) = Ret result →
  decompressStage P result = Ret (Buf d) →
  detectTransportStream d = true →
  isM3u8Url P url = false →
  fetchAndProcess P config url =
    Ret {| out_content := Buf d; out_contentType := MP2T;
           out_headers := pr_headers result |}.
Proof.
  intros Ht Hp Hs Hd Hu.
  rewrite (fetchAndProcess_result P config url result (Buf d) Hp Hs).
  cbn [contentBuffer].
  rewrite (getStreamingContentType_signature P url d _ Ht Hd), Hu.
  done.
Qed.

Lemma X27_disguised_segment_served_witness :
  fetchAndProcess (Reference.platform jpegLabelledOrigin) testConfig
    (js "https://cdn.example.com/v/photo.jpg") =
  Ret {| out_content := Buf twoPackets; out_contentType := MP2T;
         out_headers := {[ js "content-type" := js "image/jpeg" ]} |}.
Proof.
  pose proof (X27_disguised_segment_served (Reference.platform jpegLabelledOrigin)
                testConfig (js "https://cdn.example.com/v/photo.jpg")
                {| pr_content := Buf twoPackets; pr_contentType := js "image/jpeg";
                   pr_status := 200;
                   pr_headers := {[ js "content-type" := js "image/jpeg" ]} |}
                twoPackets) as H.
  cbn [pr_headers] in H. apply H; vm_compute; reflexivity.
Defined.

(** ** Host names and subdomains (domain-templates.ts) *)

Lemma searchFrom_app (icase : bool) (r : re) (pre x : jsstring) :
  searchFrom icase r x = true → searchFrom icase r (pre ++ x) = true.
Proof.
  intros Hx. induction pre as [|a pre IH]; [done|].
  cbn [app searchFrom]. rewrite IH. apply orb_true_r.
Qed.

Lemma findDomainTemplateIn_earlier (templates : list DomainTemplate)
    (x h : jsstring) (T : DomainTemplate) :
  (∀ t, RegExp_test (pattern t) x = true → RegExp_test (pattern t) h = true) →
  findDomainTemplateIn templates x = Some T →
  ∃ T', findDomainTemplateIn templates h = Some T' ∧
        RegExp_test (pattern T') h = true ∧
        (T' = T ∨ ∃ l1 l2 l3, templates = l1 ++ T' :: l2 ++ T :: l3).
Proof.
  intros Hmono. unfold findDomainTemplateIn.
  induction templates as [|t ts IH]; [done|]. cbn [find].
  destruct (RegExp_test (pattern t) x) eqn:Ex.
  - intros [= ->]. rewrite (Hmono T Ex). exists T. auto.
  - intros HT. destruct (RegExp_test (pattern t) h) eqn:Eh.
    + exists t. split; [done|]. split; [done|]. right.
      apply (findDomainTemplateIn_first ts x T) in HT as (l2 & l3 & -> & _).
      by exists [], l2, l3.
    + destruct (IH HT) as (T' & HT' & Hm & Hpos). exists T'.
      split; [done|]. split; [done|].
      destruct Hpos as [->|(l1 & l2 & l3 & ->)]; [by left|right].
      by exists (t :: l1), l2, l3.
Qed.

(** X23. Subdomains of a matched host are matched too.  No pattern of
    the table is anchored at the start, so if a host name gets a template,
    the same name with anything put in front of it gets one as well: the
    same template, or one that stands earlier in the table. *)
Theorem X23_subdomains_matched (pre x : jsstring) (T : DomainTemplate) :
  findDomainTemplate x = Some T →
  ∃ T', findDomainTemplate (pre ++ x) = Some T' ∧
        RegExp_test (pattern T') (pre ++ x) = true ∧
        (T' = T ∨ ∃ l1 l2 l3, domainTemplates = l1 ++ T' :: l2 ++ T :: l3).
Proof.
  apply findDomainTemplateIn_earlier.
  intros t. apply searchFrom_app.
Qed.

(** The earlier template can be a different one: the bare host
    [shadowlandschronicles.com] and its subdomains get different origins. *)
Lemma X23_subdomains_matched_witness :
  let T := template (rx_i (cat [lit "shadowlandschronicles.com"; ReEnd]))
             "https://edgedeliverynetwork.org" "https://edgedeliverynetwork.org/" in
  findDomainTemplate (js "shadowlandschronicles.com") = Some T ∧
  ∃ T', findDomainTemplate (js "tmstr." ++ js "shadowlandschronicles.com") = Some T' ∧
        origin T' = js "https://cloudnestra.com".
Proof.
  intros T.
  assert (findDomainTemplate (js "shadowlandschronicles.com") = Some T) as HT
    by (vm_compute; reflexivity).
  split; [exact HT|].
  destruct (X23_subdomains_matched (js "tmstr.") _ T HT) as (T' & HT' & _).
  exists T'. split; [exact HT'|].
  vm_compute in HT'. injection HT' as <-. reflexivity.
Defined.

(** ** The window of the transport-stream check (mime-types.ts) *)

Lemma detectTransportStream_take (b : bytes) :
  detectTransportStream (take 941 b) = detectTransportStream b.
Proof.
  apply Bool.eq_iff_eq_true. rewrite !detectTransportStream_spec.
  rewrite length_take.
  assert (∀ o, o ∈ strideOffsets → (o < 941)%nat) as Hoff.
  { intros o Ho. unfold strideOffsets in Ho.
    repeat (apply elem_of_cons in Ho as [->|Ho]; [lia|]). by apply elem_of_nil in Ho. }
  split.
  - intros (Hlen & H0 & o & Ho & Hlt & Hs).
    apply lookup_take_Some in H0 as [H0 _]. apply lookup_take_Some in Hs as [Hs _].
    split; [lia|]. split; [done|]. exists o. split; [done|]. split; [lia|done].
  - intros (Hlen & H0 & o & Ho & Hlt & Hs).
    pose proof (Hoff o Ho).
    split; [lia|]. split; [apply lookup_take_Some; split; [done|lia]|].
    exists o. split; [done|]. split; [lia|]. by apply lookup_take_Some.
Qed.

(** X24. [detectTransportStream] looks at six bytes only, those at the
    offsets 0, 188, ..., 940, and at whether the buffer reaches them: two
    buffers that agree on their first 941 bytes get the same verdict,
    whatever follows. *)
Theorem X24_detection_window (b b' : bytes) :
  take 941 b = take 941 b' →
  detectTransportStream b = detectTransportStream b'.
Proof.
  intros H. by rewrite <- (detectTransportStream_take b), H, detectTransportStream_take.
Qed.

Lemma X24_detection_window_witness :
  detectTransportStream (twoPackets ++ replicate 600 Byte.x00 ++ [Byte.x01]) =
  detectTransportStream (twoPackets ++ replicate 600 Byte.x00 ++ [Byte.xff; Byte.xff]).
Proof.
  apply X24_detection_window. vm_compute. reflexivity.
Defined.
